(** * AES-DH: a shallow embedding of the cipher, the key exchange and the
      packet layer, with the properties stated about them.

    Conventions of the embedding.
    - [uint8_t], [uint32_t] and [uint64_t] values are integers of [Z]; every
      place where the C++ type truncates is written out with [u8], [u32] or
      [u64].
    - A [std::string] is a list of [byte]; it may hold NUL bytes.
    - [std::array<T,4>] is the four-field record [vec4].
    - A function that can throw returns a [res]. *)

From Stdlib Require Import ZArith List Bool Lia.
From Stdlib Require Import Strings.Byte.
From AAC_tactics Require Import AAC.
Import ListNotations.
Local Open Scope Z_scope.

(** ** Machine integers *)

Definition u8 (z : Z) : Z := Z.land z 0xff.
Definition u32 (z : Z) : Z := Z.land z 0xffffffff.
Definition u64 (z : Z) : Z := Z.land z 0xffffffffffffffff.

(** [std::rotl] on a [uint8_t] and on a [uint32_t]. *)
Definition rotl8 (v : Z) (s : Z) : Z :=
  u8 (Z.lor (Z.shiftl v s) (Z.shiftr v (8 - s))).
Definition rotl32 (v : Z) (s : Z) : Z :=
  u32 (Z.lor (Z.shiftl v s) (Z.shiftr v (32 - s))).

(** Byte [n] of a word in memory, on the little-endian targets the code is
    built for: what [reinterpret_cast<const uint8_t*>(&word)[n]] reads. *)
Definition byte_of_word (word : Z) (n : Z) : Z := u8 (Z.shiftr word (8 * n)).

(** The four bytes [dest[0..3]] read back as one [uint32_t]. *)
Definition word_of_bytes (b0 b1 b2 b3 : Z) : Z :=
  Z.lor b0 (Z.lor (Z.shiftl b1 8) (Z.lor (Z.shiftl b2 16) (Z.shiftl b3 24))).

(** The integers [lo, lo+1, ..., hi-1], the values a counting [for] loop
    takes. *)
Definition zrange (lo hi : Z) : list Z :=
  map (fun n => lo + Z.of_nat n) (seq 0 (Z.to_nat (hi - lo))).

(** ** Strings *)

Definition string := list byte.

Definition uchar (c : byte) : Z := Z.of_N (Byte.to_N c).

Definition char (z : Z) : byte :=
  match Byte.of_N (Z.to_N (u8 z)) with
  | Some c => c
  | None => x00
  end.

(** [operator==] on two strings. *)
Fixpoint string_eqb (a b : string) : bool :=
  match a, b with
  | [], [] => true
  | x :: a', y :: b' => Byte.eqb x y && string_eqb a' b'
  | _, _ => false
  end.

(** [in[i]] converted to [uint8_t], for [i] below the length. *)
Definition str_at (s : string) (i : Z) : Z :=
  uchar (nth (Z.to_nat i) s x00).

(** A string built from a C string literal, [std::string(const char* )]:
    the characters before the first NUL. *)
Fixpoint string_of_literal (lit : list byte) : string :=
  match lit with
  | [] => []
  | c :: rest => if Byte.eqb c x00 then [] else c :: string_of_literal rest
  end.

(** [std::string(reinterpret_cast<char*>(&v), 8)]: the eight bytes of a
    [uint64_t] as they lie in memory. *)
Definition string_of_u64 (v : Z) : string :=
  map (fun n => char (Z.shiftr v (8 * n))) (zrange 0 8).

(** ** Exceptions *)

Inductive exn : Type :=
| InvalidKeySize (Nr : Z)   (* "Invalid key size:" + std::to_string(Nr) *)
| MessageMismatch           (* "Message does not match! Refusing to decrypt!" *)
| InvalidRoundCount         (* "Invalid round count!" *)
| HmacFailed                (* "Failed to generate HMAC!" *)
| ReadFailed                (* "Failed to read from socket!" *)
| EmptyVector.              (* back() of an empty vector: no defined result *)

Inductive res (A : Type) : Type :=
| Ret (a : A)
| Throw (e : exn).
Arguments Ret {A} a.
Arguments Throw {A} e.

Definition bind {A B : Type} (m : res A) (f : A -> res B) : res B :=
  match m with
  | Ret a => f a
  | Throw e => Throw e
  end.

Notation "x <- m ;; k" := (bind m (fun x => k))
  (at level 61, m at next level, right associativity).

(** ** Fixed arrays of four *)

Record vec4 (A : Type) : Type := V4 { v0 : A; v1 : A; v2 : A; v3 : A }.
Arguments V4 {A} _ _ _ _.
Arguments v0 {A} _.
Arguments v1 {A} _.
Arguments v2 {A} _.
Arguments v3 {A} _.

(** [v[i]] and [v[i] = x]; the code only uses the indices 0 to 3. *)
Definition get4 {A : Type} (v : vec4 A) (i : Z) : A :=
  match i with
  | 0 => v0 v
  | 1 => v1 v
  | 2 => v2 v
  | _ => v3 v
  end.

Definition set4 {A : Type} (v : vec4 A) (i : Z) (x : A) : vec4 A :=
  match i with
  | 0 => V4 x (v1 v) (v2 v) (v3 v)
  | 1 => V4 (v0 v) x (v2 v) (v3 v)
  | 2 => V4 (v0 v) (v1 v) x (v3 v)
  | _ => V4 (v0 v) (v1 v) (v2 v) x
  end.

(** The array whose entry [i] is [f i]. *)
Definition tab4 {A : Type} (f : Z -> A) : vec4 A := V4 (f 0) (f 1) (f 2) (f 3).

Definition list4 {A : Type} (v : vec4 A) : list A := [v0 v; v1 v; v2 v; v3 v].

(** ** namespace aes::gf *)

Module gf.

(** [mult]: the loop [for (; b; b >>= 1)]; [b] has eight bits, so eight
    turns empty it. *)
Fixpoint mult_loop (turns : nat) (a b res : Z) : Z :=
  match turns with
  | O => res
  | S turns' =>
      if b =? 0 then res
      else
        let res := if negb (Z.land b 1 =? 0) then Z.lxor res a else res in
        let a := if negb (Z.land a 0x80 =? 0)
                 then u8 (Z.lxor (Z.shiftl a 1) 0x11b)
                 else u8 (Z.shiftl a 1) in
        mult_loop turns' a (Z.shiftr b 1) res
  end.

Definition mult (a b : Z) : Z := mult_loop 8 a b 0.

(** [inverse]: the first [x] in 0..255 with [mult(a, x) == 1], else 0. *)
Fixpoint inverse_loop (turns : nat) (a x : Z) : Z :=
  match turns with
  | O => 0
  | S turns' => if mult a x =? 1 then x else inverse_loop turns' a (x + 1)
  end.

Definition inverse (a : Z) : Z := inverse_loop 256 a 0.

End gf.

(** The affine step written out in both [key::SubWord] and
    [state_array::SubBytes]:
    [result[x] = i[x] ^ i[(x+4)%8] ^ i[(x+5)%8] ^ i[(x+6)%8] ^ i[(x+7)%8] ^ c[x]]
    with [i = gf::inverse(byte)] and [c = 0b01100011]. *)
Definition affine_bit (i c x : Z) : bool :=
  xorb (xorb (xorb (xorb (xorb (Z.testbit i x)
                               (Z.testbit i ((x + 4) mod 8)))
                         (Z.testbit i ((x + 5) mod 8)))
                   (Z.testbit i ((x + 6) mod 8)))
             (Z.testbit i ((x + 7) mod 8)))
       (Z.testbit c x).

Definition sub_byte (byte : Z) : Z :=
  let i := gf.inverse byte in
  let c := 0x63 in
  fold_left (fun result x => if affine_bit i c x then Z.setbit result x else result)
            (zrange 0 8) 0.

(** The body of [state_array::InvSubBytes] for one byte. *)
Definition inv_sub_byte (byte : Z) : Z :=
  let i := byte in
  let c := 0x05 in
  let result := Z.lxor (Z.lxor (Z.lxor (rotl8 i 1) (rotl8 i 3)) (rotl8 i 6)) c in
  gf.inverse result.

(** ** namespace aes::key *)

(** [Rcon] has ten entries and [Expansion] indexes it with [i / Nk], which
    reaches 10 when [Nk = 4]. The word the program finds there lies outside
    the table; it is left open as [Rcon_past]. *)
Class Layout : Type := { Rcon_past : Z }.

Module key.

Definition Rcon : list Z :=
  [0x01000000; 0x02000000; 0x04000000; 0x08000000; 0x10000000;
   0x20000000; 0x40000000; 0x80000000; 0x1b000000; 0x36000000].

Definition Rcon_at `{Layout} (n : Z) : Z := nth (Z.to_nat n) Rcon Rcon_past.

Definition RotWord (word : Z) : Z := rotl32 word 8.

Definition SubWord (word : Z) : Z :=
  let dest := tab4 (fun x => sub_byte (byte_of_word word x)) in
  word_of_bytes (v0 dest) (v1 dest) (v2 dest) (v3 dest).

(** [w[i]] and [w[i] = v] on the schedule vector. *)
Definition word_at (w : list Z) (i : Z) : Z := nth (Z.to_nat i) w 0.

Fixpoint store (w : list Z) (i : nat) (v : Z) : list Z :=
  match w, i with
  | [], _ => []
  | _ :: rest, O => v :: rest
  | x :: rest, S i' => x :: store rest i' v
  end.

(** One turn of the second loop of [Expansion]. *)
Definition Expansion_step `{Layout} (Nk : Z) (w : list Z) (i : Z) : list Z :=
  let temp := word_at w (i - 1) in
  let temp :=
    if i mod Nk =? 0 then Z.lxor (SubWord (RotWord temp)) (Rcon_at (i / Nk))
    else if (Nk >? 6) && (i mod Nk =? 4) then SubWord temp
    else temp in
  store w (Z.to_nat i) (Z.lxor (word_at w (i - Nk)) temp).

Definition Expansion `{Layout} (key : vec4 Z) (Nk : Z) : list Z :=
  let words :=
    flat_map (fun k => [u32 (Z.land k 0xffffffff); u32 (Z.shiftr k 32)])
             (list4 key) in
  let Nr := if Nk =? 4 then 10 else if Nk =? 6 then 12 else 14 in
  let w := repeat 0 (Z.to_nat (4 * Nr + 4)) in
  let w := fold_left (fun w i => store w (Z.to_nat i) (word_at words i))
                     (zrange 0 Nk) w in
  fold_left (Expansion_step Nk) (zrange Nk (4 * Nr + 3)) w.

End key.

(** ** class aes::state_array *)

Module state_array.

Definition t : Type := vec4 (vec4 Z).

(** [array[i][j]] *)
Definition cell (a : t) (i j : Z) : Z := get4 (get4 a i) j.

Definition put (a : t) (i j : Z) (v : Z) : t := set4 a i (set4 (get4 a i) j v).

Definition tab (f : Z -> Z -> Z) : t := tab4 (fun i => tab4 (fun j => f i j)).

(** [state_array(const std::string& in)]:
    [array[i / 4][i % 4] = i < length ? in[i] : 0]. *)
Definition of_string (s : string) : t :=
  tab (fun i j => let n := 4 * i + j in
                  if n <? Z.of_nat (length s) then str_at s n else 0).

(** [state_array(const std::string& in, size_t& x)]. The string and its
    cursor [x] are kept as the part of [in] not read yet; the result is
    the block and the part left after it. *)
Definition take (rest : string) : t * string := (of_string rest, skipn 16 rest).

(** The default constructor. *)
Definition zero : t := tab (fun _ _ => 0).

Definition xor_arr (a arr : t) : t :=
  tab (fun col row => Z.lxor (cell a col row) (cell arr col row)).

(** The order in which [for row { for col { ... array[col][row] ... } }]
    visits the cells, as pairs [(col, row)]. *)
Definition by_rows : list (Z * Z) :=
  flat_map (fun row => map (fun col => (col, row)) (zrange 0 4)) (zrange 0 4).

(** One pass of [shift_r], the carry running from cell to cell. *)
Definition shift_pass (a : t) : t :=
  fst (fold_left
         (fun (st : t * Z) (p : Z * Z) =>
            let (arr, carry) := st in
            let (col, row) := p in
            let value := u8 (Z.lor (Z.shiftr (cell arr col row) 1) carry) in
            let carry := if negb (Z.land (cell arr col row) 1 =? 0)
                         then 0x80 else 0 in
            (put arr col row value, carry))
         by_rows (a, 0)).

Fixpoint shift_r_rec (bits : nat) (a : t) : t :=
  match bits with
  | O => a
  | S bits' => shift_r_rec bits' (shift_pass a)
  end.

Definition shift_r (a : t) (bits : Z) : t := shift_r_rec (Z.to_nat bits) a.

Definition unravel (a : t) : string :=
  flat_map (fun row => map (fun col => char (cell a row col)) (zrange 0 4))
           (zrange 0 4).

Definition AddRoundKey (a : t) (round : Z) (keys : list Z) : t :=
  tab (fun row col =>
         let key := key.word_at keys (4 * round + col) in
         Z.lxor (cell a row col) (byte_of_word key row)).

Definition SubBytes (a : t) : t :=
  tab (fun col row => sub_byte (cell a col row)).

Definition InvSubBytes (a : t) : t :=
  tab (fun col row => inv_sub_byte (cell a col row)).

Definition ShiftRows (a : t) : t :=
  tab (fun col row => cell a ((col + row) mod 4) row).

(** [col - row] is computed on [size_t]. *)
Definition InvShiftRows (a : t) : t :=
  tab (fun col row => cell a (u64 (col - row) mod 4) row).

(** The four assignments to [buffer] in [MixColumns], for the entries
    [c] of [array[col]]. *)
Definition mix_col (c : vec4 Z) : vec4 Z :=
  V4 (Z.lxor (Z.lxor (Z.lxor (gf.mult 0x2 (v0 c)) (gf.mult 0x3 (v1 c))) (v2 c)) (v3 c))
     (Z.lxor (Z.lxor (Z.lxor (v0 c) (gf.mult 0x2 (v1 c))) (gf.mult 0x3 (v2 c))) (v3 c))
     (Z.lxor (Z.lxor (Z.lxor (v0 c) (v1 c)) (gf.mult 0x2 (v2 c))) (gf.mult 0x3 (v3 c)))
     (Z.lxor (Z.lxor (Z.lxor (gf.mult 0x3 (v0 c)) (v1 c)) (v2 c)) (gf.mult 0x2 (v3 c))).

Definition MixColumns (a : t) : t := tab4 (fun col => mix_col (get4 a col)).

(** The same for [InvMixColumns]. *)
Definition inv_mix_col (c : vec4 Z) : vec4 Z :=
  V4 (Z.lxor (Z.lxor (Z.lxor (gf.mult 0xe (v0 c)) (gf.mult 0xb (v1 c))) (gf.mult 0xd (v2 c))) (gf.mult 0x9 (v3 c)))
     (Z.lxor (Z.lxor (Z.lxor (gf.mult 0x9 (v0 c)) (gf.mult 0xe (v1 c))) (gf.mult 0xb (v2 c))) (gf.mult 0xd (v3 c)))
     (Z.lxor (Z.lxor (Z.lxor (gf.mult 0xd (v0 c)) (gf.mult 0x9 (v1 c))) (gf.mult 0xe (v2 c))) (gf.mult 0xb (v3 c)))
     (Z.lxor (Z.lxor (Z.lxor (gf.mult 0xb (v0 c)) (gf.mult 0xd (v1 c))) (gf.mult 0x9 (v2 c))) (gf.mult 0xe (v3 c))).

Definition InvMixColumns (a : t) : t := tab4 (fun col => inv_mix_col (get4 a col)).

End state_array.

(** ** class aes::state *)

Module state.

Record t : Type := Make {
  arrays : list state_array.t;
  expanded : list Z;
  key : vec4 Z;
  rounds : Z
}.

Definition Schedule `{Layout} (k : vec4 Z) (Nr : Z) : res (list Z) :=
  if Nr =? 10 then Ret (key.Expansion k 4)
  else if Nr =? 12 then Ret (key.Expansion k 6)
  else if Nr =? 14 then Ret (key.Expansion k 8)
  else Throw (InvalidKeySize Nr).

(** [while (x < in.length()) arrays.emplace_back(state_array(in, x))].
    Each turn reads at least one byte, so [length in] turns are enough. *)
Fixpoint fill (turns : nat) (rest : string) : list state_array.t :=
  match turns with
  | O => []
  | S turns' =>
      match rest with
      | [] => []
      | _ :: _ =>
          let (a, rest') := state_array.take rest in
          a :: fill turns' rest'
      end
  end.

Definition of_string `{Layout} (s : string) (k : vec4 Z) (Nr : Z) : res t :=
  w <- Schedule k Nr ;;
  Ret (Make (fill (length s) s) w k Nr).

Definition of_arrays `{Layout} (arrs : list state_array.t) (k : vec4 Z) (Nr : Z)
  : res t :=
  w <- Schedule k Nr ;;
  Ret (Make arrs w k Nr).

Definition with_arrays (s : t) (arrs : list state_array.t) : t :=
  Make arrs (expanded s) (key s) (rounds s).

Definition unravel (s : t) : string := flat_map state_array.unravel (arrays s).

Definition AddRoundKey (s : t) (round : Z) : t :=
  with_arrays s (map (fun a => state_array.AddRoundKey a round (expanded s)) (arrays s)).
Definition SubBytes (s : t) : t := with_arrays s (map state_array.SubBytes (arrays s)).
Definition InvSubBytes (s : t) : t := with_arrays s (map state_array.InvSubBytes (arrays s)).
Definition ShiftRows (s : t) : t := with_arrays s (map state_array.ShiftRows (arrays s)).
Definition InvShiftRows (s : t) : t := with_arrays s (map state_array.InvShiftRows (arrays s)).
Definition MixColumns (s : t) : t := with_arrays s (map state_array.MixColumns (arrays s)).
Definition InvMixColumns (s : t) : t := with_arrays s (map state_array.InvMixColumns (arrays s)).

End state.

(** ** aes::Cipher, aes::InvCipher, aes::Ctr *)

Section Modes.
Context `{Layout}.

Definition Cipher (input : string) (k : vec4 Z) (Nr : Z) : res string :=
  s <- state.of_string input k Nr ;;
  let s := state.AddRoundKey s 0 in
  let s :=
    fold_left
      (fun s x =>
         let s := state.SubBytes s in
         let s := state.ShiftRows s in
         let s := state.MixColumns s in
         state.AddRoundKey s (x + 1))
      (zrange 0 (Nr - 1)) s in
  let s := state.SubBytes s in
  let s := state.ShiftRows s in
  let s := state.AddRoundKey s (Nr - 1) in
  Ret (state.unravel s).

(** The loop runs [x] from [Nr - 1] down to 1. *)
Definition InvCipher (input : string) (k : vec4 Z) (Nr : Z) : res string :=
  s <- state.of_string input k Nr ;;
  let s := state.AddRoundKey s (Nr - 1) in
  let s :=
    fold_left
      (fun s x =>
         let s := state.InvShiftRows s in
         let s := state.InvSubBytes s in
         let s := state.AddRoundKey s x in
         state.InvMixColumns s)
      (rev (zrange 1 Nr)) s in
  let s := state.InvShiftRows s in
  let s := state.InvSubBytes s in
  let s := state.AddRoundKey s 0 in
  Ret (state.unravel s).

(** The loop of [Ctr] over the blocks, the nonce going up by one each
    turn. *)
Fixpoint Ctr_loop (arrs : list state_array.t) (k : vec4 Z) (Nr : Z) (nonce : Z)
  : res (list state_array.t) :=
  match arrs with
  | [] => Ret []
  | array :: rest =>
      c <- Cipher (string_of_u64 nonce) k Nr ;;
      let pad := state_array.of_string c in
      let array := state_array.xor_arr array pad in
      rest' <- Ctr_loop rest k Nr (u64 (nonce + 1)) ;;
      Ret (array :: rest')
  end.

Definition Ctr (input : string) (k : vec4 Z) (Nr : Z) (nonce : Z) : res string :=
  s <- state.of_string input k Nr ;;
  arrs <- Ctr_loop (state.arrays s) k Nr nonce ;;
  Ret (state.unravel (state.with_arrays s arrs)).

End Modes.

(** ** namespace aes::gcm *)

Module gcm.
Section Gcm.
Context `{Layout}.

Definition increment (X : state_array.t) : state_array.t :=
  let lsb :=
    u32 (Z.lor (Z.lor (Z.lor (Z.shiftl (state_array.cell X 3 0) 24)
                             (Z.shiftl (state_array.cell X 3 1) 16))
                      (Z.shiftl (state_array.cell X 3 2) 8))
               (state_array.cell X 3 3)) in
  let lsb := u32 (lsb + 1) in
  fst (fold_left
         (fun (st : state_array.t * Z) x =>
            let (array, lsb) := st in
            (state_array.put array 3 x (Z.land lsb 0xFF), Z.shiftr lsb 8))
         [3; 2; 1; 0] (X, lsb)).

(** The reducing block [R]. *)
Definition R : state_array.t := state_array.put state_array.zero 0 0 0xe1.

(** One turn of the innermost loop of [mult]. [byte] is tested at its top
    bit; the statement [byte << 1] stores nothing, so [byte] is the same
    in all eight turns. In [V.get()[3][3] & 1 == 1] the comparison binds
    first and yields 1. *)
Definition mult_bit (byte : Z) (st : state_array.t * state_array.t)
  : state_array.t * state_array.t :=
  let (Z', V) := st in
  let x := negb (Z.land byte 0x80 =? 0) in
  let Z' := if x then state_array.xor_arr Z' V else Z' in
  let V := state_array.shift_r V 1 in
  let V := if negb (Z.land (state_array.cell V 3 3) (if 1 =? 1 then 1 else 0) =? 0)
           then state_array.xor_arr V R else V in
  (Z', V).

Definition mult (X Y : state_array.t) : state_array.t :=
  fst (fold_left
         (fun st (p : Z * Z) =>
            let (col, row) := p in
            let byte := state_array.cell X col row in
            fold_left (fun st _ => mult_bit byte st) (zrange 0 8) st)
         state_array.by_rows (state_array.zero, Y)).

Definition GHASH (X : state.t) (H' : state_array.t) : state_array.t :=
  fold_left (fun Y array => mult (state_array.xor_arr Y array) H')
            (state.arrays X) state_array.zero.

Fixpoint GCTR_loop (arrs : list state_array.t) (k : vec4 Z) (Nr : Z)
         (ICB : state_array.t) : res (list state_array.t) :=
  match arrs with
  | [] => Ret []
  | array :: rest =>
      c <- Cipher (state_array.unravel ICB) k Nr ;;
      let pad := state_array.of_string c in
      let array := state_array.xor_arr array pad in
      rest' <- GCTR_loop rest k Nr (increment ICB) ;;
      Ret (array :: rest')
  end.

Definition GCTR (s : state.t) (ICB : state_array.t) : res state.t :=
  arrs <- GCTR_loop (state.arrays s) (state.key s) (state.rounds s) ICB ;;
  Ret (state.with_arrays s arrs).

(** The literal ["\0\0\0\0\0\0\0\0\0\0\0\0\0\0\0\0"] with its closing NUL. *)
Definition zero_literal : list byte := repeat x00 17.

(** [state_array H = Cipher("\0...\0", k, Nr)], the first statement of both
    [Enc] and [Dec]: the literal becomes a [std::string], the result of
    [Cipher] becomes a [state_array]. *)
Definition hash_subkey (k : vec4 Z) (Nr : Z) : res state_array.t :=
  c <- Cipher (string_of_literal zero_literal) k Nr ;;
  Ret (state_array.of_string c).

(** [auto J = GHASH(state(std::string(&nonce, 8), k, Nr), H)], the second
    statement of both. *)
Definition initial_counter (k : vec4 Z) (Nr : Z) (nonce : Z) (H' : state_array.t)
  : res state_array.t :=
  s <- state.of_string (string_of_u64 nonce) k Nr ;;
  Ret (GHASH s H').

Definition Enc (input : string) (k : vec4 Z) (Nr : Z) (nonce : Z) : res string :=
  H' <- hash_subkey k Nr ;;
  J <- initial_counter k Nr nonce H' ;;
  let Jc := increment J in
  cipher_state <- state.of_string input k Nr ;;
  cipher_state <- GCTR cipher_state Jc ;;
  hs <- state.of_arrays [GHASH cipher_state H'] k Nr ;;
  hs <- GCTR hs J ;;
  let hash := nth 0 (state.arrays hs) state_array.zero in
  Ret (state.unravel
         (state.with_arrays cipher_state (state.arrays cipher_state ++ [hash]))).

Definition Dec (input : string) (k : vec4 Z) (Nr : Z) (nonce : Z) : res string :=
  H' <- hash_subkey k Nr ;;
  J <- initial_counter k Nr nonce H' ;;
  cipher_state <- state.of_string input k Nr ;;
  match rev (state.arrays cipher_state) with
  | [] => Throw EmptyVector
  | hash :: _ =>
      let cipher_state :=
        state.with_arrays cipher_state (removelast (state.arrays cipher_state)) in
      hs <- state.of_arrays [hash] k Nr ;;
      hs <- GCTR hs J ;;
      let hash := nth 0 (state.arrays hs) state_array.zero in
      if negb (string_eqb (state_array.unravel hash)
                          (state_array.unravel (GHASH cipher_state H')))
      then Throw MessageMismatch
      else
        let J := increment J in
        s <- GCTR cipher_state J ;;
        Ret (state.unravel s)
  end.

End Gcm.
End gcm.

(** ** namespace prime *)

Module prime.

(** [is] (the name is a keyword here). The root is taken with [std::sqrt] on a [double]; for the values
    the program draws (below 2^33) that is the integer square root. *)
Definition is_ (num : Z) : bool :=
  if num =? 1 then false
  else
    let root := Z.sqrt num + 1 in
    negb (existsb (fun x => num mod x =? 0) (zrange 2 (root + 1))).

(** The loop of [next<T>], [T] being [width] bits wide. *)
Fixpoint next_loop (turns : nat) (width : Z) (num : Z) : option Z :=
  match turns with
  | O => None
  | S turns' =>
      if negb (is_ num) then next_loop turns' width (Z.land (num + 2) (Z.ones width))
      else Some num
  end.

Definition next (turns : nat) (width : Z) (num : Z) : option Z :=
  let num := if num mod 2 =? 0 then Z.land (num + 1) (Z.ones width) else num in
  next_loop turns width num.

(** [raise]: [exp] has 64 bits and loses one each turn. *)
Fixpoint raise_loop (turns : nat) (ret value exp modulus : Z) : Z :=
  match turns with
  | O => ret
  | S turns' =>
      if exp >? 0 then
        let ret := if negb (Z.land exp 1 =? 0)
                   then u64 (ret * value) mod modulus else ret in
        let exp := Z.shiftr exp 1 in
        let value := u64 (value * value) mod modulus in
        raise_loop turns' ret value exp modulus
      else ret
  end.

Definition raise (value exp modulus : Z) : Z :=
  let ret := 1 in
  let value := value mod modulus in
  raise_loop 64 ret value exp modulus.

(** [generate]. Each call draws once from [std::rand()]; [draws] lists the
    values it returns, in order. *)
Fixpoint generate (turns : nat) (draws : list Z) : option (Z * Z) :=
  match draws with
  | [] => None
  | r :: draws' =>
      match next turns 32 (u32 r) with
      | None => None
      | Some q =>
          let p := u64 (q * 2 + 1) in
          if negb (is_ p) then generate turns draws' else Some (p, q)
      end
  end.

End prime.

(** ** namespace exchange *)

Module exchange.

Definition compute_intermediary (p g k : Z) : Z :=
  let r := k mod (p - 1) in
  prime.raise g r p.

(** [while (prime::raise(h++, (p-1)/q, p) <= 1) {}]: [h] is raised after
    it has been handed to [raise], also in the turn that ends the loop.
    The result is [h] as the loop leaves it. *)
Fixpoint search_h (turns : nat) (p q h : Z) : option Z :=
  match turns with
  | O => None
  | S turns' =>
      let tried := h in
      let h := u64 (h + 1) in
      if prime.raise tried ((p - 1) / q) p <=? 1 then search_h turns' p q h
      else Some h
  end.

(** The server branch of [exchange_keys] from [uint64_t h = 1] to the
    assignment of [g]. *)
Definition server_generator (turns : nat) (p q : Z) : option Z :=
  match search_h turns p q 1 with
  | None => None
  | Some h => Some (prime.raise h ((p - 1) / q) p)
  end.

End exchange.

(** ** namespace hmac *)

Module hmac.
Section Hmac.

(** OpenSSL's [HMAC(EVP_sha256(), key, key_len, msg, msg_len, ...)]:
    the digest, or nothing where it returns [NULL]. *)
Variable HMAC_sha256 : string -> string -> option string.

(** The inner loop of [generate] for one key word. *)
Definition word_bytes (num : Z) : string :=
  fst (fold_left
         (fun (st : string * Z) (_ : Z) =>
            let (key_bytes, num) := st in
            (key_bytes ++ [char (Z.land num 0xf)], Z.shiftr num 1))
         (zrange 0 8) ([], num)).

Definition key_bytes (key : vec4 Z) (keys : Z) : string :=
  flat_map (fun x => word_bytes (get4 key x)) (zrange 0 keys).

Definition generate (message : string) (key : vec4 Z) (rounds : Z) : res string :=
  keys <- (if rounds =? 10 then Ret 2
           else if rounds =? 12 then Ret 3
           else if rounds =? 14 then Ret 4
           else Throw InvalidRoundCount) ;;
  match HMAC_sha256 (key_bytes key keys) message with
  | None => Throw HmacFailed
  | Some md => Ret md
  end.

End Hmac.
End hmac.

(** ** namespace network *)

Module network.

Inductive meta : Type :=
| ERROR | EMPTY | DATA | HMAC | NONCE | IV
| FINAL | MESSAGE | ACK | REFUSED | REEXCHANGE.

(** The enumerators count from zero. *)
Definition meta_value (m : meta) : Z :=
  match m with
  | ERROR => 0 | EMPTY => 1 | DATA => 2 | HMAC => 3 | NONCE => 4 | IV => 5
  | FINAL => 6 | MESSAGE => 7 | ACK => 8 | REFUSED => 9 | REEXCHANGE => 10
  end.

Definition PACKET_SIZE : nat := 1024.

Record packet : Type := Packet { m : meta; data : list byte }.

(** A packet as its member initialisers leave it. *)
Definition fresh : packet := Packet EMPTY (repeat x00 PACKET_SIZE).

(** What [poll] answers, and for a readable socket the frame [recv] writes
    over [p]. *)
Inductive polled : Type :=
| poll_error      (* -1 *)
| poll_timeout    (* 0 *)
| poll_ready (frame : packet).

Definition recv_packet (ev : polled) : packet :=
  let p := fresh in
  match ev with
  | poll_error | poll_timeout => Packet ERROR (data p)
  | poll_ready frame => frame
  end.

Section Value.
(** [T ret = {}; std::istringstream (str) >> ret;] for the type [T]. *)
Variable T : Type.
Variable extract : string -> T.

(** The test is [p.m = network::meta::ERROR]: an assignment, whose value
    is then read as the condition. *)
Definition recv_value (ev : polled) : res T :=
  let p := recv_packet ev in
  let p := Packet ERROR (data p) in
  if negb (meta_value (m p) =? 0) then Throw ReadFailed
  else
    let str := firstn PACKET_SIZE (data p) in
    Ret (extract str).
End Value.

End network.

(** ** exchange::exchange_keys *)

(** How a call of [exchange_keys] ends: with the shared key, or with the
    exception "Failed to send key!". *)
Inductive outcome : Type :=
| Shared (sk : Z)
| FailedToSendKey.

(** [exchange_keys(server)]. [k] is the value [std::rand()] returns for the
    private key and [draws] the values it returns after that; [code n] is
    what the call number [n] of [send_value] returns and [recv n] what the
    call number [n] of [recv_value] returns. The result lists the values
    handed to [send_value], in order. *)
Definition exchange_keys (turns : nat) (server : bool) (k : Z) (draws : list Z)
           (code : nat -> Z) (recv : nat -> Z) : option (list Z * outcome) :=
  if server then
    match prime.generate turns draws with
    | None => None
    | Some (p, q) =>
        match exchange.server_generator turns p q with
        | None => None
        | Some g =>
            if code 0%nat =? -1 then Some ([p], FailedToSendKey)
            else if code 1%nat =? -1 then Some ([p; g], FailedToSendKey)
            else
              let i := exchange.compute_intermediary p g k in
              if code 2%nat =? -1 then Some ([p; g; i], FailedToSendKey)
              else
                let a := recv 0%nat in
                Some ([p; g; i], Shared (prime.raise a k p))
        end
    end
  else
    let p := recv 0%nat in
    let g := recv 1%nat in
    let a := recv 2%nat in
    let i := exchange.compute_intermediary p g k in
    if code 0%nat =? -1 then Some ([i], FailedToSendKey)
    else Some ([i], Shared (prime.raise a k p)).

(** ** network: sending values and strings *)

Module netio.
Import network.

(** What the functions of this part throw. *)
Inductive failure : Type :=
| ValueExceedsPacket       (* "Value exceeds packet size!" *)
| FailureReceiving         (* "Failure recieving packet!" *)
| Earlier (e : exn)        (* thrown by [recv_value] *)
| PastTheEnd.              (* [std::string(ptr, n)] with [n] beyond the
                              buffer: no defined result *)

Inductive answer (A : Type) : Type :=
| Done (a : A)
| Raised (f : failure).
Arguments Done {A} a.
Arguments Raised {A} f.

(** One call of [send_packet] as the socket answers it: [poll] returns -1
    or 0, or the socket can be written and [send] returns [code]. *)
Inductive sending : Type :=
| send_refused
| send_done (code : Z).

(** [send_packet]: its return code, and the packet handed to [send] if one
    was. *)
Definition send_packet (p : packet) (ev : sending) : Z * list packet :=
  match ev with
  | send_refused => (-1, [])
  | send_done code => (code, [p])
  end.

(** [data[i] = c] *)
Fixpoint poke (d : list byte) (i : nat) (c : byte) : list byte :=
  match d, i with
  | [], _ => []
  | _ :: rest, O => c :: rest
  | b :: rest, S i' => b :: poke rest i' c
  end.

(** [while (x % PACKET_SIZE != 0) p.data[x++ % PACKET_SIZE] = 0]: at most
    [PACKET_SIZE] turns. *)
Fixpoint zero_fill (turns : nat) (x : nat) (d : list byte) : list byte :=
  match turns with
  | O => d
  | S turns' =>
      if (x mod PACKET_SIZE =? 0)%nat then d
      else zero_fill turns' (S x) (poke d (x mod PACKET_SIZE) x00)
  end.

(** [strncpy(&p.data[0], str.c_str(), PACKET_SIZE)] for a string of at most
    [PACKET_SIZE] characters: the characters before the first NUL, and NUL
    in the rest of the buffer. *)
Definition strncpy (str : string) : list byte :=
  let copied := string_of_literal str in
  copied ++ repeat x00 (PACKET_SIZE - length copied).

Section Sending.
(** [in << value] for the type [T]. *)
Variable T : Type.
Variable render : T -> string.

Definition send_value (value : T) (type : meta) (ev : sending)
  : answer (Z * list packet) :=
  let str := render value in
  if (PACKET_SIZE <? length str)%nat then Raised ValueExceedsPacket
  else Done (send_packet (Packet type (strncpy str)) ev).
End Sending.

Section Strings.
(** [in << value] and [std::istringstream (str) >> ret] for [uint64_t]. *)
Variable render : Z -> string.
Variable extract : string -> Z.

(** The state of [send_string] in its loop: the buffer [p.data], the index
    [x], the number of calls of [send_packet] so far and the packets handed
    to [send] so far; [gave_up] is set where the loop returns -1. *)
Record sender : Type := Sender {
  gave_up : bool;
  buffer : list byte;
  index : nat;
  calls : nat;
  handed : list packet
}.

(** The loop [for (x = 1; x < message.length(); ++x)] of [send_string];
    [rest] holds [message[x]] and the characters after it. [evs n] answers
    call number [n] of [send_packet]. *)
Fixpoint send_loop (evs : nat -> sending) (type : meta) (rest : string)
         (x : nat) (d : list byte) (n : nat) (sent : list packet) : sender :=
  match rest with
  | [] => Sender false d x n sent
  | c :: rest' =>
      if (x mod PACKET_SIZE =? 0)%nat then
        let (code, out) := send_packet (Packet type d) (evs n) in
        if code =? -1 then Sender true d x (S n) (sent ++ out)
        else send_loop evs type rest' (S x) (poke d (x mod PACKET_SIZE) c)
                       (S n) (sent ++ out)
      else send_loop evs type rest' (S x) (poke d (x mod PACKET_SIZE) c) n sent
  end.

(** [send_string]: the return code and the packets handed to [send]. The
    code [send_value] returns for the length is not looked at. *)
Definition send_string (message : string) (type : meta) (evs : nat -> sending)
  : answer (Z * list packet) :=
  match send_value Z render (Z.of_nat (length message)) DATA (evs 0%nat) with
  | Raised f => Raised f
  | Done (_, sent) =>
      let d := poke (data fresh) 0 (nth 0 message x00) in
      let s := send_loop evs type (tl message) 1 d 1 sent in
      if gave_up s then Done (-1, handed s)
      else
        let d := zero_fill PACKET_SIZE (index s) (buffer s) in
        let (code, out) := send_packet (Packet FINAL d) (evs (calls s)) in
        Done (if code =? -1 then -1 else 0, handed s ++ out)
  end.

(** The loop of [recv_string] over the answers of [poll], one for each call
    of [recv_packet]; it gives nothing where the answers end before a
    [FINAL] packet came. *)
Fixpoint recv_loop (evs : list polled) (ret : string) : option (answer string) :=
  match evs with
  | [] => None
  | ev :: evs' =>
      let p := recv_packet ev in
      if meta_value (m p) =? meta_value ERROR then Some (Raised FailureReceiving)
      else
        let ret := ret ++ firstn PACKET_SIZE (data p) in
        if meta_value (m p) =? meta_value FINAL then Some (Done ret)
        else recv_loop evs' ret
  end.

Definition recv_string (evs : list polled) : option (answer string) :=
  match evs with
  | [] => None
  | ev :: evs' =>
      match recv_value Z extract ev with
      | Throw e => Some (Raised (Earlier e))
      | Ret len =>
          match recv_loop evs' [] with
          | None => None
          | Some (Raised f) => Some (Raised f)
          | Some (Done ret) =>
              (* [ret.c_str()] holds [ret] and one NUL after it *)
              if (Z.to_nat len <=? S (length ret))%nat
              then Some (Done (firstn (Z.to_nat len) (ret ++ [x00])))
              else Some (Raised PastTheEnd)
          end
      end
  end.

End Strings.
End netio.

(** ** aes.cpp: the command line program *)

Module cli.

(** The string literals of [main]. *)
Definition opt_help : string := [x2d; x2d; x68; x65; x6c; x70].                    (* "--help" *)
Definition opt_mode : string := [x2d; x2d; x6d; x6f; x64; x65].                    (* "--mode" *)
Definition opt_keyfile : string := [x2d; x2d; x6b; x65; x79; x66; x69; x6c; x65].  (* "--keyfile" *)
Definition opt_infile : string := [x2d; x2d; x69; x6e; x66; x69; x6c; x65].        (* "--infile" *)
Definition opt_outfile : string := [x2d; x2d; x6f; x75; x74; x66; x69; x6c; x65].  (* "--outfile" *)
Definition ENC : string := [x45; x4e; x43].
Definition DEC : string := [x44; x45; x43].
Definition s128 : string := [x31; x32; x38].
Definition s192 : string := [x31; x39; x32].
Definition s256 : string := [x32; x35; x36].
Definition ECB : string := [x45; x43; x42].
Definition CTR : string := [x43; x54; x52].
Definition GCM : string := [x47; x43; x4d].

(** [arg.find("=")] *)
Fixpoint find_eq (arg : string) : option nat :=
  match arg with
  | [] => None
  | c :: rest =>
      if Byte.eqb c x3d then Some O
      else match find_eq rest with
           | Some n => Some (S n)
           | None => None
           end
  end.

(** [s.substr(pos, n)] for [pos] within [s]. *)
Definition substr (s : string) (pos n : nat) : string := firstn n (skipn pos s).

(** The pair [(arg.substr(0, delim), arg.substr(delim + 1))]; where there is
    no ["="], [delim] is [npos], the first is the whole argument and, as
    [npos + 1] is 0, so is the second. *)
Definition split_arg (arg : string) : string * string :=
  match find_eq arg with
  | Some delim => (firstn delim arg, skipn (S delim) arg)
  | None => (arg, arg)
  end.

(** The map [arguments] as the list of its assignments, the latest first. *)
Definition arguments (argv : list string) : list (string * string) :=
  fold_left (fun m arg => split_arg arg :: m) argv [].

(** [arguments.count(k)] and [arguments[k]] *)
Definition lookup (k : string) (m : list (string * string)) : option string :=
  match find (fun kv => string_eqb (fst kv) k) m with
  | Some kv => Some (snd kv)
  | None => None
  end.

(** What the program finds outside: the content of the file a path opens
    (nothing where it does not open), the lines typed on the console, the
    number [std::cin >> nonce] stores, and the value of [std::rand()]. *)
Record world : Type := World {
  files : string -> option string;
  console : list string;
  cin_nonce : Z;
  rand : Z
}.

(** How [main] ends: it returns [code], having written [written] (a path
    and the content) if it wrote a file; or an exception of the cipher is
    not caught; or [substr(8)] throws [std::out_of_range] on an input of
    fewer than eight bytes. What goes to the console is left out. *)
Inductive ending : Type :=
| Returned (code : Z) (written : option (string * string))
| Uncaught (e : exn)
| OutOfRange.

(** [std::getline] on a file stream: the characters before the first
    newline; the string is left as it is, empty here, where the file did
    not open. *)
Fixpoint first_line (s : string) : string :=
  match s with
  | [] => []
  | c :: rest => if Byte.eqb c x0a then [] else c :: first_line rest
  end.

(** [*reinterpret_cast<uint64_t*>(&s[0])]: eight bytes as one number, the
    first the least significant. *)
Definition load64 (s : string) : Z :=
  fold_left (fun acc i => Z.lor acc (Z.shiftl (str_at s i) (8 * i))) (zrange 0 8) 0.

(** The three assignments for a key size. *)
Definition key_size_of (key_size : string) : option (nat * Z * Z) :=
  if string_eqb key_size s128 then Some (128%nat, 10, 2)
  else if string_eqb key_size s192 then Some (192%nat, 12, 3)
  else if string_eqb key_size s256 then Some (256%nat, 14, 4)
  else None.

(** The key: the line read is filled with NUL up to [size / 8] bytes and
    the first [keys] words of eight bytes are taken from it. *)
Definition load_key (input : string) (size : nat) (keys : Z) : vec4 Z :=
  let input := input ++ repeat x00 (size / 8 - length input) in
  tab4 (fun x => if x <? keys then load64 (skipn (8 * Z.to_nat x) input) else 0).

Section Main.
Context `{Layout}.

(** The three calls under [if (operation == "ENC")], and the three under
    [else if (operation == "DEC")]; the string is empty before them. *)
Definition encrypt (mode input : string) (key : vec4 Z) (rounds nonce : Z)
  : res string :=
  if string_eqb mode ECB then Cipher input key rounds
  else if string_eqb mode CTR then Ctr input key rounds nonce
  else if string_eqb mode GCM then gcm.Enc input key rounds nonce
  else Ret [].

Definition decrypt (mode input : string) (key : vec4 Z) (rounds nonce : Z)
  : res string :=
  if string_eqb mode ECB then InvCipher input key rounds
  else if string_eqb mode CTR then Ctr input key rounds nonce
  else if string_eqb mode GCM then gcm.Dec input key rounds nonce
  else Ret [].

(** The last part of [main], from [if (operation == "ENC")]. *)
Definition transform (args : list (string * string)) (operation mode : string)
           (input : string) (key : vec4 Z) (rounds nonce : Z) : ending :=
  if string_eqb operation ENC then
    match encrypt mode input key rounds nonce with
    | Throw e => Uncaught e
    | Ret cipher =>
        match lookup opt_outfile args with
        | Some path => Returned 0 (Some (path, string_of_u64 nonce ++ cipher))
        | None => Returned 0 None
        end
    end
  else if string_eqb operation DEC then
    match decrypt mode input key rounds nonce with
    | Throw e => Uncaught e
    | Ret plain =>
        match lookup opt_outfile args with
        | Some path => Returned 0 (Some (path, plain))
        | None => Returned 0 None
        end
    end
  else Returned 0 None.

Definition main (argv : list string) (w : world) : ending :=
  let args := arguments argv in
  match lookup opt_help args with
  | Some _ => Returned 0 None
  | None =>
  match lookup opt_mode args with
  | None => Returned (-1) None
  | Some mode_arg =>
  if negb (length mode_arg =? 11)%nat then Returned (-1) None
  else
  let operation := substr mode_arg 0 3 in
  if negb (string_eqb operation ENC) && negb (string_eqb operation DEC)
  then Returned (-1) None
  else
  match key_size_of (substr mode_arg 4 3) with
  | None => Returned (-1) None
  | Some (size, rounds, keys) =>
  let mode := substr mode_arg 8 3 in
  if negb (string_eqb mode ECB) && negb (string_eqb mode CTR)
     && negb (string_eqb mode GCM)
  then Returned (-1) None
  else
  (* the key *)
  let (input, typed) :=
    match lookup opt_keyfile args with
    | Some path =>
        (match files w path with Some content => first_line content | None => [] end,
         console w)
    | None => (hd [] (console w), tl (console w))
    end in
  let key := load_key input size keys in
  let nonce := u64 (rand w) in
  (* the input *)
  match lookup opt_infile args with
  | Some path =>
      let input := match files w path with Some content => content | None => [] end in
      if string_eqb operation DEC then
        (* the nonce is read from the buffer of [input] before [substr(8)] *)
        if (length input <? 8)%nat then OutOfRange
        else transform args operation mode (skipn 8 input) key rounds (load64 input)
      else transform args operation mode input key rounds nonce
  | None =>
      let input := hd [] typed in
      let nonce := if string_eqb mode ECB && string_eqb operation DEC
                   then cin_nonce w else nonce in
      transform args operation mode input key rounds nonce
  end
  end
  end
  end.

End Main.
End cli.

(** ** main.cpp: the messages shown at the start *)

Module app.

(** The string literals of the three loops and the text written after
    each loop (a tab, the mode in brackets, a newline). *)
(** [Welcome ] *)
Definition welcome_1 : list byte :=
  [x57; x65; x6c; x63; x6f; x6d; x65; x20].
(** [to the ] *)
Definition welcome_2 : list byte :=
  [x74; x6f; x20; x74; x68; x65; x20].
(** [AES-DH application!] *)
Definition welcome_3 : list byte :=
  [x41; x45; x53; x2d; x44; x48; x20; x61; x70; x70; x6c; x69; x63; x61;
   x74; x69; x6f; x6e; x21].
(** [\t(ECB)\n] *)
Definition after_ecb : list byte :=
  [x09; x28; x45; x43; x42; x29; x0a].
(** [If any of ] *)
Definition welcome_4 : list byte :=
  [x49; x66; x20; x61; x6e; x79; x20; x6f; x66; x20].
(** [these messages ] *)
Definition welcome_5 : list byte :=
  [x74; x68; x65; x73; x65; x20; x6d; x65; x73; x73; x61; x67; x65; x73;
   x20].
(** [look corrupted] *)
Definition welcome_6 : list byte :=
  [x6c; x6f; x6f; x6b; x20; x63; x6f; x72; x72; x75; x70; x74; x65; x64].
(** [\t(CTR)\n] *)
Definition after_ctr : list byte :=
  [x09; x28; x43; x54; x52; x29; x0a].
(** [Then you need ] *)
Definition welcome_7 : list byte :=
  [x54; x68; x65; x6e; x20; x79; x6f; x75; x20; x6e; x65; x65; x64; x20].
(** [to recompile ] *)
Definition welcome_8 : list byte :=
  [x74; x6f; x20; x72; x65; x63; x6f; x6d; x70; x69; x6c; x65; x20].
(** [the app!] *)
Definition welcome_9 : list byte :=
  [x74; x68; x65; x20; x61; x70; x70; x21].
(** [\t(GCM)\n] *)
Definition after_gcm : list byte :=
  [x09; x28; x47; x43; x4d; x29; x0a].

Section Start.
Context `{Layout}.

(** One of the loops
    [for (const auto& welcome : {...}) { std::cout << step(welcome, Nr); Nr += 2; }]
    from [Nr = 10]: what stands on the console after it, [out] standing
    there before. Each literal becomes a [std::string]. *)
Definition show (step : string -> Z -> res string) (literals : list (list byte))
           (out : string) : res string :=
  st <- fold_left
          (fun (st : res (Z * string)) welcome =>
             st <- st ;;
             shown <- step (string_of_literal welcome) (fst st) ;;
             Ret (fst st + 2, snd st ++ shown))
          literals (Ret (10, out)) ;;
  Ret (snd st).

(** What [main] writes to the console before it asks for Enter; [nonce] is
    the value of [std::rand()]. *)
Definition start (nonce : Z) : res string :=
  let nonce := u64 nonce in
  let sk := V4 0 0 0 0 in
  out <- show (fun welcome Nr => c <- Cipher welcome sk Nr ;; InvCipher c sk Nr)
              [welcome_1; welcome_2; welcome_3] [] ;;
  let out := out ++ after_ecb in
  out <- show (fun welcome Nr => c <- Ctr welcome sk Nr nonce ;; Ctr c sk Nr nonce)
              [welcome_4; welcome_5; welcome_6] out ;;
  let out := out ++ after_ctr in
  out <- show (fun welcome Nr =>
                 c <- gcm.Enc welcome sk Nr nonce ;; gcm.Dec c sk Nr nonce)
              [welcome_7; welcome_8; welcome_9] out ;;
  Ret (out ++ after_gcm).

End Start.
End app.

(** * Definitions for the statements and the proofs *)

(** The values of a [uint8_t]. *)
Definition is_u8 (z : Z) : Prop := 0 <= z < 256.

(** The step [a] takes in one turn of [gf::mult]. *)
Definition xtime (a : Z) : Z :=
  if negb (Z.land a 0x80 =? 0) then u8 (Z.lxor (Z.shiftl a 1) 0x11b)
  else u8 (Z.shiftl a 1).

(** The constants of the two column matrices. *)
Definition mix_consts : list Z := [0x2; 0x3; 0x9; 0xb; 0xd; 0xe].

(** The factor of [a] in entry [i] of the product of the matrix of
    [InvMixColumns] with the matrix of [MixColumns] applied to a column whose
    entry [j] is [a]; [mul1] is the plain [a] the source writes for the
    factor 1. *)
Definition mul1 (c a : Z) : Z := if c =? 1 then a else gf.mult c a.

(** Entry [(k, j)] of the matrix of [MixColumns] and entry [(i, k)] of the
    matrix of [InvMixColumns]. *)
Definition fwd (k j : Z) : Z :=
  nth (Z.to_nat j) (nth (Z.to_nat k) [[2;3;1;1];[1;2;3;1];[1;1;2;3];[3;1;1;2]] []) 0.

Definition bwd (i k : Z) : Z :=
  nth (Z.to_nat k)
      (nth (Z.to_nat i) [[0xe;0xb;0xd;0x9];[0x9;0xe;0xb;0xd];[0xd;0x9;0xe;0xb];[0xb;0xd;0x9;0xe]] [])
      0.

Definition coef (i j a : Z) : Z :=
  Z.lxor (Z.lxor (Z.lxor (gf.mult (bwd i 0) (mul1 (fwd 0 j) a))
                         (gf.mult (bwd i 1) (mul1 (fwd 1 j) a)))
                 (gf.mult (bwd i 2) (mul1 (fwd 2 j) a)))
         (gf.mult (bwd i 3) (mul1 (fwd 3 j) a)).

(** Every entry of the column holds a byte. *)
Definition wf4 (c : vec4 Z) : Prop :=
  is_u8 (v0 c) /\ is_u8 (v1 c) /\ is_u8 (v2 c) /\ is_u8 (v3 c).

(** Every cell of the block holds a byte. *)
Definition wf (a : state_array.t) : Prop :=
  wf4 (v0 a) /\ wf4 (v1 a) /\ wf4 (v2 a) /\ wf4 (v3 a).

(** The input with zero bytes added up to the next multiple of 16. *)
Definition zero_padded (s : string) : string :=
  s ++ repeat x00 ((16 - length s mod 16) mod 16)%nat.

(** Turn [x] of the loop of [Cipher], and of the loop of [InvCipher], on
    one block. *)
Definition enc_round (w : list Z) (a : state_array.t) (x : Z) : state_array.t :=
  state_array.AddRoundKey
    (state_array.MixColumns (state_array.ShiftRows (state_array.SubBytes a)))
    (x + 1) w.

Definition dec_round (w : list Z) (a : state_array.t) (x : Z) : state_array.t :=
  state_array.InvMixColumns
    (state_array.AddRoundKey
       (state_array.InvSubBytes (state_array.InvShiftRows a)) x w).

(** What [Cipher] does to each block of the state, [w] being the key
    schedule. *)
Definition enc_block (w : list Z) (Nr : Z) (a : state_array.t) : state_array.t :=
  state_array.AddRoundKey
    (state_array.ShiftRows
       (state_array.SubBytes
          (fold_left (enc_round w) (zrange 0 (Nr - 1))
                     (state_array.AddRoundKey a 0 w))))
    (Nr - 1) w.

(** What [InvCipher] does to each block. *)
Definition dec_block (w : list Z) (Nr : Z) (a : state_array.t) : state_array.t :=
  state_array.AddRoundKey
    (state_array.InvSubBytes
       (state_array.InvShiftRows
          (fold_left (dec_round w) (rev (zrange 1 Nr))
                     (state_array.AddRoundKey a (Nr - 1) w))))
    0 w.

(** The round counts [state::Schedule] accepts. *)
Definition valid_rounds (Nr : Z) : Prop := Nr = 10 \/ Nr = 12 \/ Nr = 14.

(** ** Data of the statements *)

(** A memory in which the word after [Rcon] is zero, to run the model on
    concrete inputs. *)
Definition zero_past : Layout := {| Rcon_past := 0 |}.

(** [s] with bit [bit] of its byte [pos] inverted. *)
Definition flip_bit (s : string) (pos : nat) (bit : Z) : string :=
  firstn pos s ++
  match skipn pos s with
  | [] => []
  | c :: rest => char (Z.lxor (uchar c) (Z.shiftl 1 bit)) :: rest
  end.

(** Scenario S1: the key 2b7e1516 28aed2a6 abf71588 09cf4f3c read as two
    little-endian 64-bit words, the block, and the ciphertext of FIPS-197. *)
Definition S1_key : vec4 Z := V4 0xa6d2ae2816157e2b 0x3c4fcf098815f7ab 0 0.
Definition S1_plain : string :=
  [x6b; xc1; xbe; xe2; x2e; x40; x9f; x96; xe9; x3d; x7e; x11; x73; x93; x17; x2a].
Definition S1_expected : string :=
  [x3a; xd7; x7b; xb4; x0d; x7a; x36; x60; xa8; x9e; xca; xf3; x24; x66; xef; x97].
(** The other ways to read that key as two 64-bit words: the words swapped,
    and the hexadecimal digits taken as the numbers themselves. *)
Definition S1_key_readings : list (vec4 Z) :=
  [V4 0xa6d2ae2816157e2b 0x3c4fcf098815f7ab 0 0;
   V4 0x3c4fcf098815f7ab 0xa6d2ae2816157e2b 0 0;
   V4 0x2b7e151628aed2a6 0xabf7158809cf4f3c 0 0;
   V4 0xabf7158809cf4f3c 0x2b7e151628aed2a6 0 0].
(** What [Cipher] returns for S1. *)
Definition S1_returned : string :=
  [xb0; x3a; x8d; x5f; x77; xe5; x52; xf5; xd1; xe1; x34; x48; x53; x4a; xda; xd2].

(** The steps of the code put together the way FIPS-197 orders them, for
    AES-128 and the key of S1: the key words read most significant byte
    first, the schedule filled through [W[43]] with [Rcon[i/Nk - 1]], byte
    [r] of [W[4*round + c]] added to row [r] of column [c], and the last
    round key taken at [Nr]. *)
Definition fips_words : list Z := [0x2b7e1516; 0x28aed2a6; 0xabf71588; 0x09cf4f3c].

Definition fips_AddRoundKey (w : list Z) (a : state_array.t) (round : Z)
  : state_array.t :=
  state_array.tab
    (fun c r => Z.lxor (state_array.cell a c r)
                       (u8 (Z.shiftr (key.word_at w (4 * round + c)) (24 - 8 * r)))).

Definition fips_block (w : list Z) (a : state_array.t) : state_array.t :=
  let a := fips_AddRoundKey w a 0 in
  let a :=
    fold_left
      (fun a round =>
         fips_AddRoundKey w
           (state_array.MixColumns (state_array.ShiftRows (state_array.SubBytes a)))
           round)
      (zrange 1 10) a in
  fips_AddRoundKey w (state_array.ShiftRows (state_array.SubBytes a)) 10.

(** A 256-bit key, a 16-byte message ("AES-DH message 1") and a nonce for
    the GCM statements, with the ciphertext block and the tag [Enc] returns
    for them. *)
Definition G_key : vec4 Z :=
  V4 0x0706050403020100 0x0f0e0d0c0b0a0908 0x1716151413121110 0x1f1e1d1c1b1a1918.
Definition G_nonce : Z := 42.
Definition G_plain : string :=
  [x41; x45; x53; x2d; x44; x48; x20; x6d; x65; x73; x73; x61; x67; x65; x20; x31].
Definition G_cipher : string :=
  [x9c; x93; x0f; x47; x27; x75; x89; x28; xfd; xa2; x2b; xf9; xd5; xe7; x9f; xea].
Definition G_tag : string :=
  [x2f; x6a; xd8; x4b; xaa; x23; x82; xca; x46; xd3; x35; xea; x6e; xce; x5c; x19].

(** The word the specification gives for [W[i]], [i >= Nk], from the words
    before it:
    [temp = W[i-1]];
    if [i mod Nk == 0]: [temp = SubWord(RotWord(temp)) XOR Rcon[i/Nk - 1]];
    else if [Nk > 6] and [i mod Nk == 4]: [temp = SubWord(temp)];
    [W[i] = W[i-Nk] XOR temp]. *)
Definition claimed_word (Nk : Z) (w : list Z) (i : Z) : Z :=
  let temp := key.word_at w (i - 1) in
  let temp :=
    if i mod Nk =? 0
    then Z.lxor (key.SubWord (key.RotWord temp)) (nth (Z.to_nat (i / Nk - 1)) key.Rcon 0)
    else if (Nk >? 6) && (i mod Nk =? 4) then key.SubWord temp
    else temp in
  Z.lxor (key.word_at w (i - Nk)) temp.

(** The schedule of that recurrence for [Nk = 4], from the four key words. *)
Definition claimed_schedule (words : list Z) : list Z :=
  fold_left (fun w i => key.store w (Z.to_nat i) (claimed_word 4 w i))
            (zrange 4 44) (words ++ repeat 0 40%nat).

(** The generator the specification gives: [modexp(h, (p-1)/q, p)] for the
    smallest [h >= 1] that makes it exceed 1. *)
Fixpoint claimed_search (turns : nat) (p q h : Z) : option Z :=
  match turns with
  | O => None
  | S turns' =>
      if prime.raise h ((p - 1) / q) p >? 1 then Some h
      else claimed_search turns' p q (h + 1)
  end.

Definition claimed_generator (turns : nat) (p q : Z) : option Z :=
  match claimed_search turns p q 1 with
  | None => None
  | Some h => Some (prime.raise h ((p - 1) / q) p)
  end.

(** The HMAC key the specification gives: the first [keys] words of the
    shared key, each as its eight bytes. *)
Definition claimed_key_bytes (key : vec4 Z) (keys : Z) : string :=
  flat_map (fun x => string_of_u64 (get4 key x)) (zrange 0 keys).

(** A shared key for the HMAC statement. *)
Definition H_key : vec4 Z := V4 0x0102030405060708 0x1112131415161718 3 4.

(** The factor of [a] in entry [i] of the product the other way round: the
    matrix of [MixColumns] applied after that of [InvMixColumns]. *)
Definition coef_rev (i j a : Z) : Z :=
  Z.lxor (Z.lxor (Z.lxor (mul1 (fwd i 0) (gf.mult (bwd 0 j) a))
                         (mul1 (fwd i 1) (gf.mult (bwd 1 j) a)))
                 (mul1 (fwd i 2) (gf.mult (bwd 2 j) a)))
         (mul1 (fwd i 3) (gf.mult (bwd 3 j) a)).

(** The last four bytes of a block, [array[3][0]] first, read as one
    number. *)
Definition counter32 (a : state_array.t) : Z :=
  state_array.cell a 3 0 * 2 ^ 24 + state_array.cell a 3 1 * 2 ^ 16
  + state_array.cell a 3 2 * 2 ^ 8 + state_array.cell a 3 3.

(** The number of bytes of the buffer of [send_string] that hold characters
    of the message when its index is [x]. *)
Definition held (x : nat) : nat :=
  if (x mod network.PACKET_SIZE =? 0)%nat then network.PACKET_SIZE
  else (x mod network.PACKET_SIZE)%nat.

(** A number in decimal digits, and the number a string of digits starts
    with: what the streams write and read for a [uint64_t], for the
    examples. *)
Fixpoint decimal_loop (turns : nat) (n : Z) (acc : string) : string :=
  match turns with
  | O => acc
  | S turns' =>
      let acc := char (48 + n mod 10) :: acc in
      if n / 10 =? 0 then acc else decimal_loop turns' (n / 10) acc
  end.

Definition decimal (n : Z) : string := decimal_loop 20 n [].

Fixpoint read_decimal_loop (s : string) (acc : Z) : Z :=
  match s with
  | [] => acc
  | c :: rest =>
      let d := uchar c in
      if (48 <=? d) && (d <=? 57) then read_decimal_loop rest (10 * acc + (d - 48))
      else acc
  end.

Definition read_decimal (s : string) : Z := read_decimal_loop s 0.

(** A memory in which the word after [Rcon] is not zero. *)
Definition other_past : Layout := {| Rcon_past := 0xdeadbeef |}.

(** A run of the command line program: the arguments
    [aes --mode=ENC-128-CTR --keyfile=k --infile=p --outfile=c] with a key
    file and a message, and the arguments
    [aes --mode=DEC-128-CTR --keyfile=k --infile=c --outfile=o] where [c]
    holds what the first run wrote. *)
Definition cli_k : string := [x6b].
Definition cli_p : string := [x70].
Definition cli_c : string := [x63].
Definition cli_o : string := [x6f].

Definition cli_enc_argv : list string :=
  [[x61; x65; x73];
   cli.opt_mode ++ [x3d] ++ cli.ENC ++ [x2d] ++ cli.s128 ++ [x2d] ++ cli.CTR;
   cli.opt_keyfile ++ [x3d] ++ cli_k;
   cli.opt_infile ++ [x3d] ++ cli_p;
   cli.opt_outfile ++ [x3d] ++ cli_c].

Definition cli_dec_argv : list string :=
  [[x61; x65; x73];
   cli.opt_mode ++ [x3d] ++ cli.DEC ++ [x2d] ++ cli.s128 ++ [x2d] ++ cli.CTR;
   cli.opt_keyfile ++ [x3d] ++ cli_k;
   cli.opt_infile ++ [x3d] ++ cli_c;
   cli.opt_outfile ++ [x3d] ++ cli_o].

Definition cli_enc_world : cli.world :=
  cli.World (fun path => if string_eqb path cli_k then Some S1_plain
                         else if string_eqb path cli_p then Some G_plain
                         else None)
            [] 0 42.

Definition cli_dec_world : cli.world :=
  cli.World (fun path => if string_eqb path cli_k then Some S1_plain
                         else if string_eqb path cli_c then
                           match @cli.main zero_past cli_enc_argv cli_enc_world with
                           | cli.Returned _ (Some (_, C)) => Some C
                           | _ => None
                           end
                         else None)
            [] 0 7.

(** * Properties *)

(** ** Bytes *)

Lemma zrange_In lo hi z : lo <= z < hi -> In z (zrange lo hi).
Proof.
  intros Hz. unfold zrange. apply in_map_iff.
  exists (Z.to_nat (z - lo)). split; [lia|].
  apply in_seq. lia.
Qed.

(** A boolean check that holds on the whole table 0..255 holds for every
    byte. *)
Lemma u8_cases (P : Z -> bool) :
  forallb P (zrange 0 256) = true -> forall z, is_u8 z -> P z = true.
Proof.
  intros Hall z Hz. rewrite forallb_forall in Hall.
  apply Hall, zrange_In, Hz.
Qed.

Lemma is_u8_check z : is_u8 z <-> ((0 <=? z) && (z <? 256) = true).
Proof. unfold is_u8. rewrite andb_true_iff, Z.leb_le, Z.ltb_lt. tauto. Qed.

Lemma u8_mod z : u8 z = z mod 256.
Proof. unfold u8. change 0xff with (Z.ones 8). now rewrite Z.land_ones. Qed.

Lemma u8_range z : is_u8 (u8 z).
Proof. rewrite u8_mod. unfold is_u8. apply Z.mod_pos_bound. lia. Qed.

Lemma u8_id z : is_u8 z -> u8 z = z.
Proof. intros Hz. rewrite u8_mod. apply Z.mod_small, Hz. Qed.

Lemma land_lxor_distr a b c :
  Z.land (Z.lxor a b) c = Z.lxor (Z.land a c) (Z.land b c).
Proof.
  apply Z.bits_inj'. intros n _.
  rewrite Z.land_spec, !Z.lxor_spec, !Z.land_spec.
  now destruct (Z.testbit a n), (Z.testbit b n), (Z.testbit c n).
Qed.

Lemma lxor_u8 a b : is_u8 a -> is_u8 b -> is_u8 (Z.lxor a b).
Proof.
  intros Ha Hb. rewrite <- (u8_id a Ha), <- (u8_id b Hb).
  unfold u8. rewrite <- land_lxor_distr. apply u8_range.
Qed.

Lemma lxor_cancel a k : Z.lxor (Z.lxor a k) k = a.
Proof. now rewrite Z.lxor_assoc, Z.lxor_nilpotent, Z.lxor_0_r. Qed.

Lemma uchar_range c : is_u8 (uchar c).
Proof.
  unfold is_u8, uchar. pose proof (Byte.to_N_bounded c) as Hb.
  lia.
Qed.

Lemma char_uchar c : char (uchar c) = c.
Proof.
  unfold char. rewrite (u8_id _ (uchar_range c)). unfold uchar.
  now rewrite N2Z.id, Byte.of_to_N.
Qed.

Lemma uchar_char z : is_u8 z -> uchar (char z) = z.
Proof.
  intros Hz. unfold char, uchar. rewrite (u8_id z Hz).
  destruct (Byte.of_N (Z.to_N z)) as [c|] eqn:E.
  - apply Byte.to_of_N in E. rewrite E. unfold is_u8 in Hz. lia.
  - apply Byte.of_N_None_iff in E. unfold is_u8 in Hz. lia.
Qed.

Lemma char_zero : char 0 = x00.
Proof. reflexivity. Qed.

(** ** The field GF(2^8) *)

#[local] Instance lxor_Assoc : Associative eq Z.lxor.
Proof. intros x y z. symmetry. apply Z.lxor_assoc. Qed.

#[local] Instance lxor_Comm : Commutative eq Z.lxor.
Proof. intros x y. apply Z.lxor_comm. Qed.

#[local] Instance lxor_Unit : Unit eq Z.lxor 0.
Proof. split; intros x; [apply Z.lxor_0_l | apply Z.lxor_0_r]. Qed.

Lemma land_1_cases b : Z.land b 1 = 0 \/ Z.land b 1 = 1.
Proof.
  assert (E : Z.land b 1 = b mod 2).
  { change (Z.land b 1) with (Z.land b (Z.ones 1)). now rewrite Z.land_ones. }
  rewrite E. pose proof (Z.mod_pos_bound b 2). lia.
Qed.

Lemma mult_loop_zero n a res : gf.mult_loop n a 0 res = res.
Proof. destruct n; reflexivity. Qed.

Lemma mult_loop_acc n : forall a b res,
  gf.mult_loop n a b res = Z.lxor res (gf.mult_loop n a b 0).
Proof.
  induction n as [|n IH]; intros a b res; simpl.
  - now rewrite Z.lxor_0_r.
  - destruct (b =? 0); [now rewrite Z.lxor_0_r|].
    destruct (negb (Z.land b 1 =? 0)).
    + rewrite ?Z.lxor_0_l. rewrite (IH _ _ (Z.lxor res a)), (IH _ _ a).
      apply Z.lxor_assoc.
    + apply IH.
Qed.

(** One turn, without the early exit. *)
Lemma mult_loop_step n a b :
  gf.mult_loop (S n) a b 0 =
  Z.lxor (if negb (Z.land b 1 =? 0) then a else 0)
         (gf.mult_loop n (xtime a) (Z.shiftr b 1) 0).
Proof.
  simpl. destruct (b =? 0) eqn:E.
  - apply Z.eqb_eq in E. subst b. rewrite Z.shiftr_0_l, mult_loop_zero. reflexivity.
  - fold (xtime a). rewrite mult_loop_acc.
    destruct (negb (Z.land b 1 =? 0)); rewrite ?Z.lxor_0_l; reflexivity.
Qed.

Lemma mult_loop_lxor n : forall a x y,
  gf.mult_loop n a (Z.lxor x y) 0 =
  Z.lxor (gf.mult_loop n a x 0) (gf.mult_loop n a y 0).
Proof.
  induction n as [|n IH]; intros a x y.
  - reflexivity.
  - rewrite !mult_loop_step, Z.shiftr_lxor, IH, land_lxor_distr.
    destruct (land_1_cases x) as [-> | ->], (land_1_cases y) as [-> | ->];
      cbn [Z.lxor Pos.lxor Z.eqb negb Pos.eqb]; aac_normalise;
      rewrite ?Z.lxor_nilpotent, ?Z.lxor_0_l, ?Z.lxor_0_r; try reflexivity.
Qed.

(** [gf::mult] is additive in its second argument. *)
Lemma mult_lxor c x y :
  gf.mult c (Z.lxor x y) = Z.lxor (gf.mult c x) (gf.mult c y).
Proof. apply mult_loop_lxor. Qed.

Ltac by_table :=
  match goal with
  | |- forall z, is_u8 z -> _ =>
      intros z Hz; revert z Hz;
      first
        [ match goal with
          | |- forall z, is_u8 z -> @eq Z (@?l z) (@?r z) =>
              intros z Hz; apply Z.eqb_eq; revert z Hz;
              apply (u8_cases (fun z => l z =? r z))
          end
        | match goal with
          | |- forall z, is_u8 z -> is_u8 (@?f z) =>
              intros z Hz; apply is_u8_check; revert z Hz;
              apply (u8_cases (fun z => (0 <=? f z) && (f z <? 256)))
          end ];
      vm_compute; reflexivity
  end.

Lemma sub_byte_range : forall z, is_u8 z -> is_u8 (sub_byte z).
Proof. by_table. Qed.

Lemma inv_sub_byte_range : forall z, is_u8 z -> is_u8 (inv_sub_byte z).
Proof. by_table. Qed.

Lemma inv_sub_sub : forall z, is_u8 z -> inv_sub_byte (sub_byte z) = z.
Proof. by_table. Qed.

Lemma mult_range c : In c mix_consts -> forall z, is_u8 z -> is_u8 (gf.mult c z).
Proof.
  intros Hc. repeat (destruct Hc as [<- | Hc]; [by_table|]). destruct Hc.
Qed.

Lemma coef_table i j :
  In i (zrange 0 4) -> In j (zrange 0 4) ->
  forall a, is_u8 a -> coef i j a = if i =? j then a else 0.
Proof.
  intros Hi Hj.
  repeat (destruct Hi as [<- | Hi]);
    repeat (destruct Hj as [<- | Hj]); try contradiction; by_table.
Qed.

(** ** Blocks *)

Arguments gf.mult : simpl never.
Arguments sub_byte : simpl never.
Arguments inv_sub_byte : simpl never.
Arguments byte_of_word : simpl never.
Arguments key.word_at : simpl never.
Arguments uchar : simpl never.
Arguments char : simpl never.
Arguments str_at : simpl never.

Ltac open_arr a :=
  destruct a as [[?x ?x ?x ?x] [?x ?x ?x ?x] [?x ?x ?x ?x] [?x ?x ?x ?x]].

Ltac open_wf :=
  unfold wf, wf4 in *; cbn [v0 v1 v2 v3] in *;
  repeat match goal with H : _ /\ _ |- _ => destruct H end.

Lemma mix_col_wf c : wf4 c -> wf4 (state_array.mix_col c).
Proof.
  destruct c as [a b c d]. intros Hc. open_wf.
  repeat split; repeat apply lxor_u8; try assumption;
    apply mult_range; try assumption; unfold mix_consts; simpl; tauto.
Qed.

Ltac mix_entry i a b c d :=
  rewrite !mult_lxor;
  transitivity (Z.lxor (Z.lxor (Z.lxor (coef i 0 a) (coef i 1 b)) (coef i 2 c)) (coef i 3 d));
  [ cbv -[gf.mult Z.lxor];
    repeat match goal with
           | |- context [gf.mult ?k ?x] => generalize (gf.mult k x); intro
           end;
    aac_reflexivity
  | rewrite !coef_table by (assumption || (apply zrange_In; lia));
    cbn [Z.eqb Pos.eqb]; rewrite ?Z.lxor_0_l, ?Z.lxor_0_r; reflexivity ].

Lemma mix_col_inv c :
  wf4 c -> state_array.inv_mix_col (state_array.mix_col c) = c.
Proof.
  destruct c as [a b c d]. intros Hc. open_wf.
  unfold state_array.inv_mix_col, state_array.mix_col. cbn [v0 v1 v2 v3].
  f_equal.
  - mix_entry 0 a b c d.
  - mix_entry 1 a b c d.
  - mix_entry 2 a b c d.
  - mix_entry 3 a b c d.
Qed.

Ltac open_ops :=
  unfold state_array.SubBytes, state_array.InvSubBytes, state_array.ShiftRows,
    state_array.InvShiftRows, state_array.AddRoundKey, state_array.xor_arr,
    state_array.of_string, state_array.tab, tab4, state_array.cell.

Ltac split4 := split; [|split; [|split]].

(** Splits [wf] into its sixteen cells. *)
Ltac split_wf := unfold wf, wf4; split4; split4; cbn [v0 v1 v2 v3].

Lemma wf_MixColumns a : wf a -> wf (state_array.MixColumns a).
Proof.
  unfold state_array.MixColumns. destruct a as [c0 c1 c2 c3].
  intros (H0 & H1 & H2 & H3). unfold tab4.
  split4; cbn [get4 v0 v1 v2 v3]; now apply mix_col_wf.
Qed.

Lemma MixColumns_inv a :
  wf a -> state_array.InvMixColumns (state_array.MixColumns a) = a.
Proof.
  unfold state_array.InvMixColumns, state_array.MixColumns.
  destruct a as [c0 c1 c2 c3].
  intros (H0 & H1 & H2 & H3). unfold tab4. cbn [get4 v0 v1 v2 v3] in *.
  now rewrite !mix_col_inv.
Qed.

Lemma wf_SubBytes a : wf a -> wf (state_array.SubBytes a).
Proof.
  open_arr a. intros Ha. open_wf.
  open_ops. split_wf; cbn [get4 v0 v1 v2 v3]; now apply sub_byte_range.
Qed.

Lemma SubBytes_inv a :
  wf a -> state_array.InvSubBytes (state_array.SubBytes a) = a.
Proof.
  open_arr a. intros Ha. open_wf. open_ops. cbn [get4 v0 v1 v2 v3].
  now rewrite !inv_sub_sub.
Qed.

Lemma wf_ShiftRows a : wf a -> wf (state_array.ShiftRows a).
Proof.
  open_arr a. intros Ha. open_wf. open_ops. split_wf; cbn; assumption.
Qed.

Lemma ShiftRows_inv a :
  state_array.InvShiftRows (state_array.ShiftRows a) = a.
Proof. open_arr a. reflexivity. Qed.

Lemma byte_of_word_range w n : is_u8 (byte_of_word w n).
Proof. apply u8_range. Qed.

Lemma wf_AddRoundKey a r w : wf a -> wf (state_array.AddRoundKey a r w).
Proof.
  open_arr a. intros Ha. open_wf.
  open_ops.
  split_wf; cbn [get4 v0 v1 v2 v3];
    apply lxor_u8; try assumption; apply byte_of_word_range.
Qed.

Lemma AddRoundKey_twice a r w :
  state_array.AddRoundKey (state_array.AddRoundKey a r w) r w = a.
Proof.
  open_arr a.
  open_ops.
  cbn [get4 v0 v1 v2 v3]. now rewrite !lxor_cancel.
Qed.

Lemma wf_xor_arr a b : wf a -> wf b -> wf (state_array.xor_arr a b).
Proof.
  open_arr a. open_arr b. intros Ha Hb. open_wf.
  open_ops.
  split_wf; cbn [get4 v0 v1 v2 v3]; now apply lxor_u8.
Qed.

Lemma xor_arr_twice a b :
  state_array.xor_arr (state_array.xor_arr a b) b = a.
Proof.
  open_arr a. open_arr b.
  open_ops.
  cbn [get4 v0 v1 v2 v3]. now rewrite !lxor_cancel.
Qed.

Lemma wf_of_string s : wf (state_array.of_string s).
Proof.
  open_ops.
  split_wf;
    match goal with |- is_u8 (if ?c then _ else _) => destruct c end;
    (apply uchar_range || (unfold is_u8; lia)).
Qed.

(** ** Strings and blocks *)

Lemma of_string_16 b0 b1 b2 b3 b4 b5 b6 b7 b8 b9 b10 b11 b12 b13 b14 b15 tail :
  state_array.of_string
    (b0 :: b1 :: b2 :: b3 :: b4 :: b5 :: b6 :: b7 :: b8 :: b9 :: b10 :: b11 ::
     b12 :: b13 :: b14 :: b15 :: tail) =
  V4 (V4 (uchar b0) (uchar b1) (uchar b2) (uchar b3))
     (V4 (uchar b4) (uchar b5) (uchar b6) (uchar b7))
     (V4 (uchar b8) (uchar b9) (uchar b10) (uchar b11))
     (V4 (uchar b12) (uchar b13) (uchar b14) (uchar b15)).
Proof.
  open_ops. unfold str_at.
  match goal with |- context [Z.of_nat (length ?l)] =>
    assert (HL : 16 <= Z.of_nat (length l)) by (cbn [length]; lia);
    set (L := Z.of_nat (length l)) in *
  end.
  repeat match goal with
         | |- context [?k <? L] =>
             replace (k <? L) with true by (symmetry; apply Z.ltb_lt; lia)
         end.
  reflexivity.
Qed.

Lemma unravel_cells a :
  state_array.unravel a =
  map char [v0 (v0 a); v1 (v0 a); v2 (v0 a); v3 (v0 a);
            v0 (v1 a); v1 (v1 a); v2 (v1 a); v3 (v1 a);
            v0 (v2 a); v1 (v2 a); v2 (v2 a); v3 (v2 a);
            v0 (v3 a); v1 (v3 a); v2 (v3 a); v3 (v3 a)].
Proof. reflexivity. Qed.

Lemma of_string_unravel a tail :
  wf a -> state_array.of_string (state_array.unravel a ++ tail) = a.
Proof.
  open_arr a. intros Ha. open_wf.
  rewrite unravel_cells. cbn [map app v0 v1 v2 v3].
  rewrite of_string_16, !uchar_char by assumption. reflexivity.
Qed.

Lemma skipn_unravel a tail : skipn 16 (state_array.unravel a ++ tail) = tail.
Proof. reflexivity. Qed.

Lemma length_unravel a : length (state_array.unravel a) = 16%nat.
Proof. reflexivity. Qed.

Lemma fill_nil n : state.fill n [] = [].
Proof. destruct n; reflexivity. Qed.

Lemma fill_cons n b s :
  state.fill (S n) (b :: s) =
  state_array.of_string (b :: s) :: state.fill n (skipn 16 (b :: s)).
Proof. reflexivity. Qed.

Lemma fill_wf n : forall s, Forall wf (state.fill n s).
Proof.
  induction n as [|n IH]; intros s; [constructor|].
  destruct s as [|b s]; [constructor|].
  rewrite fill_cons. constructor; [apply wf_of_string | apply IH].
Qed.

(** Reading back the bytes of a list of blocks gives the blocks. *)
Lemma fill_unravel arrs : forall n,
  Forall wf arrs -> (length arrs <= n)%nat ->
  state.fill n (flat_map state_array.unravel arrs) = arrs.
Proof.
  induction arrs as [|a rest IH]; intros n Hwf Hn.
  - apply fill_nil.
  - destruct n as [|n]; [simpl in Hn; lia|].
    inversion Hwf as [|? ? Ha Hrest]; subst.
    cbn [flat_map].
    change (state.fill (S n) (state_array.unravel a ++ flat_map state_array.unravel rest))
      with (state_array.of_string (state_array.unravel a ++ flat_map state_array.unravel rest)
            :: state.fill n (flat_map state_array.unravel rest)).
    rewrite (of_string_unravel _ _ Ha), IH; [reflexivity | assumption | simpl in Hn; lia].
Qed.

Lemma length_flat_unravel arrs :
  length (flat_map state_array.unravel arrs) = (16 * length arrs)%nat.
Proof.
  induction arrs as [|a rest IH]; [reflexivity|].
  cbn [flat_map]. rewrite length_app, length_unravel, IH. simpl. lia.
Qed.

Lemma fill_unravel_len arrs :
  Forall wf arrs ->
  state.fill (length (flat_map state_array.unravel arrs))
             (flat_map state_array.unravel arrs) = arrs.
Proof.
  intros Hwf. apply fill_unravel; [assumption|].
  rewrite length_flat_unravel. lia.
Qed.

Lemma zero_padded_16 b0 b1 b2 b3 b4 b5 b6 b7 b8 b9 b10 b11 b12 b13 b14 b15 tail :
  zero_padded
    (b0 :: b1 :: b2 :: b3 :: b4 :: b5 :: b6 :: b7 :: b8 :: b9 :: b10 :: b11 ::
     b12 :: b13 :: b14 :: b15 :: tail) =
  b0 :: b1 :: b2 :: b3 :: b4 :: b5 :: b6 :: b7 :: b8 :: b9 :: b10 :: b11 ::
  b12 :: b13 :: b14 :: b15 :: zero_padded tail.
Proof.
  unfold zero_padded. cbn [length app].
  replace (S (S (S (S (S (S (S (S (S (S (S (S (S (S (S (S (length tail)))))))))))))))))
    with (length tail + 1 * 16)%nat by lia.
  now rewrite Nat.Div0.mod_add.
Qed.

(** The bytes of the blocks built from a string are the string, zero
    padded. *)
Lemma unravel_fill n : forall s,
  (length s <= n)%nat ->
  flat_map state_array.unravel (state.fill n s) = zero_padded s.
Proof.
  induction n as [|n IH]; intros s Hn.
  - destruct s; [reflexivity | simpl in Hn; lia].
  - destruct s as [|b0 s]; [reflexivity|].
    rewrite fill_cons. cbn [flat_map].
    do 15 (destruct s as [|?b s];
           [ cbn [skipn]; rewrite fill_nil, app_nil_r;
             unfold state_array.of_string, state_array.tab, tab4, str_at;
             rewrite unravel_cells; cbn; rewrite !char_uchar; reflexivity |]).
    rewrite unravel_cells, of_string_16. cbn [map app v0 v1 v2 v3 skipn].
    rewrite !char_uchar, zero_padded_16, IH; [reflexivity|].
    cbn [length] in Hn. lia.
Qed.

Lemma zero_padded_full s : (length s mod 16 = 0)%nat -> zero_padded s = s.
Proof.
  intros Hs. unfold zero_padded. rewrite Hs. cbn. apply app_nil_r.
Qed.

(** ** The rounds of one block *)

Lemma zrange_snoc lo hi : lo <= hi -> zrange lo (hi + 1) = zrange lo hi ++ [hi].
Proof.
  intros Hle. unfold zrange.
  replace (Z.to_nat (hi + 1 - lo)) with (S (Z.to_nat (hi - lo))) by lia.
  rewrite seq_S, map_app. cbn [map Nat.add]. do 2 f_equal. lia.
Qed.

Lemma zrange_empty lo : zrange lo lo = [].
Proof. unfold zrange. now rewrite Z.sub_diag. Qed.

Lemma wf_enc_round w a x : wf a -> wf (enc_round w a x).
Proof.
  intros Ha. unfold enc_round.
  now apply wf_AddRoundKey, wf_MixColumns, wf_ShiftRows, wf_SubBytes.
Qed.

Lemma wf_enc_rounds w xs : forall a, wf a -> wf (fold_left (enc_round w) xs a).
Proof.
  induction xs as [|x xs IH]; intros a Ha; [assumption|].
  cbn [fold_left]. now apply IH, wf_enc_round.
Qed.

(** A decryption round undoes the encryption round before it. *)
Lemma dec_enc_round w a x :
  wf a ->
  dec_round w (state_array.ShiftRows (state_array.SubBytes (enc_round w a x))) (x + 1)
  = state_array.ShiftRows (state_array.SubBytes a).
Proof.
  intros Ha. pose proof (wf_enc_round w a x Ha) as HE.
  unfold dec_round. rewrite ShiftRows_inv, (SubBytes_inv _ HE).
  unfold enc_round. rewrite AddRoundKey_twice.
  apply MixColumns_inv. now apply wf_ShiftRows, wf_SubBytes.
Qed.

Lemma fold_left_snoc {A B : Type} (f : A -> B -> A) l x a :
  fold_left f (l ++ [x]) a = f (fold_left f l a) x.
Proof. now rewrite fold_left_app. Qed.

Lemma fold_left_cons {A B : Type} (f : A -> B -> A) l x a :
  fold_left f (x :: l) a = fold_left f l (f a x).
Proof. reflexivity. Qed.

(** The decryption rounds undo the encryption rounds, one at a time from the
    last. *)
Lemma rounds_undone w n : forall a, wf a ->
  fold_left (dec_round w) (rev (zrange 1 (Z.of_nat n + 1)))
    (state_array.ShiftRows
       (state_array.SubBytes (fold_left (enc_round w) (zrange 0 (Z.of_nat n)) a)))
  = state_array.ShiftRows (state_array.SubBytes a).
Proof.
  induction n as [|n IH]; intros a Ha.
  - change (Z.of_nat 0 + 1) with 1. change (Z.of_nat 0) with 0.
    rewrite !zrange_empty. cbn [rev fold_left]. reflexivity.
  - rewrite Nat2Z.inj_succ, <- Z.add_1_r.
    rewrite (zrange_snoc 0 (Z.of_nat n)) by lia.
    rewrite (zrange_snoc 1 (Z.of_nat n + 1)) by lia.
    rewrite rev_unit, fold_left_snoc.
    rewrite fold_left_cons, dec_enc_round by now apply wf_enc_rounds.
    exact (IH a Ha).
Qed.

Lemma dec_enc_block w Nr a : 1 <= Nr -> wf a -> dec_block w Nr (enc_block w Nr a) = a.
Proof.
  intros HNr Ha. unfold dec_block, enc_block.
  rewrite AddRoundKey_twice.
  replace Nr with (Z.of_nat (Z.to_nat (Nr - 1)) + 1) at 1 by lia.
  replace (Nr - 1) with (Z.of_nat (Z.to_nat (Nr - 1))) at 2 by lia.
  rewrite rounds_undone by now apply wf_AddRoundKey.
  rewrite ShiftRows_inv, SubBytes_inv by now apply wf_AddRoundKey.
  apply AddRoundKey_twice.
Qed.

Lemma wf_enc_block w Nr a : wf a -> wf (enc_block w Nr a).
Proof.
  intros Ha. unfold enc_block.
  now apply wf_AddRoundKey, wf_ShiftRows, wf_SubBytes, wf_enc_rounds, wf_AddRoundKey.
Qed.

(** ** From the state to its blocks *)

Lemma with_arrays_same s : state.with_arrays s (state.arrays s) = s.
Proof. now destruct s. Qed.

Lemma fold_left_ext {A B : Type} (f g : A -> B -> A) l :
  (forall a b, f a b = g a b) -> forall a, fold_left f l a = fold_left g l a.
Proof.
  intros E. induction l as [|b l IH]; intros a; [reflexivity|].
  cbn [fold_left]. now rewrite E, IH.
Qed.

(** A loop of steps that each treat every block alone, with the schedule of
    the state, is the loop run on every block. *)
Lemma fold_blocks (g : list Z -> state_array.t -> Z -> state_array.t) xs :
  forall s,
  fold_left
    (fun s x => state.with_arrays s
                  (map (fun a => g (state.expanded s) a x) (state.arrays s)))
    xs s
  = state.with_arrays s
      (map (fun a => fold_left (g (state.expanded s)) xs a) (state.arrays s)).
Proof.
  induction xs as [|x xs IH]; intros s.
  - cbn [fold_left]. now rewrite map_id, with_arrays_same.
  - cbn [fold_left]. rewrite IH. destruct s as [arrs w k Nr].
    unfold state.with_arrays. cbn [state.arrays state.expanded state.key state.rounds].
    now rewrite map_map.
Qed.

Section Blocks.
Context `{Layout}.

Lemma Schedule_ok k Nr : valid_rounds Nr -> exists w, state.Schedule k Nr = Ret w.
Proof.
  intros [-> | [-> | ->]];
    [exists (key.Expansion k 4) | exists (key.Expansion k 6) | exists (key.Expansion k 8)];
    reflexivity.
Qed.

Lemma Cipher_blocks input k Nr w :
  state.Schedule k Nr = Ret w ->
  Cipher input k Nr =
  Ret (flat_map state_array.unravel
         (map (enc_block w Nr) (state.fill (length input) input))).
Proof.
  intros Hw. unfold Cipher, state.of_string. rewrite Hw. cbn [bind].
  f_equal.
  rewrite (fold_left_ext _
             (fun s x => state.with_arrays s
                (map (fun a => enc_round (state.expanded s) a x) (state.arrays s)))).
  2:{ intros [arrs w' k' Nr'] x. unfold state.AddRoundKey, state.MixColumns,
        state.ShiftRows, state.SubBytes, state.with_arrays, enc_round.
      cbn [state.arrays state.expanded state.key state.rounds].
      now rewrite !map_map. }
  rewrite fold_blocks.
  unfold state.unravel, state.AddRoundKey, state.ShiftRows, state.SubBytes,
    state.with_arrays, enc_block.
  cbn [state.arrays state.expanded state.key state.rounds].
  now rewrite !map_map.
Qed.

Lemma InvCipher_blocks input k Nr w :
  state.Schedule k Nr = Ret w ->
  InvCipher input k Nr =
  Ret (flat_map state_array.unravel
         (map (dec_block w Nr) (state.fill (length input) input))).
Proof.
  intros Hw. unfold InvCipher, state.of_string. rewrite Hw. cbn [bind].
  f_equal.
  rewrite (fold_left_ext _
             (fun s x => state.with_arrays s
                (map (fun a => dec_round (state.expanded s) a x) (state.arrays s)))).
  2:{ intros [arrs w' k' Nr'] x. unfold state.AddRoundKey, state.InvMixColumns,
        state.InvShiftRows, state.InvSubBytes, state.with_arrays, dec_round.
      cbn [state.arrays state.expanded state.key state.rounds].
      now rewrite !map_map. }
  rewrite fold_blocks.
  unfold state.unravel, state.AddRoundKey, state.InvShiftRows, state.InvSubBytes,
    state.with_arrays, dec_block.
  cbn [state.arrays state.expanded state.key state.rounds].
  now rewrite !map_map.
Qed.

Lemma Cipher_ok input k Nr :
  valid_rounds Nr -> exists c, Cipher input k Nr = Ret c.
Proof.
  intros HNr. destruct (Schedule_ok k Nr HNr) as [w Hw].
  eexists. exact (Cipher_blocks _ _ _ _ Hw).
Qed.

Lemma map_dec_enc w Nr arrs :
  1 <= Nr -> Forall wf arrs ->
  map (dec_block w Nr) (map (enc_block w Nr) arrs) = arrs.
Proof.
  intros HNr Hwf. rewrite map_map.
  induction Hwf as [|a rest Ha _ IH]; [reflexivity|].
  cbn [map]. now rewrite dec_enc_block, IH.
Qed.

Lemma Forall_wf_map_enc w Nr arrs :
  Forall wf arrs -> Forall wf (map (enc_block w Nr) arrs).
Proof.
  intros Hwf. apply Forall_map.
  eapply Forall_impl; [|exact Hwf]. intros a. apply wf_enc_block.
Qed.

Lemma InvCipher_Cipher input k Nr :
  valid_rounds Nr ->
  (c <- Cipher input k Nr ;; InvCipher c k Nr) = Ret (zero_padded input).
Proof.
  intros HNr. destruct (Schedule_ok k Nr HNr) as [w Hw].
  rewrite (Cipher_blocks _ _ _ _ Hw). cbn [bind].
  rewrite (InvCipher_blocks _ _ _ _ Hw).
  rewrite fill_unravel_len by apply Forall_wf_map_enc, fill_wf.
  rewrite map_dec_enc; [| destruct HNr as [-> | [-> | ->]]; lia | apply fill_wf].
  now rewrite unravel_fill.
Qed.

End Blocks.

(** ** Counter mode *)

Section Counter.
Context `{Layout}.

(** Running the loop of [Ctr] on its own result, from the same nonce,
    gives the blocks back. *)
Lemma Ctr_loop_twice k Nr :
  valid_rounds Nr ->
  forall arrs nonce,
  exists out,
    Ctr_loop arrs k Nr nonce = Ret out /\
    Ctr_loop out k Nr nonce = Ret arrs /\
    (Forall wf arrs -> Forall wf out).
Proof.
  intros HNr. induction arrs as [|a rest IH]; intros nonce.
  - exists []. repeat split; auto.
  - destruct (Cipher_ok (string_of_u64 nonce) k Nr HNr) as [c Hc].
    destruct (IH (u64 (nonce + 1))) as (out & H1 & H2 & H3).
    exists (state_array.xor_arr a (state_array.of_string c) :: out).
    cbn [Ctr_loop]. rewrite Hc. cbn [bind]. rewrite H1, H2. cbn [bind].
    rewrite xor_arr_twice. repeat split.
    intros Hwf. inversion Hwf; subst.
    constructor; [apply wf_xor_arr; [assumption | apply wf_of_string] | auto].
Qed.

Lemma Ctr_Ctr input k Nr nonce :
  valid_rounds Nr ->
  (c <- Ctr input k Nr nonce ;; Ctr c k Nr nonce) = Ret (zero_padded input).
Proof.
  intros HNr. destruct (Schedule_ok k Nr HNr) as [w Hw].
  destruct (Ctr_loop_twice k Nr HNr (state.fill (length input) input) nonce)
    as (out & H1 & H2 & H3).
  unfold Ctr, state.of_string. rewrite Hw. cbn [bind state.arrays].
  rewrite H1. cbn [bind state.arrays].
  unfold state.unravel, state.with_arrays. cbn [state.arrays].
  rewrite fill_unravel_len by apply H3, fill_wf.
  rewrite H2. cbn [bind]. now rewrite unravel_fill.
Qed.

End Counter.

(** ** Galois/counter mode *)

Lemma wf_zero : wf state_array.zero.
Proof.
  unfold state_array.zero, state_array.tab, tab4.
  split_wf; unfold is_u8; lia.
Qed.

(** With [V] zero at the start, [Z] and [V] stay zero through every turn of
    [gcm::mult]. *)
Lemma mult_bit_zero byte :
  gcm.mult_bit byte (state_array.zero, state_array.zero)
  = (state_array.zero, state_array.zero).
Proof.
  unfold gcm.mult_bit. destruct (negb (Z.land byte 128 =? 0)); reflexivity.
Qed.

Lemma mult_bits_zero byte (turns : list Z) :
  fold_left (fun st _ => gcm.mult_bit byte st) turns
            (state_array.zero, state_array.zero)
  = (state_array.zero, state_array.zero).
Proof.
  induction turns as [|x turns IH]; [reflexivity|].
  cbn [fold_left]. rewrite mult_bit_zero. exact IH.
Qed.

Lemma mult_zero X : gcm.mult X state_array.zero = state_array.zero.
Proof.
  unfold gcm.mult.
  match goal with
  | |- fst (fold_left ?f _ ?i) = _ =>
      assert (E : forall cells, fold_left f cells i = i)
  end.
  { induction cells as [|[col row] cells IH]; [reflexivity|].
    cbn [fold_left]. cbv zeta. rewrite mult_bits_zero. exact IH. }
  rewrite E. reflexivity.
Qed.

Lemma GHASH_fold_zero arrs :
  fold_left (fun Y array => gcm.mult (state_array.xor_arr Y array) state_array.zero)
            arrs state_array.zero
  = state_array.zero.
Proof.
  induction arrs as [|a rest IH].
  - reflexivity.
  - rewrite fold_left_cons, mult_zero. exact IH.
Qed.

(** So [GHASH] under the zero subkey is zero, whatever the blocks. *)
Lemma GHASH_zero s : gcm.GHASH s state_array.zero = state_array.zero.
Proof. exact (GHASH_fold_zero (state.arrays s)). Qed.

Section Gcm_facts.
Context `{Layout}.

Lemma hash_subkey_zero K Nr :
  valid_rounds Nr -> gcm.hash_subkey K Nr = Ret state_array.zero.
Proof.
  intros HNr. destruct (Schedule_ok K Nr HNr) as [w Hw].
  unfold gcm.hash_subkey.
  change (string_of_literal gcm.zero_literal) with (@nil byte).
  rewrite (Cipher_blocks _ _ _ _ Hw). reflexivity.
Qed.

Lemma initial_counter_zero K Nr nonce :
  valid_rounds Nr ->
  gcm.initial_counter K Nr nonce state_array.zero = Ret state_array.zero.
Proof.
  intros HNr. destruct (Schedule_ok K Nr HNr) as [w Hw].
  unfold gcm.initial_counter, state.of_string. rewrite Hw. cbn [bind].
  rewrite GHASH_zero. reflexivity.
Qed.

Lemma GCTR_loop_ok K Nr :
  valid_rounds Nr ->
  forall arrs ICB, exists out, gcm.GCTR_loop arrs K Nr ICB = Ret out.
Proof.
  intros HNr. induction arrs as [|a rest IH]; intros ICB.
  - exists []. reflexivity.
  - destruct (Cipher_ok (state_array.unravel ICB) K Nr HNr) as [c Hc].
    destruct (IH (gcm.increment ICB)) as [out Hout].
    eexists. cbn [gcm.GCTR_loop]. rewrite Hc. cbn [bind]. rewrite Hout.
    reflexivity.
Qed.

(** For every key, round count and nonce there is one tag that [Enc] puts
    after every message, and [Dec] accepts it after any whole number of
    blocks. *)
Lemma Dec_accepts_any_blocks K Nr nonce :
  valid_rounds Nr ->
  exists T,
    length T = 16%nat /\
    (forall M, exists C, gcm.Enc M K Nr nonce = Ret (C ++ T)) /\
    (forall C', (length C' mod 16 = 0)%nat ->
                exists P, gcm.Dec (C' ++ T) K Nr nonce = Ret P).
Proof.
  intros HNr. destruct (Schedule_ok K Nr HNr) as [w Hw].
  destruct (Cipher_ok (state_array.unravel state_array.zero) K Nr HNr) as [e0 He0].
  set (pad := state_array.of_string e0).
  set (tag := state_array.xor_arr state_array.zero pad).
  assert (Htag : wf tag) by (apply wf_xor_arr; [apply wf_zero | apply wf_of_string]).
  exists (state_array.unravel tag). split; [reflexivity|]. split.
  - intros M.
    destruct (GCTR_loop_ok K Nr HNr (state.fill (length M) M)
                (gcm.increment state_array.zero)) as [out Hout].
    exists (flat_map state_array.unravel out).
    unfold gcm.Enc. rewrite (hash_subkey_zero K Nr HNr). cbn [bind].
    rewrite (initial_counter_zero K Nr nonce HNr). cbn [bind].
    unfold state.of_string, state.of_arrays, gcm.GCTR, state.with_arrays.
    rewrite Hw. cbn [bind state.arrays state.key state.rounds].
    rewrite Hout. cbn [bind state.arrays state.key state.rounds].
    rewrite GHASH_zero. cbn [gcm.GCTR_loop]. rewrite He0.
    cbn [bind state.arrays nth]. unfold state.unravel. cbn [state.arrays].
    rewrite flat_map_app. cbn [flat_map]. rewrite app_nil_r. reflexivity.
  - intros C' HC'.
    set (body := state.fill (length C') C').
    assert (Hbody : flat_map state_array.unravel body = C').
    { unfold body. rewrite unravel_fill by lia. apply zero_padded_full, HC'. }
    destruct (GCTR_loop_ok K Nr HNr body (gcm.increment state_array.zero))
      as [out Hout].
    exists (flat_map state_array.unravel out).
    unfold gcm.Dec. rewrite (hash_subkey_zero K Nr HNr). cbn [bind].
    rewrite (initial_counter_zero K Nr nonce HNr). cbn [bind].
    unfold state.of_string, state.of_arrays, gcm.GCTR, state.with_arrays.
    rewrite Hw. cbn [bind state.arrays state.key state.rounds].
    assert (Hfill : state.fill (length (C' ++ state_array.unravel tag))
                               (C' ++ state_array.unravel tag) = body ++ [tag]).
    { rewrite <- Hbody at 1 2.
      replace (flat_map state_array.unravel body ++ state_array.unravel tag)
        with (flat_map state_array.unravel (body ++ [tag]))
        by (rewrite flat_map_app; cbn [flat_map]; rewrite app_nil_r; reflexivity).
      apply fill_unravel_len. apply Forall_app. split; [apply fill_wf|].
      constructor; [exact Htag | constructor]. }
    rewrite Hfill, rev_unit, removelast_last.
    cbn [gcm.GCTR_loop]. rewrite He0.
    cbn [bind state.arrays state.key state.rounds nth].
    fold pad. unfold tag at 1. rewrite xor_arr_twice, GHASH_zero.
    change (string_eqb (state_array.unravel state_array.zero)
                       (state_array.unravel state_array.zero)) with true.
    cbn [negb]. rewrite Hout. reflexivity.
Qed.

End Gcm_facts.

(** * The claims *)

(** Runs a closed call and tells its result from the one named. *)
Ltac differs :=
  match goal with
  | |- ?call <> _ =>
      let v := eval vm_compute in call in
      let E := fresh "E" in
      assert (E : call = v) by (vm_compute; reflexivity);
      rewrite E; discriminate
  end.

(** Splits a conjunction of closed equations and runs each. *)
Ltac run_each :=
  intros; repeat match goal with |- _ /\ _ => split end; vm_compute; reflexivity.

(** C1. For the key [G_key], 14 rounds and the nonce [G_nonce],
    [gcm::Enc] of the 16-byte message [G_plain] is [G_cipher] followed by
    the tag [G_tag]. With bit 0 of the first ciphertext byte inverted,
    [gcm::Dec] does not raise: it returns the message with that bit
    inverted. With bit 0 of the first tag byte inverted it raises. *)
Theorem gcm_Dec_accepts_flipped_ciphertext `{Layout} :
  gcm.Enc G_plain G_key 14 G_nonce = Ret (G_cipher ++ G_tag) /\
  gcm.Dec (flip_bit G_cipher 0 0 ++ G_tag) G_key 14 G_nonce
    = Ret (flip_bit G_plain 0 0) /\
  gcm.Dec (G_cipher ++ flip_bit G_tag 0 0) G_key 14 G_nonce
    = Throw MessageMismatch.
Proof. run_each. Qed.

(** C2. In [gcm::Enc] and [gcm::Dec] the hash subkey for [G_key] and 14
    rounds is the all-zero block, while [Cipher] of the all-zero 16-byte
    block under the same key is [G_tag], which is not zero. *)
Theorem gcm_hash_subkey_is_zero `{Layout} :
  gcm.hash_subkey G_key 14 = Ret state_array.zero /\
  Cipher (repeat x00 16) G_key 14 = Ret G_tag /\
  state_array.of_string G_tag <> state_array.zero.
Proof.
  split; [|split].
  - apply hash_subkey_zero. right. right. reflexivity.
  - vm_compute. reflexivity.
  - vm_compute. discriminate.
Qed.

(** C3. For scenario S1 (AES-128, 10 rounds) [Cipher] returns
    b03a8d5f 77e552f5 d1e13448 534adad2, not the FIPS-197 ciphertext
    3ad77bb4 0d7a3660 a89ecaf3 2466ef97; no other reading of the key as two
    64-bit words gives that ciphertext either. *)
Theorem Cipher_S1_not_FIPS197 `{Layout} :
  Cipher S1_plain S1_key 10 = Ret S1_returned /\
  Cipher S1_plain S1_key 10 <> Ret S1_expected /\
  Forall (fun k => Cipher S1_plain k 10 <> Ret S1_expected) S1_key_readings.
Proof.
  assert (E : Cipher S1_plain S1_key 10 = Ret S1_returned)
    by (vm_compute; reflexivity).
  split; [exact E|]. split; [rewrite E; discriminate|].
  repeat (apply Forall_cons; [differs|]). apply Forall_nil.
Qed.

(** The steps themselves are those of FIPS-197: put together in its order
    they return the ciphertext of S1. *)
Lemma steps_in_FIPS197_order :
  state_array.unravel
    (fips_block (claimed_schedule fips_words) (state_array.of_string S1_plain))
  = S1_expected.
Proof. vm_compute. reflexivity. Qed.

(** C4. For the all-zero key and [Nk = 6], [key::Expansion] returns 52
    words of which [W[6]] is 61636363 where the recurrence of the
    specification gives 62636363, and [W[51]] is left at 0 where the
    recurrence gives 95c965b7. *)
Theorem Expansion_departs_from_recurrence `{Layout} :
  let w := key.Expansion (V4 0 0 0 0) 6 in
  length w = 52%nat /\
  key.word_at w 6 = 0x61636363 /\ claimed_word 6 w 6 = 0x62636363 /\
  key.word_at w 51 = 0 /\ claimed_word 6 w 51 = 0x95c965b7.
Proof. run_each. Qed.

(** C5. For every input, key and round count in 10, 12, 14, [InvCipher]
    of [Cipher] of the input, under the same key and round count, is the
    input padded with zero bytes to a multiple of 16; for a 16-byte input
    it is the input. *)
Theorem InvCipher_Cipher_roundtrip `{Layout} (M : string) (K : vec4 Z) (Nr : Z) :
  valid_rounds Nr ->
  (c <- Cipher M K Nr ;; InvCipher c K Nr) = Ret (zero_padded M) /\
  (length M = 16%nat -> (c <- Cipher M K Nr ;; InvCipher c K Nr) = Ret M).
Proof.
  intros HNr. split.
  - now apply InvCipher_Cipher.
  - intros HM. rewrite InvCipher_Cipher by assumption.
    rewrite zero_padded_full; [reflexivity | now rewrite HM].
Qed.

Lemma InvCipher_Cipher_roundtrip_witness :
  (c <- @Cipher zero_past S1_plain S1_key 10 ;; @InvCipher zero_past c S1_key 10)
  = Ret S1_plain.
Proof.
  destruct (@InvCipher_Cipher_roundtrip zero_past S1_plain S1_key 10) as (_ & W).
  - left. reflexivity.
  - apply W. reflexivity.
Defined.

(** C6, as amended. For every message, key, round count in 10, 12, 14 and
    nonce, [Ctr] of [Ctr] of the message, under the same key, round count
    and nonce, is the message padded with zero bytes to a multiple of 16;
    it is the message when its length is a multiple of 16. *)
Theorem Ctr_twice_zero_padded `{Layout} (M : string) (K : vec4 Z) (Nr n : Z) :
  valid_rounds Nr ->
  (c <- Ctr M K Nr n ;; Ctr c K Nr n) = Ret (zero_padded M) /\
  ((length M mod 16 = 0)%nat -> (c <- Ctr M K Nr n ;; Ctr c K Nr n) = Ret M).
Proof.
  intros HNr. split.
  - now apply Ctr_Ctr.
  - intros HM. rewrite Ctr_Ctr by assumption. now rewrite zero_padded_full.
Qed.

Lemma Ctr_twice_zero_padded_witness :
  (c <- @Ctr zero_past S1_plain G_key 12 G_nonce ;;
   @Ctr zero_past c G_key 12 G_nonce) = Ret S1_plain.
Proof.
  destruct (@Ctr_twice_zero_padded zero_past S1_plain G_key 12 G_nonce) as (_ & W).
  - right. left. reflexivity.
  - apply W. reflexivity.
Defined.

(** C6 as stated fails: for the one-byte message "a", [Ctr] of [Ctr] is "a"
    followed by fifteen zero bytes. *)
Lemma Ctr_twice_not_identity :
  (c <- @Ctr zero_past [x61] G_key 12 0 ;; @Ctr zero_past c G_key 12 0)
  <> Ret [x61].
Proof.
  rewrite (proj1 (@Ctr_twice_zero_padded zero_past [x61] G_key 12 0
                    (or_intror (or_introl eq_refl)))).
  discriminate.
Qed.

(** C7. [prime::generate] returns the pair (7, 3) when [std::rand()] yields
    3. For it the server sends the generator 2, which is [raise(3, 2, 7)];
    the smallest [h] with [raise(h, 2, 7) > 1] is 2, and [raise(2, 2, 7)]
    is 4. For the pair (2027, 1013) the server sends 9 and not 4. *)
Theorem server_generator_uses_next_h :
  prime.generate 8 [3] = Some (7, 3) /\
  exchange.server_generator 8 7 3 = Some 2 /\
  claimed_generator 8 7 3 = Some 4 /\
  prime.generate 8 [1012] = Some (2027, 1013) /\
  exchange.server_generator 8 2027 1013 = Some 9 /\
  claimed_generator 8 2027 1013 = Some 4.
Proof. run_each. Qed.

(** C8. For the shared key [H_key] and 10 rounds, [hmac::generate] hands
    the HMAC primitive the 16 bytes 08 04 02 01 00 08 0c 0e, 08 0c 06 03 01
    08 0c 0e, whereas the bytes of the first two key words are 08 07 06 05
    04 03 02 01, 18 17 16 15 14 13 12 11. *)
Theorem hmac_key_is_not_the_key_bytes
  (HMAC_sha256 : string -> string -> option string) (message : string) :
  hmac.generate HMAC_sha256 message H_key 10 =
    match HMAC_sha256
            [x08; x04; x02; x01; x00; x08; x0c; x0e;
             x08; x0c; x06; x03; x01; x08; x0c; x0e] message with
    | None => Throw HmacFailed
    | Some md => Ret md
    end /\
  claimed_key_bytes H_key 2 =
    [x08; x07; x06; x05; x04; x03; x02; x01;
     x18; x17; x16; x15; x14; x13; x12; x11] /\
  hmac.key_bytes H_key 2 <> claimed_key_bytes H_key 2.
Proof.
  split; [|split]; try reflexivity. vm_compute. discriminate.
Qed.

(** C9. [network::recv_value] never raises: whatever [poll] answers, it
    returns the value read from the payload of the packet. After a timeout
    the packet is tagged ERROR and the value returned is the one read from
    1024 zero bytes. *)
Theorem recv_value_ignores_ERROR (T : Type) (extract : string -> T) :
  (forall ev,
     network.recv_value T extract ev =
     Ret (extract (firstn network.PACKET_SIZE (network.data (network.recv_packet ev))))) /\
  network.m (network.recv_packet network.poll_timeout) = network.ERROR /\
  network.recv_value T extract network.poll_timeout = Ret (extract (repeat x00 1024)).
Proof. split; [|split]; intros; reflexivity. Qed.




(** * Further properties *)

From Stdlib Require Zmod.ZmodInv.
From Stdlib Require Import ZifyNat.

(** ** The field and the S-box *)

Lemma inverse_range : forall z, is_u8 z -> is_u8 (gf.inverse z).
Proof. by_table. Qed.

Lemma mult_inverse_table :
  forall z, is_u8 z ->
  (if z =? 0 then gf.inverse z else gf.mult z (gf.inverse z)) = (if z =? 0 then 0 else 1).
Proof. by_table. Qed.

Lemma inverse_mult_table :
  forall z, is_u8 z ->
  (if z =? 0 then 0 else gf.mult (gf.inverse z) z) = (if z =? 0 then 0 else 1).
Proof. by_table. Qed.

Lemma inverse_inverse : forall z, is_u8 z -> gf.inverse (gf.inverse z) = z.
Proof. by_table. Qed.

(** X1. [gf::inverse] returns a byte; for a byte other than 0 it is the
    inverse under [gf::mult], on either side; of 0 it is 0; taken twice it
    gives the byte back. *)
Theorem gf_inverse_is_inverse (a : Z) :
  is_u8 a ->
  is_u8 (gf.inverse a) /\
  (a <> 0 -> gf.mult a (gf.inverse a) = 1 /\ gf.mult (gf.inverse a) a = 1) /\
  (a = 0 -> gf.inverse a = 0) /\
  gf.inverse (gf.inverse a) = a.
Proof.
  intros Ha. split; [now apply inverse_range|]. split; [|split].
  - intros Hn. pose proof (mult_inverse_table a Ha) as H1.
    pose proof (inverse_mult_table a Ha) as H2.
    destruct (Z.eqb_spec a 0) as [E|_]; [contradiction|]. now split.
  - intros ->. reflexivity.
  - now apply inverse_inverse.
Qed.

Lemma gf_inverse_is_inverse_witness :
  gf.mult 0x53 (gf.inverse 0x53) = 1 /\ gf.mult (gf.inverse 0x53) 0x53 = 1.
Proof.
  apply (gf_inverse_is_inverse 0x53).
  - unfold is_u8. lia.
  - lia.
Defined.

Lemma mult_comm_table :
  forall a, is_u8 a ->
  forallb (fun b => gf.mult a b =? gf.mult b a) (zrange 0 256) = true.
Proof.
  intros a Ha. revert a Ha.
  apply (u8_cases (fun a => forallb (fun b => gf.mult a b =? gf.mult b a) (zrange 0 256))).
  vm_compute. reflexivity.
Qed.

Lemma mult_byte_range_table :
  forall a, is_u8 a ->
  forallb (fun b => (0 <=? gf.mult a b) && (gf.mult a b <? 256)) (zrange 0 256) = true.
Proof.
  intros a Ha. revert a Ha.
  apply (u8_cases (fun a => forallb (fun b => (0 <=? gf.mult a b) && (gf.mult a b <? 256)) (zrange 0 256))).
  vm_compute. reflexivity.
Qed.

Lemma mult_one_table : forall z, is_u8 z -> gf.mult z 1 = z.
Proof. by_table. Qed.

(** X2. On bytes [gf::mult] returns a byte, is commutative, has 1 as unit
    and distributes over XOR in either argument; it returns 0 when an
    argument is 0. *)
Theorem gf_mult_laws (a b c : Z) :
  is_u8 a -> is_u8 b -> is_u8 c ->
  is_u8 (gf.mult a b) /\
  gf.mult a b = gf.mult b a /\
  gf.mult a 1 = a /\ gf.mult 1 a = a /\
  gf.mult a 0 = 0 /\ gf.mult 0 a = 0 /\
  gf.mult a (Z.lxor b c) = Z.lxor (gf.mult a b) (gf.mult a c) /\
  gf.mult (Z.lxor a b) c = Z.lxor (gf.mult a c) (gf.mult b c).
Proof.
  intros Ha Hb Hc.
  assert (comm : forall x y, is_u8 x -> is_u8 y -> gf.mult x y = gf.mult y x).
  { intros x y Hx Hy. pose proof (mult_comm_table x Hx) as T.
    rewrite forallb_forall in T. apply Z.eqb_eq, T, zrange_In, Hy. }
  split; [|split; [|split; [|split; [|split; [|split; [|split]]]]]].
  - pose proof (mult_byte_range_table a Ha) as T. rewrite forallb_forall in T.
    apply is_u8_check, T, zrange_In, Hb.
  - now apply comm.
  - now apply mult_one_table.
  - rewrite comm by (assumption || (unfold is_u8; lia)). now apply mult_one_table.
  - reflexivity.
  - rewrite comm by (assumption || (unfold is_u8; lia)). reflexivity.
  - apply mult_lxor.
  - rewrite comm by (try apply lxor_u8; assumption).
    rewrite mult_lxor. now rewrite (comm c a), (comm c b).
Qed.

Lemma gf_mult_laws_witness : gf.mult 0x57 0x83 = gf.mult 0x83 0x57.
Proof.
  apply (gf_mult_laws 0x57 0x83 0x13); unfold is_u8; lia.
Defined.

Lemma sub_inv_sub : forall z, is_u8 z -> sub_byte (inv_sub_byte z) = z.
Proof. by_table. Qed.

Lemma sub_byte_moves :
  forall z, is_u8 z -> (if sub_byte z =? z then 1 else 0) = 0.
Proof. by_table. Qed.

Lemma wf_InvSubBytes a : wf a -> wf (state_array.InvSubBytes a).
Proof.
  open_arr a. intros Ha. open_wf.
  open_ops. split_wf; cbn [get4 v0 v1 v2 v3]; now apply inv_sub_byte_range.
Qed.

Lemma InvSubBytes_inv a :
  wf a -> state_array.SubBytes (state_array.InvSubBytes a) = a.
Proof.
  open_arr a. intros Ha. open_wf. open_ops. cbn [get4 v0 v1 v2 v3].
  now rewrite !sub_inv_sub.
Qed.

Lemma index4 i : 0 <= i < 4 -> i = 0 \/ i = 1 \/ i = 2 \/ i = 3.
Proof. lia. Qed.

(** X3. On a block of bytes [SubBytes] and [InvSubBytes] undo each other,
    both keep bytes, and [SubBytes] leaves no cell as it was. *)
Theorem SubBytes_bijective (a : state_array.t) :
  wf a ->
  state_array.InvSubBytes (state_array.SubBytes a) = a /\
  state_array.SubBytes (state_array.InvSubBytes a) = a /\
  wf (state_array.SubBytes a) /\ wf (state_array.InvSubBytes a) /\
  (forall i j, 0 <= i < 4 -> 0 <= j < 4 ->
     state_array.cell (state_array.SubBytes a) i j <> state_array.cell a i j).
Proof.
  intros Ha. split; [now apply SubBytes_inv|]. split; [now apply InvSubBytes_inv|].
  split; [now apply wf_SubBytes|]. split; [now apply wf_InvSubBytes|].
  intros i j Hi Hj. apply index4 in Hi. apply index4 in Hj.
  revert Ha. open_arr a. intros Ha. open_wf. open_ops.
  destruct Hi as [-> | [-> | [-> | ->]]];
    destruct Hj as [-> | [-> | [-> | ->]]];
    cbn [get4 v0 v1 v2 v3];
    match goal with
    | |- sub_byte ?z <> ?z =>
        intros E; assert (Hz : is_u8 z) by assumption;
        pose proof (sub_byte_moves z Hz) as M; rewrite E, Z.eqb_refl in M;
        discriminate M
    end.
Qed.

Lemma SubBytes_bijective_witness :
  state_array.InvSubBytes (state_array.SubBytes (state_array.of_string S1_plain))
  = state_array.of_string S1_plain.
Proof.
  apply (SubBytes_bijective (state_array.of_string S1_plain)).
  apply wf_of_string.
Defined.

(** ** The other steps of a round *)

Lemma InvShiftRows_inv a :
  state_array.ShiftRows (state_array.InvShiftRows a) = a.
Proof. open_arr a. reflexivity. Qed.

Lemma wf_InvShiftRows a : wf a -> wf (state_array.InvShiftRows a).
Proof.
  open_arr a. intros Ha. open_wf. open_ops. split_wf; cbn; assumption.
Qed.

(** X4. [ShiftRows] and [InvShiftRows] undo each other on every block,
    [ShiftRows] leaves the cells [array[col][0]] where they are, moves
    [array[(col + row) % 4][row]] to [array[col][row]], and four
    applications give the block back. *)
Theorem ShiftRows_permutes (a : state_array.t) :
  state_array.InvShiftRows (state_array.ShiftRows a) = a /\
  state_array.ShiftRows (state_array.InvShiftRows a) = a /\
  (forall col row, 0 <= col < 4 -> 0 <= row < 4 ->
     state_array.cell (state_array.ShiftRows a) col row
     = state_array.cell a ((col + row) mod 4) row) /\
  (forall col, 0 <= col < 4 ->
     state_array.cell (state_array.ShiftRows a) col 0 = state_array.cell a col 0) /\
  state_array.ShiftRows
    (state_array.ShiftRows (state_array.ShiftRows (state_array.ShiftRows a))) = a.
Proof.
  split; [apply ShiftRows_inv|]. split; [apply InvShiftRows_inv|].
  split; [|split].
  - intros col row Hc Hr. apply index4 in Hc. apply index4 in Hr.
    destruct Hc as [-> | [-> | [-> | ->]]];
      destruct Hr as [-> | [-> | [-> | ->]]]; reflexivity.
  - intros col Hc. apply index4 in Hc.
    destruct Hc as [-> | [-> | [-> | ->]]]; reflexivity.
  - open_arr a. reflexivity.
Qed.

Lemma ShiftRows_permutes_witness :
  state_array.cell (state_array.ShiftRows (state_array.of_string S1_plain)) 1 2
  = state_array.cell (state_array.of_string S1_plain) 3 2.
Proof.
  apply (ShiftRows_permutes (state_array.of_string S1_plain)); lia.
Defined.

Lemma coef_rev_table i j :
  In i (zrange 0 4) -> In j (zrange 0 4) ->
  forall a, is_u8 a -> coef_rev i j a = if i =? j then a else 0.
Proof.
  intros Hi Hj.
  repeat (destruct Hi as [<- | Hi]);
    repeat (destruct Hj as [<- | Hj]); try contradiction; by_table.
Qed.

Ltac mix_entry_rev i a b c d :=
  rewrite !mult_lxor;
  transitivity (Z.lxor (Z.lxor (Z.lxor (coef_rev i 0 a) (coef_rev i 1 b))
                               (coef_rev i 2 c)) (coef_rev i 3 d));
  [ cbv -[gf.mult Z.lxor];
    repeat match goal with
           | |- context [gf.mult ?k ?x] => generalize (gf.mult k x); intro
           end;
    aac_reflexivity
  | rewrite !coef_rev_table by (assumption || (apply zrange_In; lia));
    cbn [Z.eqb Pos.eqb]; rewrite ?Z.lxor_0_l, ?Z.lxor_0_r; reflexivity ].

Lemma inv_mix_col_wf c : wf4 c -> wf4 (state_array.inv_mix_col c).
Proof.
  destruct c as [a b c d]. intros Hc. open_wf.
  unfold state_array.inv_mix_col, wf4. cbn [v0 v1 v2 v3].
  split4; repeat apply lxor_u8;
    apply mult_range; try assumption; unfold mix_consts; simpl; tauto.
Qed.

Lemma inv_mix_col_inv c :
  wf4 c -> state_array.mix_col (state_array.inv_mix_col c) = c.
Proof.
  destruct c as [a b c d]. intros Hc. open_wf.
  unfold state_array.inv_mix_col, state_array.mix_col. cbn [v0 v1 v2 v3].
  f_equal.
  - mix_entry_rev 0 a b c d.
  - mix_entry_rev 1 a b c d.
  - mix_entry_rev 2 a b c d.
  - mix_entry_rev 3 a b c d.
Qed.

Lemma wf_InvMixColumns a : wf a -> wf (state_array.InvMixColumns a).
Proof.
  unfold state_array.InvMixColumns. destruct a as [c0 c1 c2 c3].
  intros (H0 & H1 & H2 & H3). unfold tab4.
  split4; cbn [get4 v0 v1 v2 v3]; now apply inv_mix_col_wf.
Qed.

Lemma InvMixColumns_inv a :
  wf a -> state_array.MixColumns (state_array.InvMixColumns a) = a.
Proof.
  unfold state_array.InvMixColumns, state_array.MixColumns.
  destruct a as [c0 c1 c2 c3].
  intros (H0 & H1 & H2 & H3). unfold tab4. cbn [get4 v0 v1 v2 v3] in *.
  now rewrite !inv_mix_col_inv.
Qed.

Lemma xor_cols_mix c d :
  state_array.mix_col
    (V4 (Z.lxor (v0 c) (v0 d)) (Z.lxor (v1 c) (v1 d))
        (Z.lxor (v2 c) (v2 d)) (Z.lxor (v3 c) (v3 d)))
  = V4 (Z.lxor (v0 (state_array.mix_col c)) (v0 (state_array.mix_col d)))
       (Z.lxor (v1 (state_array.mix_col c)) (v1 (state_array.mix_col d)))
       (Z.lxor (v2 (state_array.mix_col c)) (v2 (state_array.mix_col d)))
       (Z.lxor (v3 (state_array.mix_col c)) (v3 (state_array.mix_col d))).
Proof.
  destruct c as [c0 c1 c2 c3], d as [d0 d1 d2 d3].
  unfold state_array.mix_col. cbn [v0 v1 v2 v3]. rewrite !mult_lxor.
  f_equal;
    repeat match goal with
           | |- context [gf.mult ?k ?x] => generalize (gf.mult k x); intro
           end;
    aac_reflexivity.
Qed.

(** X5. On a block of bytes [MixColumns] and [InvMixColumns] undo each
    other and keep bytes; [MixColumns] of the XOR of two blocks is the XOR
    of their images, for any two blocks. *)
Theorem MixColumns_linear_bijective (a b : state_array.t) :
  (wf a ->
   state_array.InvMixColumns (state_array.MixColumns a) = a /\
   state_array.MixColumns (state_array.InvMixColumns a) = a /\
   wf (state_array.MixColumns a) /\ wf (state_array.InvMixColumns a)) /\
  state_array.MixColumns (state_array.xor_arr a b)
  = state_array.xor_arr (state_array.MixColumns a) (state_array.MixColumns b).
Proof.
  split.
  - intros Ha. split; [now apply MixColumns_inv|].
    split; [now apply InvMixColumns_inv|].
    split; [now apply wf_MixColumns | now apply wf_InvMixColumns].
  - destruct a as [a0 a1 a2 a3], b as [b0 b1 b2 b3].
    unfold state_array.MixColumns, state_array.xor_arr, state_array.tab,
      state_array.cell, tab4.
    cbn [get4 v0 v1 v2 v3]. now rewrite !xor_cols_mix.
Qed.

Lemma MixColumns_linear_bijective_witness :
  state_array.InvMixColumns (state_array.MixColumns (state_array.of_string S1_plain))
  = state_array.of_string S1_plain.
Proof.
  destruct (MixColumns_linear_bijective (state_array.of_string S1_plain)
              state_array.zero) as (W & _).
  apply W. apply wf_of_string.
Defined.

(** X6. [AddRoundKey] applied twice with the same round and schedule gives
    the block back, for every block, round and schedule, and it keeps
    bytes; so does [xor_arr] with the same second block, which also leaves
    a block unchanged when the second block is zero. *)
Theorem AddRoundKey_involutive (a b : state_array.t) (round : Z) (keys : list Z) :
  state_array.AddRoundKey (state_array.AddRoundKey a round keys) round keys = a /\
  state_array.xor_arr (state_array.xor_arr a b) b = a /\
  state_array.xor_arr a state_array.zero = a /\
  (wf a -> wf (state_array.AddRoundKey a round keys)) /\
  (wf a -> wf b -> wf (state_array.xor_arr a b)).
Proof.
  split; [apply AddRoundKey_twice|]. split; [apply xor_arr_twice|].
  split; [|split].
  - open_arr a. open_ops. cbn [get4 v0 v1 v2 v3].
    now rewrite !Z.lxor_0_r.
  - apply wf_AddRoundKey.
  - apply wf_xor_arr.
Qed.

Lemma AddRoundKey_involutive_witness :
  wf (state_array.AddRoundKey (state_array.of_string S1_plain) 3 [1; 2; 3]).
Proof.
  destruct (AddRoundKey_involutive (state_array.of_string S1_plain)
              state_array.zero 3 [1; 2; 3]) as (_ & _ & _ & W & _).
  apply W. apply wf_of_string.
Defined.

(** ** Encrypting what was decrypted *)

Lemma wf_dec_round w a x : wf a -> wf (dec_round w a x).
Proof.
  intros Ha. unfold dec_round.
  now apply wf_InvMixColumns, wf_AddRoundKey, wf_InvSubBytes, wf_InvShiftRows.
Qed.

Lemma wf_dec_rounds w xs : forall a, wf a -> wf (fold_left (dec_round w) xs a).
Proof.
  induction xs as [|x xs IH]; intros a Ha; [assumption|].
  rewrite fold_left_cons. now apply IH, wf_dec_round.
Qed.

Lemma enc_dec_round w t x :
  wf t ->
  enc_round w (state_array.InvSubBytes (state_array.InvShiftRows (dec_round w t (x + 1)))) x
  = state_array.InvSubBytes (state_array.InvShiftRows t).
Proof.
  intros Ht. pose proof (wf_dec_round w t (x + 1) Ht) as HD.
  unfold enc_round.
  rewrite InvSubBytes_inv by now apply wf_InvShiftRows.
  rewrite InvShiftRows_inv. unfold dec_round.
  rewrite InvMixColumns_inv
    by now apply wf_AddRoundKey, wf_InvSubBytes, wf_InvShiftRows.
  apply AddRoundKey_twice.
Qed.

Lemma rounds_redone w n : forall t, wf t ->
  fold_left (enc_round w) (zrange 0 (Z.of_nat n))
    (state_array.InvSubBytes
       (state_array.InvShiftRows
          (fold_left (dec_round w) (rev (zrange 1 (Z.of_nat n + 1))) t)))
  = state_array.InvSubBytes (state_array.InvShiftRows t).
Proof.
  induction n as [|n IH]; intros t Ht.
  - change (Z.of_nat 0 + 1) with 1. change (Z.of_nat 0) with 0.
    rewrite !zrange_empty. reflexivity.
  - rewrite Nat2Z.inj_succ, <- Z.add_1_r.
    rewrite (zrange_snoc 0 (Z.of_nat n)) by lia.
    rewrite (zrange_snoc 1 (Z.of_nat n + 1)) by lia.
    rewrite rev_unit, fold_left_snoc, fold_left_cons.
    rewrite IH by now apply wf_dec_round.
    now apply enc_dec_round.
Qed.

Lemma enc_dec_block w Nr a : 1 <= Nr -> wf a -> enc_block w Nr (dec_block w Nr a) = a.
Proof.
  intros HNr Ha. unfold dec_block, enc_block.
  rewrite AddRoundKey_twice.
  replace Nr with (Z.of_nat (Z.to_nat (Nr - 1)) + 1) at 2 by lia.
  replace (Nr - 1) with (Z.of_nat (Z.to_nat (Nr - 1))) at 1 by lia.
  rewrite rounds_redone by now apply wf_AddRoundKey.
  rewrite InvSubBytes_inv by now apply wf_InvShiftRows, wf_AddRoundKey.
  rewrite InvShiftRows_inv. apply AddRoundKey_twice.
Qed.

Lemma wf_dec_block w Nr a : wf a -> wf (dec_block w Nr a).
Proof.
  intros Ha. unfold dec_block.
  now apply wf_AddRoundKey, wf_InvSubBytes, wf_InvShiftRows, wf_dec_rounds,
    wf_AddRoundKey.
Qed.

Lemma valid_rounds_pos Nr : valid_rounds Nr -> 1 <= Nr.
Proof. intros [-> | [-> | ->]]; lia. Qed.

(** X7. For every input, key and round count in 10, 12, 14, [Cipher] of
    [InvCipher] of the input is the input padded with zero bytes to a
    multiple of 16: decrypting and encrypting again gives the blocks back. *)
Theorem Cipher_InvCipher_roundtrip `{Layout} (C : string) (K : vec4 Z) (Nr : Z) :
  valid_rounds Nr ->
  (p <- InvCipher C K Nr ;; Cipher p K Nr) = Ret (zero_padded C).
Proof.
  intros HNr. destruct (Schedule_ok K Nr HNr) as [w Hw].
  rewrite (InvCipher_blocks _ _ _ _ Hw). cbn [bind].
  rewrite (Cipher_blocks _ _ _ _ Hw).
  rewrite fill_unravel_len.
  2:{ apply Forall_map. eapply Forall_impl; [|apply fill_wf].
      intros a. apply wf_dec_block. }
  rewrite map_map.
  rewrite (map_ext_Forall _ (fun a => a) (l := state.fill (length C) C)).
  2:{ eapply Forall_impl; [|apply fill_wf]. intros a Ha.
      apply enc_dec_block; [now apply valid_rounds_pos | assumption]. }
  rewrite map_id. now rewrite unravel_fill.
Qed.

Lemma Cipher_InvCipher_roundtrip_witness :
  (p <- @InvCipher zero_past S1_plain S1_key 10 ;; @Cipher zero_past p S1_key 10)
  = Ret (zero_padded S1_plain).
Proof.
  apply (@Cipher_InvCipher_roundtrip zero_past S1_plain S1_key 10).
  left. reflexivity.
Defined.

(** ** Lengths *)

Lemma length_zero_padded s :
  (length (zero_padded s) mod 16 = 0 /\
   length s <= length (zero_padded s) < length s + 16)%nat.
Proof.
  unfold zero_padded. rewrite length_app, repeat_length.
  pose proof (Nat.mod_upper_bound (length s) 16 ltac:(lia)) as Hm.
  pose proof (Nat.div_mod_eq (length s) 16) as Hd.
  remember (length s) as n eqn:En.
  remember (n mod 16)%nat as r eqn:Er. remember (n / 16)%nat as q eqn:Eq.
  clear En Er Eq.
  destruct (Nat.eq_dec r 0) as [E|E].
  - rewrite E in *. change ((16 - 0) mod 16)%nat with 0%nat. split; [|lia].
    replace (n + 0)%nat with (q * 16)%nat by lia. apply Nat.Div0.mod_mul.
  - rewrite (Nat.mod_small (16 - r) 16) by lia. split; [|lia].
    replace (n + (16 - r))%nat with ((q + 1) * 16)%nat by lia.
    apply Nat.Div0.mod_mul.
Qed.

Lemma length_unravel_fill n s :
  (length s <= n)%nat ->
  (16 * length (state.fill n s) = length (zero_padded s))%nat.
Proof.
  intros Hn. rewrite <- (unravel_fill n s Hn). now rewrite length_flat_unravel.
Qed.

(** ** Blocks of a concatenation *)

(** Any two sufficient numbers of turns build the same blocks. *)
Lemma fill_enough n : forall m s,
  (length s <= n)%nat -> (length s <= m)%nat -> state.fill n s = state.fill m s.
Proof.
  induction n as [|n IH]; intros m s Hn Hm.
  - destruct s; [now rewrite !fill_nil | simpl in Hn; lia].
  - destruct s as [|b s]; [now rewrite !fill_nil|].
    destruct m as [|m]; [simpl in Hm; lia|].
    rewrite !fill_cons. f_equal.
    pose proof (length_skipn 16 (b :: s)) as Hs. cbn [length] in Hs, Hn, Hm.
    apply IH; lia.
Qed.

Lemma fill_prefix arrs : forall n s,
  Forall wf arrs ->
  state.fill (length arrs + n) (flat_map state_array.unravel arrs ++ s)
  = arrs ++ state.fill n s.
Proof.
  induction arrs as [|a rest IH]; intros n s Hwf; [reflexivity|].
  inversion Hwf as [|? ? Ha Hrest]; subst.
  cbn [flat_map length Nat.add app]. rewrite <- app_assoc.
  change (state.fill (S (length rest + n))
            (state_array.unravel a ++ flat_map state_array.unravel rest ++ s))
    with (state_array.of_string
            (state_array.unravel a ++ flat_map state_array.unravel rest ++ s)
          :: state.fill (length rest + n) (flat_map state_array.unravel rest ++ s)).
  rewrite (of_string_unravel _ _ Ha), IH by assumption. reflexivity.
Qed.

Lemma fill_whole s :
  (length s mod 16 = 0)%nat ->
  flat_map state_array.unravel (state.fill (length s) s) = s.
Proof.
  intros Hs. rewrite unravel_fill by lia. now apply zero_padded_full.
Qed.

Lemma fill_app s1 s2 :
  (length s1 mod 16 = 0)%nat ->
  state.fill (length (s1 ++ s2)) (s1 ++ s2)
  = state.fill (length s1) s1 ++ state.fill (length s2) s2.
Proof.
  intros Hs.
  set (A := state.fill (length s1) s1).
  assert (HA : Forall wf A) by apply fill_wf.
  assert (E : flat_map state_array.unravel A = s1) by now apply fill_whole.
  rewrite (fill_enough _ (length A + length (s1 ++ s2))) by lia.
  rewrite <- E at 2. rewrite fill_prefix by assumption.
  f_equal. apply fill_enough; rewrite ?length_app; lia.
Qed.

Lemma length_fill_whole s :
  (length s mod 16 = 0)%nat ->
  length (state.fill (length s) s) = (length s / 16)%nat.
Proof.
  intros Hs. pose proof (length_unravel_fill (length s) s (le_n _)) as L.
  rewrite (zero_padded_full s Hs) in L.
  pose proof (Nat.div_mod_eq (length s) 16). lia.
Qed.

Section Concatenation.
Context `{Layout}.

(** X8. For a round count in 10, 12, 14, [Cipher] of [M1 ++ M2] is [Cipher]
    of [M1] followed by [Cipher] of [M2] whenever the length of [M1] is a
    multiple of 16: each block is encrypted on its own. *)
Theorem Cipher_of_concatenation (M1 M2 : string) (K : vec4 Z) (Nr : Z) :
  valid_rounds Nr -> (length M1 mod 16 = 0)%nat ->
  Cipher (M1 ++ M2) K Nr
  = (c1 <- Cipher M1 K Nr ;; c2 <- Cipher M2 K Nr ;; Ret (c1 ++ c2)).
Proof.
  intros HNr HM. destruct (Schedule_ok K Nr HNr) as [w Hw].
  rewrite !(Cipher_blocks _ _ _ _ Hw). cbn [bind].
  now rewrite fill_app, map_app, flat_map_app.
Qed.

End Concatenation.

Lemma Cipher_of_concatenation_witness :
  @Cipher zero_past (S1_plain ++ G_plain) G_key 12
  = (c1 <- @Cipher zero_past S1_plain G_key 12 ;;
     c2 <- @Cipher zero_past G_plain G_key 12 ;; Ret (c1 ++ c2)).
Proof.
  apply (@Cipher_of_concatenation zero_past S1_plain G_plain G_key 12).
  - right. left. reflexivity.
  - reflexivity.
Defined.

(** ** Invalid round counts *)

Section Rounds.
Context `{Layout}.

Lemma Schedule_bad K Nr :
  ~ valid_rounds Nr -> state.Schedule K Nr = Throw (InvalidKeySize Nr).
Proof.
  intros Hn. unfold state.Schedule, valid_rounds in *.
  destruct (Z.eqb_spec Nr 10); [tauto|].
  destruct (Z.eqb_spec Nr 12); [tauto|].
  destruct (Z.eqb_spec Nr 14); [tauto|]. reflexivity.
Qed.

(** X9. With a round count other than 10, 12 and 14 every mode throws the
    invalid-key-size error carrying that count, whatever the input, key and
    nonce; nothing is encrypted or decrypted. *)
Theorem invalid_rounds_throw (M : string) (K : vec4 Z) (Nr nonce : Z) :
  ~ valid_rounds Nr ->
  Cipher M K Nr = Throw (InvalidKeySize Nr) /\
  InvCipher M K Nr = Throw (InvalidKeySize Nr) /\
  Ctr M K Nr nonce = Throw (InvalidKeySize Nr) /\
  gcm.Enc M K Nr nonce = Throw (InvalidKeySize Nr) /\
  gcm.Dec M K Nr nonce = Throw (InvalidKeySize Nr).
Proof.
  intros Hn. pose proof (Schedule_bad K Nr Hn) as Hs.
  assert (HC : forall s, Cipher s K Nr = Throw (InvalidKeySize Nr)).
  { intros s. unfold Cipher, state.of_string. rewrite Hs. reflexivity. }
  split; [apply HC|]. split; [|split; [|split]].
  - unfold InvCipher, state.of_string. rewrite Hs. reflexivity.
  - unfold Ctr, state.of_string. rewrite Hs. reflexivity.
  - unfold gcm.Enc, gcm.hash_subkey. rewrite HC. reflexivity.
  - unfold gcm.Dec, gcm.hash_subkey. rewrite HC. reflexivity.
Qed.

End Rounds.

Lemma invalid_rounds_throw_witness :
  @Cipher zero_past S1_plain S1_key 11 = Throw (InvalidKeySize 11).
Proof.
  apply (@invalid_rounds_throw zero_past S1_plain S1_key 11 0).
  unfold valid_rounds. lia.
Defined.

(** ** Counter mode over a concatenation *)

Lemma u64_mod z : u64 z = z mod 2 ^ 64.
Proof. unfold u64. change 0xffffffffffffffff with (Z.ones 64). apply Z.land_ones. lia. Qed.

Lemma u64_range z : 0 <= u64 z < 2 ^ 64.
Proof. rewrite u64_mod. apply Z.mod_pos_bound. lia. Qed.

Lemma u64_small z : 0 <= z < 2 ^ 64 -> u64 z = z.
Proof. intros Hz. rewrite u64_mod. now apply Z.mod_small. Qed.

Lemma u64_succ z k : u64 (u64 (z + 1) + k) = u64 (z + (1 + k)).
Proof.
  rewrite !u64_mod, Zplus_mod_idemp_l. f_equal. lia.
Qed.

Section Counter_blocks.
Context `{Layout}.

Lemma Ctr_form input k Nr nonce :
  valid_rounds Nr ->
  Ctr input k Nr nonce
  = (arrs <- Ctr_loop (state.fill (length input) input) k Nr nonce ;;
     Ret (flat_map state_array.unravel arrs)).
Proof.
  intros HNr. destruct (Schedule_ok k Nr HNr) as [w Hw].
  unfold Ctr, state.of_string. rewrite Hw. cbn [bind state.arrays].
  destruct (Ctr_loop _ k Nr nonce); reflexivity.
Qed.

Lemma Ctr_loop_length k Nr : forall arrs nonce out,
  Ctr_loop arrs k Nr nonce = Ret out -> length out = length arrs.
Proof.
  induction arrs as [|a rest IH]; intros nonce out.
  - cbn [Ctr_loop]. intros E. injection E as <-. reflexivity.
  - cbn [Ctr_loop]. destruct (Cipher _ k Nr) as [c|e]; [|discriminate].
    cbn [bind]. destruct (Ctr_loop rest k Nr _) as [r|e] eqn:Er; [|discriminate].
    cbn [bind]. intros E. injection E as <-. cbn [length]. f_equal.
    exact (IH _ _ Er).
Qed.

Lemma Ctr_loop_app k Nr : forall a1 a2 nonce,
  0 <= nonce < 2 ^ 64 ->
  Ctr_loop (a1 ++ a2) k Nr nonce
  = (o1 <- Ctr_loop a1 k Nr nonce ;;
     o2 <- Ctr_loop a2 k Nr (u64 (nonce + Z.of_nat (length a1))) ;;
     Ret (o1 ++ o2)).
Proof.
  induction a1 as [|a rest IH]; intros a2 nonce Hn.
  - cbn [app Ctr_loop bind length Z.of_nat]. rewrite Z.add_0_r, u64_small by assumption.
    destruct (Ctr_loop a2 k Nr nonce); reflexivity.
  - cbn [app Ctr_loop length]. destruct (Cipher _ k Nr) as [c|e]; [|reflexivity].
    cbn [bind]. rewrite IH by apply u64_range.
    rewrite u64_succ. replace (1 + Z.of_nat (length rest)) with (Z.of_nat (S (length rest))) by lia.
    destruct (Ctr_loop rest k Nr _) as [r|e]; [|reflexivity]. cbn [bind].
    destruct (Ctr_loop a2 k Nr _); reflexivity.
Qed.

(** X10. For a round count in 10, 12, 14 and a 64-bit nonce, [Ctr] of
    [M1 ++ M2], with the length of [M1] a multiple of 16, is [Ctr] of [M1]
    from the nonce followed by [Ctr] of [M2] from the nonce plus the number
    of blocks of [M1], wrapped to 64 bits. *)
Theorem Ctr_of_concatenation (M1 M2 : string) (K : vec4 Z) (Nr nonce : Z) :
  valid_rounds Nr -> 0 <= nonce < 2 ^ 64 -> (length M1 mod 16 = 0)%nat ->
  Ctr (M1 ++ M2) K Nr nonce
  = (c1 <- Ctr M1 K Nr nonce ;;
     c2 <- Ctr M2 K Nr (u64 (nonce + Z.of_nat (length M1 / 16))) ;;
     Ret (c1 ++ c2)).
Proof.
  intros HNr Hn HM. rewrite !Ctr_form by assumption.
  rewrite fill_app, Ctr_loop_app, length_fill_whole by assumption.
  destruct (Ctr_loop _ K Nr nonce) as [o1|e]; [|reflexivity]. cbn [bind].
  destruct (Ctr_loop _ K Nr _) as [o2|e]; [|reflexivity]. cbn [bind].
  now rewrite flat_map_app.
Qed.

End Counter_blocks.

Lemma Ctr_of_concatenation_witness :
  @Ctr zero_past (S1_plain ++ G_plain) S1_key 10 (2 ^ 64 - 1)
  = (c1 <- @Ctr zero_past S1_plain S1_key 10 (2 ^ 64 - 1) ;;
     c2 <- @Ctr zero_past G_plain S1_key 10 (u64 (2 ^ 64 - 1 + Z.of_nat (length S1_plain / 16))) ;;
     Ret (c1 ++ c2)).
Proof.
  apply (@Ctr_of_concatenation zero_past S1_plain G_plain S1_key 10 (2 ^ 64 - 1)).
  - left. reflexivity.
  - lia.
  - reflexivity.
Defined.

(** ** Lengths *)

Lemma length_padded_blocks s :
  length (zero_padded s) = (16 * ((length s + 15) / 16))%nat.
Proof.
  destruct (length_zero_padded s) as [Hm [Hl Hu]].
  pose proof (Nat.div_mod_eq (length (zero_padded s)) 16) as Hd.
  rewrite Hm, Nat.add_0_r in Hd. rewrite Hd at 1. f_equal.
  remember (length (zero_padded s) / 16)%nat as q. clear Heqq.
  apply (Nat.div_unique _ 16 q (length s + 15 - 16 * q)); lia.
Qed.

Section Gcm_form.
Context `{Layout}.

Lemma GCTR_loop_length k Nr : forall arrs ICB out,
  gcm.GCTR_loop arrs k Nr ICB = Ret out -> length out = length arrs.
Proof.
  induction arrs as [|a rest IH]; intros ICB out.
  - cbn [gcm.GCTR_loop]. intros E. injection E as <-. reflexivity.
  - cbn [gcm.GCTR_loop]. destruct (Cipher _ k Nr) as [c|e]; [|discriminate].
    cbn [bind]. destruct (gcm.GCTR_loop rest k Nr _) as [r|e] eqn:Er; [|discriminate].
    cbn [bind]. intros E. injection E as <-. cbn [length]. f_equal.
    exact (IH _ _ Er).
Qed.

Lemma GCTR_loop_twice k Nr :
  valid_rounds Nr ->
  forall arrs ICB,
  exists out,
    gcm.GCTR_loop arrs k Nr ICB = Ret out /\
    gcm.GCTR_loop out k Nr ICB = Ret arrs /\
    (Forall wf arrs -> Forall wf out).
Proof.
  intros HNr. induction arrs as [|a rest IH]; intros ICB.
  - exists []. repeat split; auto.
  - destruct (Cipher_ok (state_array.unravel ICB) k Nr HNr) as [c Hc].
    destruct (IH (gcm.increment ICB)) as (out & H1 & H2 & H3).
    exists (state_array.xor_arr a (state_array.of_string c) :: out).
    cbn [gcm.GCTR_loop]. rewrite Hc. cbn [bind]. rewrite H1, H2. cbn [bind].
    rewrite xor_arr_twice. repeat split.
    intros Hwf. inversion Hwf; subst.
    constructor; [apply wf_xor_arr; [assumption | apply wf_of_string] | auto].
Qed.

Lemma Enc_form K Nr nonce M e0 :
  valid_rounds Nr ->
  Cipher (state_array.unravel state_array.zero) K Nr = Ret e0 ->
  gcm.Enc M K Nr nonce
  = (out <- gcm.GCTR_loop (state.fill (length M) M) K Nr
                          (gcm.increment state_array.zero) ;;
     Ret (flat_map state_array.unravel out
          ++ state_array.unravel
               (state_array.xor_arr state_array.zero (state_array.of_string e0)))).
Proof.
  intros HNr He0. destruct (Schedule_ok K Nr HNr) as [w Hw].
  unfold gcm.Enc. rewrite (hash_subkey_zero K Nr HNr). cbn [bind].
  rewrite (initial_counter_zero K Nr nonce HNr). cbn [bind].
  unfold state.of_string, state.of_arrays, gcm.GCTR, state.with_arrays.
  rewrite Hw. cbn [bind state.arrays state.key state.rounds].
  destruct (gcm.GCTR_loop _ K Nr _) as [out|e]; [|reflexivity].
  cbn [bind state.arrays state.key state.rounds].
  rewrite GHASH_zero. cbn [gcm.GCTR_loop]. rewrite He0.
  cbn [bind state.arrays nth]. unfold state.unravel. cbn [state.arrays].
  rewrite flat_map_app. cbn [flat_map]. rewrite app_nil_r. reflexivity.
Qed.

Lemma Dec_form K Nr nonce body t e0 :
  valid_rounds Nr ->
  Cipher (state_array.unravel state_array.zero) K Nr = Ret e0 ->
  Forall wf body -> wf t ->
  gcm.Dec (flat_map state_array.unravel body ++ state_array.unravel t) K Nr nonce
  = if string_eqb
         (state_array.unravel (state_array.xor_arr t (state_array.of_string e0)))
         (state_array.unravel state_array.zero)
    then (out <- gcm.GCTR_loop body K Nr (gcm.increment state_array.zero) ;;
          Ret (flat_map state_array.unravel out))
    else Throw MessageMismatch.
Proof.
  intros HNr He0 Hbody Ht. destruct (Schedule_ok K Nr HNr) as [w Hw].
  unfold gcm.Dec. rewrite (hash_subkey_zero K Nr HNr). cbn [bind].
  rewrite (initial_counter_zero K Nr nonce HNr). cbn [bind].
  unfold state.of_string, state.of_arrays, gcm.GCTR, state.with_arrays.
  rewrite Hw. cbn [bind state.arrays state.key state.rounds].
  assert (Hfill : state.fill
                    (length (flat_map state_array.unravel body ++ state_array.unravel t))
                    (flat_map state_array.unravel body ++ state_array.unravel t)
                  = body ++ [t]).
  { replace (flat_map state_array.unravel body ++ state_array.unravel t)
      with (flat_map state_array.unravel (body ++ [t]))
      by (rewrite flat_map_app; cbn [flat_map]; rewrite app_nil_r; reflexivity).
    apply fill_unravel_len. apply Forall_app. split; [assumption|].
    constructor; [exact Ht | constructor]. }
  rewrite Hfill, rev_unit, removelast_last.
  cbn [gcm.GCTR_loop]. rewrite He0.
  cbn [bind state.arrays state.key state.rounds nth].
  rewrite GHASH_zero.
  destruct (string_eqb _ _); cbn [negb]; [|reflexivity].
  destruct (gcm.GCTR_loop body K Nr _); reflexivity.
Qed.

End Gcm_form.

Lemma string_eqb_eq a : forall b, string_eqb a b = true <-> a = b.
Proof.
  induction a as [|x a IH]; intros [|y b]; cbn [string_eqb];
    try (split; [discriminate | discriminate]); [tauto|].
  rewrite andb_true_iff, IH. split.
  - intros [E ->]. apply Byte.byte_dec_bl in E. now subst.
  - intros E. injection E as -> ->. split; [apply Byte.byte_dec_lb|]; reflexivity.
Qed.

Lemma unravel_inj a b :
  wf a -> wf b -> state_array.unravel a = state_array.unravel b -> a = b.
Proof.
  intros Ha Hb E.
  rewrite <- (of_string_unravel a [] Ha), <- (of_string_unravel b [] Hb).
  now rewrite E.
Qed.

Lemma unravel_of_string_16 s :
  length s = 16%nat -> state_array.unravel (state_array.of_string s) = s.
Proof.
  intros Hs. pose proof (unravel_fill 16 s ltac:(lia)) as E.
  rewrite zero_padded_full in E by (rewrite Hs; reflexivity).
  destruct s as [|b s]; [discriminate Hs|].
  rewrite fill_cons, (skipn_all2 (n := 16)), fill_nil in E by lia.
  cbn [flat_map] in E. now rewrite app_nil_r in E.
Qed.

Lemma xor_arr_zero_l a : state_array.xor_arr state_array.zero a = a.
Proof. open_arr a. open_ops. cbn [get4 v0 v1 v2 v3]. reflexivity. Qed.

Section Lengths.
Context `{Layout}.

Lemma Cipher_length M K Nr c :
  valid_rounds Nr -> Cipher M K Nr = Ret c -> length c = length (zero_padded M).
Proof.
  intros HNr. destruct (Schedule_ok K Nr HNr) as [w Hw].
  rewrite (Cipher_blocks _ _ _ _ Hw). intros E. injection E as <-.
  rewrite length_flat_unravel, length_map. now apply length_unravel_fill.
Qed.

(** The tag block: [Cipher] of sixteen zero bytes. *)
Lemma tag_block K Nr e0 :
  valid_rounds Nr ->
  Cipher (state_array.unravel state_array.zero) K Nr = Ret e0 ->
  state_array.unravel
    (state_array.xor_arr state_array.zero (state_array.of_string e0)) = e0.
Proof.
  intros HNr He0. rewrite xor_arr_zero_l. apply unravel_of_string_16.
  now rewrite (Cipher_length _ _ _ _ HNr He0).
Qed.

(** X11. For a round count in 10, 12, 14 every mode returns, and returns
    whole blocks: [Cipher], [InvCipher] and [Ctr] return 16 bytes for each
    started block of 16 bytes of the input, [gcm::Enc] sixteen more. *)
Theorem output_lengths (M : string) (K : vec4 Z) (Nr nonce : Z) :
  valid_rounds Nr ->
  exists c p t g,
    Cipher M K Nr = Ret c /\ InvCipher M K Nr = Ret p /\
    Ctr M K Nr nonce = Ret t /\ gcm.Enc M K Nr nonce = Ret g /\
    length c = (16 * ((length M + 15) / 16))%nat /\
    length p = (16 * ((length M + 15) / 16))%nat /\
    length t = (16 * ((length M + 15) / 16))%nat /\
    length g = (16 * ((length M + 15) / 16) + 16)%nat.
Proof.
  intros HNr. destruct (Schedule_ok K Nr HNr) as [w Hw].
  destruct (Ctr_loop_twice K Nr HNr (state.fill (length M) M) nonce)
    as (ct & Hct & _).
  destruct (GCTR_loop_twice K Nr HNr (state.fill (length M) M)
              (gcm.increment state_array.zero)) as (gt & Hgt & _).
  destruct (Cipher_ok (state_array.unravel state_array.zero) K Nr HNr) as [e0 He0].
  pose proof (length_unravel_fill (length M) M (le_n _)) as L.
  rewrite length_padded_blocks in L.
  do 4 eexists.
  split; [exact (Cipher_blocks _ _ _ _ Hw)|].
  split; [exact (InvCipher_blocks _ _ _ _ Hw)|].
  split; [rewrite Ctr_form, Hct by assumption; reflexivity|].
  split; [rewrite (Enc_form K Nr nonce M e0 HNr He0), Hgt; reflexivity|].
  rewrite length_app, !length_flat_unravel, !length_map, length_unravel.
  rewrite (Ctr_loop_length _ _ _ _ _ Hct), (GCTR_loop_length _ _ _ _ _ Hgt).
  rewrite L. auto.
Qed.

End Lengths.

Lemma output_lengths_witness :
  exists c p t g,
    @Cipher zero_past G_plain G_key 12 = Ret c /\
    @InvCipher zero_past G_plain G_key 12 = Ret p /\
    @Ctr zero_past G_plain G_key 12 7 = Ret t /\
    @gcm.Enc zero_past G_plain G_key 12 7 = Ret g /\
    length c = (16 * ((length G_plain + 15) / 16))%nat /\
    length p = (16 * ((length G_plain + 15) / 16))%nat /\
    length t = (16 * ((length G_plain + 15) / 16))%nat /\
    length g = (16 * ((length G_plain + 15) / 16) + 16)%nat.
Proof.
  apply (@output_lengths zero_past G_plain G_key 12 7).
  right. left. reflexivity.
Defined.

Section Gcm_modes.
Context `{Layout}.

Lemma Dec_Enc (M : string) (K : vec4 Z) (Nr nonce : Z) :
  valid_rounds Nr ->
  (c <- gcm.Enc M K Nr nonce ;; gcm.Dec c K Nr nonce) = Ret (zero_padded M).
Proof.
  intros HNr.
  destruct (Cipher_ok (state_array.unravel state_array.zero) K Nr HNr) as [e0 He0].
  destruct (GCTR_loop_twice K Nr HNr (state.fill (length M) M)
              (gcm.increment state_array.zero)) as (out & H1 & H2 & H3).
  rewrite (Enc_form K Nr nonce M e0 HNr He0), H1. cbn [bind].
  rewrite (Dec_form K Nr nonce out _ e0 HNr He0).
  - rewrite xor_arr_twice.
    change (string_eqb (state_array.unravel state_array.zero)
                       (state_array.unravel state_array.zero)) with true.
    cbv iota. rewrite H2. cbn [bind]. now rewrite unravel_fill.
  - apply H3, fill_wf.
  - apply wf_xor_arr; [apply wf_zero | apply wf_of_string].
Qed.

(** X12. For a round count in 10, 12, 14, [gcm::Dec] of [gcm::Enc] of a
    message, under the same key, round count and nonce, does not throw and
    returns the message padded with zero bytes to a multiple of 16. *)
Theorem gcm_Dec_Enc_roundtrip (M : string) (K : vec4 Z) (Nr nonce : Z) :
  valid_rounds Nr ->
  (c <- gcm.Enc M K Nr nonce ;; gcm.Dec c K Nr nonce) = Ret (zero_padded M).
Proof.
  intros HNr. apply Dec_Enc. exact HNr.
Qed.

(** X13. For a round count in 10, 12, 14, the result of [gcm::Enc] does not
    depend on the nonce, and its last sixteen bytes are [Cipher] of sixteen
    zero bytes under the key, whatever the message. *)
Theorem gcm_Enc_ignores_nonce (M : string) (K : vec4 Z) (Nr n1 n2 : Z) :
  valid_rounds Nr ->
  gcm.Enc M K Nr n1 = gcm.Enc M K Nr n2 /\
  exists C T,
    gcm.Enc M K Nr n1 = Ret (C ++ T) /\
    Cipher (repeat x00 16) K Nr = Ret T /\ length T = 16%nat.
Proof.
  intros HNr.
  destruct (Cipher_ok (state_array.unravel state_array.zero) K Nr HNr) as [e0 He0].
  destruct (GCTR_loop_twice K Nr HNr (state.fill (length M) M)
              (gcm.increment state_array.zero)) as (out & H1 & _).
  rewrite !(Enc_form K Nr _ M e0 HNr He0). split; [reflexivity|].
  exists (flat_map state_array.unravel out), e0.
  rewrite H1. cbn [bind]. rewrite (tag_block K Nr e0 HNr He0).
  split; [reflexivity|]. split; [exact He0|].
  now rewrite (Cipher_length _ _ _ _ HNr He0).
Qed.

(** X14. For a round count in 10, 12, 14, [gcm::Dec] of whole blocks [C]
    followed by sixteen bytes [T'] throws the mismatch error exactly when
    [T'] differs from [Cipher] of sixteen zero bytes under the key; when
    they agree it returns as many bytes as [C] has. The blocks [C] and the
    nonce play no part in the check. *)
Theorem gcm_Dec_checks_constant_tag (C T' T : string) (K : vec4 Z) (Nr nonce : Z) :
  valid_rounds Nr -> (length C mod 16 = 0)%nat -> length T' = 16%nat ->
  Cipher (repeat x00 16) K Nr = Ret T ->
  (T' <> T -> gcm.Dec (C ++ T') K Nr nonce = Throw MessageMismatch) /\
  (T' = T -> exists P, gcm.Dec (C ++ T') K Nr nonce = Ret P /\ length P = length C).
Proof.
  intros HNr HC HT' HT.
  change (repeat x00 16) with (state_array.unravel state_array.zero) in HT.
  set (body := state.fill (length C) C).
  set (t := state_array.of_string T').
  assert (Hbody : flat_map state_array.unravel body = C) by now apply fill_whole.
  assert (Ht : state_array.unravel t = T') by now apply unravel_of_string_16.
  assert (Wt : wf t) by apply wf_of_string.
  assert (Wb : Forall wf body) by apply fill_wf.
  pose proof (Dec_form K Nr nonce body t T HNr HT Wb Wt) as E.
  rewrite Hbody, Ht in E. rewrite E. clear E.
  pose proof (tag_block K Nr T HNr HT) as HTag.
  set (pad := state_array.of_string T) in *.
  assert (Wp : wf pad) by apply wf_of_string.
  destruct (string_eqb _ _) eqn:Eq.
  - apply string_eqb_eq in Eq.
    apply unravel_inj in Eq; [|apply wf_xor_arr; assumption | apply wf_zero].
    assert (Et : T' = T).
    { rewrite <- Ht, <- HTag. f_equal.
      rewrite <- (xor_arr_twice t pad), Eq. reflexivity. }
    split; [intros Hne; contradiction|]. intros _.
    destruct (GCTR_loop_twice K Nr HNr body (gcm.increment state_array.zero))
      as (out & H1 & _).
    exists (flat_map state_array.unravel out). rewrite H1. split; [reflexivity|].
    replace (length C) with (length (flat_map state_array.unravel body))
      by (rewrite Hbody; reflexivity).
    rewrite !length_flat_unravel.
    now rewrite (GCTR_loop_length _ _ _ _ _ H1).
  - split; [reflexivity|]. intros Et. exfalso.
    assert (E2 : t = state_array.xor_arr state_array.zero pad).
    { apply unravel_inj; [assumption | apply wf_xor_arr; [apply wf_zero | assumption] |].
      rewrite Ht, HTag. exact Et. }
    rewrite E2, xor_arr_twice in Eq.
    change (string_eqb (state_array.unravel state_array.zero)
                       (state_array.unravel state_array.zero)) with true in Eq.
    discriminate Eq.
Qed.

End Gcm_modes.

Lemma gcm_Dec_Enc_roundtrip_witness :
  (c <- @gcm.Enc zero_past G_plain G_key 14 42 ;; @gcm.Dec zero_past c G_key 14 42)
  = Ret (zero_padded G_plain).
Proof.
  apply (@gcm_Dec_Enc_roundtrip zero_past G_plain G_key 14 42).
  right. right. reflexivity.
Defined.

Lemma gcm_Enc_ignores_nonce_witness :
  @gcm.Enc zero_past G_plain G_key 14 42 = @gcm.Enc zero_past G_plain G_key 14 43.
Proof.
  apply (@gcm_Enc_ignores_nonce zero_past G_plain G_key 14 42 43).
  right. right. reflexivity.
Defined.

Lemma gcm_Dec_checks_constant_tag_witness :
  (S1_plain <> G_tag ->
   @gcm.Dec zero_past (G_cipher ++ S1_plain) G_key 14 42 = Throw MessageMismatch) /\
  (S1_plain = G_tag ->
   exists P, @gcm.Dec zero_past (G_cipher ++ S1_plain) G_key 14 42 = Ret P /\
             length P = length G_cipher).
Proof.
  apply (@gcm_Dec_checks_constant_tag zero_past G_cipher S1_plain G_tag G_key 14 42).
  - right. right. reflexivity.
  - reflexivity.
  - reflexivity.
  - vm_compute. reflexivity.
Defined.

(** ** The key schedule *)

Lemma zrange_bounds lo hi z : In z (zrange lo hi) -> lo <= z < hi.
Proof.
  unfold zrange. intros Hin. apply in_map_iff in Hin.
  destruct Hin as (n & <- & Hn). apply in_seq in Hn. lia.
Qed.

Lemma store_length w : forall i v, length (key.store w i v) = length w.
Proof.
  induction w as [|x w IH]; intros [|i] v; cbn [key.store length]; auto.
Qed.

Lemma nth_store_other w : forall i j v,
  i <> j -> nth j (key.store w i v) 0 = nth j w 0.
Proof.
  induction w as [|x w IH]; intros [|i] [|j] v Hij; cbn [key.store nth];
    try reflexivity; try contradiction.
  apply IH. congruence.
Qed.

Lemma nth_store_same w : forall i v,
  (i < length w)%nat -> nth i (key.store w i v) 0 = v.
Proof.
  induction w as [|x w IH]; intros [|i] v Hi; cbn [key.store nth length] in *;
    try lia; try reflexivity.
  apply IH. lia.
Qed.

Section Stores.
Variable g : list Z -> Z -> Z.

Lemma fold_store_length l : forall w,
  length (fold_left (fun w i => key.store w (Z.to_nat i) (g w i)) l w) = length w.
Proof.
  induction l as [|i l IH]; intros w; [reflexivity|].
  rewrite fold_left_cons, IH. apply store_length.
Qed.

Lemma fold_store_other l : forall w j,
  (forall i, In i l -> Z.to_nat i <> j) ->
  nth j (fold_left (fun w i => key.store w (Z.to_nat i) (g w i)) l w) 0 = nth j w 0.
Proof.
  induction l as [|i l IH]; intros w j Hj; [reflexivity|].
  rewrite fold_left_cons, IH by (intros i' Hi'; apply Hj; now right).
  apply nth_store_other, Hj. now left.
Qed.

End Stores.

Lemma fold_store_same (h : Z -> Z) l : forall w i,
  (forall x, In x l -> 0 <= x) -> In i l -> (Z.to_nat i < length w)%nat ->
  nth (Z.to_nat i)
      (fold_left (fun w x => key.store w (Z.to_nat x) (h x)) l w) 0 = h i.
Proof.
  induction l as [|x l IH]; intros w i Hpos Hin Hlen; [contradiction|].
  rewrite fold_left_cons.
  destruct (in_dec Z.eq_dec i l) as [Hl|Hl].
  - apply IH; [intros y Hy; apply Hpos; now right | assumption |].
    now rewrite store_length.
  - destruct Hin as [->|Hin]; [|contradiction].
    rewrite (fold_store_other (fun _ x => h x)).
    + now apply nth_store_same.
    + intros y Hy E.
      assert (0 <= y) by (apply Hpos; now right).
      assert (0 <= i) by (apply Hpos; now left).
      apply Hl. replace i with y by lia. exact Hy.
Qed.

(** X15. The schedule [Expansion] builds for [Nk] in 4, 6, 8 has
    [4 * Nr + 4] words, [Nr = Nk + 6]; its first [Nk] words are the low and
    the high halves of the first [Nk / 2] key words, in that order; and its
    last word, [W[4 * Nr + 3]], is never written and stays zero. *)
Theorem Expansion_layout `{Layout} (k : vec4 Z) (Nk : Z) :
  Nk = 4 \/ Nk = 6 \/ Nk = 8 ->
  length (key.Expansion k Nk) = Z.to_nat (4 * (Nk + 6) + 4) /\
  (forall j, 0 <= j < Nk / 2 ->
     key.word_at (key.Expansion k Nk) (2 * j) = Z.land (get4 k j) 0xffffffff /\
     key.word_at (key.Expansion k Nk) (2 * j + 1)
     = Z.land (Z.shiftr (get4 k j) 32) 0xffffffff) /\
  key.word_at (key.Expansion k Nk) (4 * (Nk + 6) + 3) = 0.
Proof.
  intros HNk. unfold key.Expansion.
  set (words := flat_map _ (list4 k)).
  assert (ENr : (if Nk =? 4 then 10 else if Nk =? 6 then 12 else 14) = Nk + 6)
    by (destruct HNk as [-> | [-> | ->]]; reflexivity).
  rewrite ENr. clear ENr.
  set (n := 4 * (Nk + 6) + 4).
  pose (g := fun (w : list Z) (i : Z) =>
              Z.lxor (key.word_at w (i - Nk))
                (let temp := key.word_at w (i - 1) in
                 if i mod Nk =? 0
                 then Z.lxor (key.SubWord (key.RotWord temp)) (key.Rcon_at (i / Nk))
                 else if (Nk >? 6) && (i mod Nk =? 4) then key.SubWord temp
                 else temp)).
  change (key.Expansion_step Nk)
    with (fun w i => key.store w (Z.to_nat i) (g w i)).
  assert (Hfirst : forall i, 0 <= i < Nk ->
            key.word_at
              (fold_left (fun w i => key.store w (Z.to_nat i) (g w i))
                 (zrange Nk (4 * (Nk + 6) + 3))
                 (fold_left (fun w i => key.store w (Z.to_nat i) (key.word_at words i))
                    (zrange 0 Nk) (repeat 0 (Z.to_nat n)))) i
            = key.word_at words i).
  { intros i Hi. unfold key.word_at at 1.
    rewrite (fold_store_other g)
      by (intros x Hx; apply zrange_bounds in Hx; lia).
    apply (fold_store_same (fun i => key.word_at words i)).
    - intros x Hx. apply zrange_bounds in Hx. lia.
    - apply zrange_In. exact Hi.
    - rewrite repeat_length. unfold n. lia. }
  split; [|split].
  - rewrite (fold_store_length g), (fold_store_length (fun _ i => key.word_at words i)).
    apply repeat_length.
  - intros j Hj.
    assert (Hj4 : j = 0 \/ j = 1 \/ j = 2 \/ j = 3)
      by (destruct HNk as [-> | [-> | ->]];
          [change (4 / 2) with 2 in Hj | change (6 / 2) with 3 in Hj
           | change (8 / 2) with 4 in Hj]; lia).
    assert (Hdiv : 2 * j + 1 < Nk)
      by (destruct HNk as [-> | [-> | ->]];
          [change (4 / 2) with 2 in Hj | change (6 / 2) with 3 in Hj
           | change (8 / 2) with 4 in Hj]; lia).
    rewrite !Hfirst by lia.
    unfold words, key.word_at, u32.
    destruct k as [k0 k1 k2 k3].
    cbn [list4 flat_map app v0 v1 v2 v3].
    rewrite <- !Z.land_assoc, !Z.land_diag.
    destruct Hj4 as [-> | [-> | [-> | ->]]]; split; reflexivity.
  - unfold key.word_at.
    rewrite (fold_store_other g)
      by (intros x Hx; apply zrange_bounds in Hx; unfold n; lia).
    rewrite (fold_store_other (fun _ i => key.word_at words i))
      by (intros x Hx; apply zrange_bounds in Hx; lia).
    apply nth_repeat.
Qed.

Lemma Expansion_layout_witness :
  length (@key.Expansion zero_past S1_key 4) = 44%nat /\
  @key.word_at (@key.Expansion zero_past S1_key 4) 43 = 0.
Proof.
  destruct (@Expansion_layout zero_past S1_key 4) as (L & _ & Z0).
  - left. reflexivity.
  - split; [exact L | exact Z0].
Defined.

Lemma fold_left_ext_in {A B : Type} (f g : A -> B -> A) l :
  (forall a b, In b l -> f a b = g a b) ->
  forall a, fold_left f l a = fold_left g l a.
Proof.
  induction l as [|b l IH]; intros E a; [reflexivity|].
  rewrite !fold_left_cons, (E a b) by now left.
  apply IH. intros a' b' Hb'. apply E. now right.
Qed.

Section Key_words.
Context `{Layout}.

Lemma Expansion_leading_words k k' Nk :
  Nk = 4 \/ Nk = 6 \/ Nk = 8 ->
  (forall j, 0 <= j < Nk / 2 -> get4 k j = get4 k' j) ->
  key.Expansion k Nk = key.Expansion k' Nk.
Proof.
  intros HNk Hk. unfold key.Expansion. f_equal.
  apply fold_left_ext_in. intros w i Hi. apply zrange_bounds in Hi. f_equal.
  destruct k as [k0 k1 k2 k3], k' as [k0' k1' k2' k3'].
  unfold key.word_at. cbn [list4 flat_map app v0 v1 v2 v3].
  destruct HNk as [-> | [-> | ->]].
  - pose proof (Hk 0 ltac:(split; [lia | reflexivity])) as E0.
    pose proof (Hk 1 ltac:(split; [lia | reflexivity])) as E1.
    cbn [get4 v0 v1 v2 v3] in E0, E1. subst k0' k1'.
    assert (Hc : i = 0 \/ i = 1 \/ i = 2 \/ i = 3) by lia.
    destruct Hc as [-> | [-> | [-> | ->]]]; reflexivity.
  - pose proof (Hk 0 ltac:(split; [lia | reflexivity])) as E0.
    pose proof (Hk 1 ltac:(split; [lia | reflexivity])) as E1.
    pose proof (Hk 2 ltac:(split; [lia | reflexivity])) as E2.
    cbn [get4 v0 v1 v2 v3] in E0, E1, E2. subst k0' k1' k2'.
    assert (Hc : i = 0 \/ i = 1 \/ i = 2 \/ i = 3 \/ i = 4 \/ i = 5) by lia.
    destruct Hc as [-> | [-> | [-> | [-> | [-> | ->]]]]]; reflexivity.
  - pose proof (Hk 0 ltac:(split; [lia | reflexivity])) as E0.
    pose proof (Hk 1 ltac:(split; [lia | reflexivity])) as E1.
    pose proof (Hk 2 ltac:(split; [lia | reflexivity])) as E2.
    pose proof (Hk 3 ltac:(split; [lia | reflexivity])) as E3.
    cbn [get4 v0 v1 v2 v3] in E0, E1, E2, E3. subst k0' k1' k2' k3'.
    reflexivity.
Qed.

Lemma Schedule_leading_words k k' Nr :
  valid_rounds Nr ->
  (forall j, 0 <= j < (Nr - 6) / 2 -> get4 k j = get4 k' j) ->
  state.Schedule k Nr = state.Schedule k' Nr.
Proof.
  intros HNr Hk. unfold state.Schedule.
  destruct HNr as [-> | [-> | ->]]; cbn [Z.eqb Pos.eqb]; f_equal;
    apply Expansion_leading_words; auto.
Qed.

Lemma Ctr_loop_same_Cipher k k' Nr :
  (forall s, Cipher s k Nr = Cipher s k' Nr) ->
  forall arrs nonce, Ctr_loop arrs k Nr nonce = Ctr_loop arrs k' Nr nonce.
Proof.
  intros E. induction arrs as [|a rest IH]; intros nonce; [reflexivity|].
  cbn [Ctr_loop]. now rewrite E, IH.
Qed.

(** X16. For a round count in 10, 12, 14 the ciphers read only the first
    [(Nr - 6) / 2] of the four 64-bit key words: two keys that agree on
    them give the same [Cipher], [InvCipher] and [Ctr]. *)
Theorem modes_read_leading_key_words (M : string) (k k' : vec4 Z) (Nr nonce : Z) :
  valid_rounds Nr ->
  (forall j, 0 <= j < (Nr - 6) / 2 -> get4 k j = get4 k' j) ->
  Cipher M k Nr = Cipher M k' Nr /\
  InvCipher M k Nr = InvCipher M k' Nr /\
  Ctr M k Nr nonce = Ctr M k' Nr nonce.
Proof.
  intros HNr Hk.
  pose proof (Schedule_leading_words k k' Nr HNr Hk) as ES.
  destruct (Schedule_ok k Nr HNr) as [w Hw].
  assert (Hw' : state.Schedule k' Nr = Ret w) by (rewrite <- ES; exact Hw).
  assert (EC : forall s, Cipher s k Nr = Cipher s k' Nr).
  { intros s. now rewrite (Cipher_blocks _ _ _ _ Hw), (Cipher_blocks _ _ _ _ Hw'). }
  split; [apply EC|]. split.
  - now rewrite (InvCipher_blocks _ _ _ _ Hw), (InvCipher_blocks _ _ _ _ Hw').
  - rewrite !Ctr_form by assumption.
    now rewrite (Ctr_loop_same_Cipher k k' Nr EC).
Qed.

End Key_words.

Lemma modes_read_leading_key_words_witness :
  @Cipher zero_past S1_plain (V4 1 2 3 4) 10 = @Cipher zero_past S1_plain (V4 1 2 5 6) 10.
Proof.
  destruct (@modes_read_leading_key_words zero_past S1_plain (V4 1 2 3 4) (V4 1 2 5 6) 10 0)
    as (W & _).
  - left. reflexivity.
  - intros j Hj. change ((10 - 6) / 2) with 2 in Hj.
    assert (Hc : j = 0 \/ j = 1) by lia.
    destruct Hc as [-> | ->]; reflexivity.
  - exact W.
Defined.

(** ** The counter of Galois/counter mode *)

Lemma land_shiftl_small a b n :
  0 <= n -> 0 <= b < 2 ^ n -> Z.land (Z.shiftl a n) b = 0.
Proof.
  intros Hn Hb. apply Z.bits_inj'. intros i Hi.
  rewrite Z.land_spec, Z.bits_0.
  destruct (Z.lt_ge_cases i n) as [Hlt|Hge].
  - now rewrite Z.shiftl_spec_low.
  - rewrite <- (Z.mod_small b (2 ^ n)) by lia.
    rewrite Z.mod_pow2_bits_high by lia. apply andb_false_r.
Qed.

Lemma lor_shiftl_add a b n :
  0 <= n -> 0 <= b < 2 ^ n -> Z.lor (Z.shiftl a n) b = a * 2 ^ n + b.
Proof.
  intros Hn Hb. pose proof (Z.add_lor_land (Z.shiftl a n) b) as E.
  rewrite land_shiftl_small in E by assumption.
  rewrite <- (Z.shiftl_mul_pow2 a n) by assumption. lia.
Qed.

Lemma lor_3shifts a b c d :
  is_u8 a -> is_u8 b -> is_u8 c -> is_u8 d ->
  Z.lor (Z.lor (Z.lor (Z.shiftl a 24) (Z.shiftl b 16)) (Z.shiftl c 8)) d
  = a * 2 ^ 24 + b * 2 ^ 16 + c * 2 ^ 8 + d.
Proof.
  unfold is_u8. intros Ha Hb Hc Hd.
  replace (Z.shiftl a 24) with (Z.shiftl (Z.shiftl a 8) 16)
    by (rewrite Z.shiftl_shiftl by lia; reflexivity).
  rewrite <- Z.shiftl_lor.
  replace (Z.shiftl (Z.lor (Z.shiftl a 8) b) 16)
    with (Z.shiftl (Z.shiftl (Z.lor (Z.shiftl a 8) b) 8) 8)
    by (rewrite Z.shiftl_shiftl by lia; reflexivity).
  rewrite <- Z.shiftl_lor.
  rewrite (lor_shiftl_add a b 8) by lia.
  rewrite (lor_shiftl_add _ c 8) by lia.
  rewrite (lor_shiftl_add _ d 8) by lia.
  lia.
Qed.

Lemma byte_of_shift L n : 0 <= n -> Z.land (Z.shiftr L n) 255 = (L / 2 ^ n) mod 256.
Proof.
  intros Hn. rewrite Z.shiftr_div_pow2 by assumption.
  change 255 with (Z.ones 8). now rewrite Z.land_ones.
Qed.

(** X17. [gcm::increment] on a block of bytes adds one, modulo 2^32, to the
    number held in the last four bytes ([array[3][0]] the most significant)
    and leaves the first twelve bytes as they are; the result is a block of
    bytes. *)
Theorem gcm_increment_counter (X : state_array.t) :
  wf X ->
  counter32 (gcm.increment X) = (counter32 X + 1) mod 2 ^ 32 /\
  wf (gcm.increment X) /\
  (forall i j, 0 <= i < 3 -> 0 <= j < 4 ->
     state_array.cell (gcm.increment X) i j = state_array.cell X i j).
Proof.
  open_arr X. intros HX. open_wf.
  unfold gcm.increment, counter32, state_array.put, state_array.cell.
  cbn [fold_left fst get4 set4 v0 v1 v2 v3].
  rewrite lor_3shifts by assumption.
  set (n := x11 * 2 ^ 24 + x12 * 2 ^ 16 + x13 * 2 ^ 8 + x14).
  assert (Hn : 0 <= n < 2 ^ 32) by (unfold n, is_u8 in *; lia).
  assert (E1 : u32 n = n)
    by (unfold u32; change 0xffffffff with (Z.ones 32);
        rewrite Z.land_ones by lia; apply Z.mod_small; exact Hn).
  rewrite E1.
  assert (E2 : u32 (n + 1) = (n + 1) mod 2 ^ 32)
    by (unfold u32; change 0xffffffff with (Z.ones 32);
        apply Z.land_ones; lia).
  rewrite E2.
  set (L := (n + 1) mod 2 ^ 32).
  assert (HL : 0 <= L < 2 ^ 32) by (apply Z.mod_pos_bound; lia).
  rewrite !Z.shiftr_shiftr by lia. cbn [Z.add Pos.add Pos.succ].
  rewrite !byte_of_shift by lia.
  replace (Z.land L 255) with (L mod 256)
    by (change 255 with (Z.ones 8); rewrite Z.land_ones by lia; reflexivity).
  split; [|split].
  - clearbody L. clear -HL. Z.div_mod_to_equations. lia.
  - split_wf; try assumption; unfold is_u8; apply Z.mod_pos_bound; lia.
  - intros i j Hi Hj.
    assert (Hc : i = 0 \/ i = 1 \/ i = 2) by lia.
    destruct Hc as [-> | [-> | ->]]; reflexivity.
Qed.

Lemma gcm_increment_counter_witness :
  counter32 (gcm.increment (state_array.of_string G_tag))
  = (counter32 (state_array.of_string G_tag) + 1) mod 2 ^ 32.
Proof.
  destruct (gcm_increment_counter (state_array.of_string G_tag)) as (W & _).
  - apply wf_of_string.
  - exact W.
Defined.

(** ** Primes and modular powers *)

Lemma is_true_iff n :
  n <> 1 ->
  (prime.is_ n = true <->
   forall x, 2 <= x <= Z.sqrt n + 1 -> n mod x <> 0).
Proof.
  intros Hn. unfold prime.is_.
  destruct (Z.eqb_spec n 1) as [E|_]; [contradiction|].
  rewrite negb_true_iff. split.
  - intros Hex x Hx Hmod.
    assert (Ht : existsb (fun x => n mod x =? 0) (zrange 2 (Z.sqrt n + 1 + 1)) = true).
    { apply existsb_exists. exists x. split; [apply zrange_In; lia|].
      now apply Z.eqb_eq. }
    congruence.
  - intros Hall.
    destruct (existsb _ _) eqn:Hex; [|reflexivity].
    apply existsb_exists in Hex. destruct Hex as (x & Hx & Hmod).
    apply zrange_bounds in Hx. apply Z.eqb_eq in Hmod.
    exfalso. apply (Hall x); [lia | exact Hmod].
Qed.

Lemma is_prime n : 3 <= n -> (prime.is_ n = true <-> Z.prime n).
Proof.
  intros Hn. rewrite is_true_iff by lia. unfold Z.prime. split.
  - intros Hall. split; [lia|]. intros d Hd [e He].
    assert (He1 : 1 < e) by nia.
    destruct (Z.le_ge_cases d e) as [Hle|Hle].
    + apply (Hall d).
      * assert (d <= Z.sqrt n) by (apply Z.sqrt_le_square; nia). lia.
      * apply Z.mod_divide; [lia | now exists e].
    + apply (Hall e).
      * assert (e <= Z.sqrt n) by (apply Z.sqrt_le_square; nia). lia.
      * apply Z.mod_divide; [lia | exists d; lia].
  - intros [_ Hp] x Hx Hmod.
    assert (Hs : Z.sqrt n < n - 1) by (apply Z.sqrt_lt_square; nia).
    apply (Hp x); [lia|]. apply Z.mod_divide; [lia | exact Hmod].
Qed.

(** X18. [prime::is] answers whether a number from 3 up is prime (its root
    is exact below 2^33); it also rejects the prime 2, and it accepts 0. *)
Theorem prime_is_decides_from_3 (n : Z) :
  3 <= n < 2 ^ 33 ->
  (prime.is_ n = true <-> Z.prime n) /\
  prime.is_ 2 = false /\ prime.is_ 0 = true.
Proof.
  intros Hn. split; [apply is_prime; lia|].
  split; vm_compute; reflexivity.
Qed.

Lemma prime_is_decides_from_3_witness :
  prime.is_ 2027 = true <-> Z.prime 2027.
Proof.
  destruct (prime_is_decides_from_3 2027) as (W & _).
  - lia.
  - exact W.
Defined.

Lemma raise_loop_pow turns : forall ret value exp m,
  1 < m <= 2 ^ 32 -> 0 <= ret < m -> 0 <= value < m ->
  0 <= exp < 2 ^ Z.of_nat turns ->
  prime.raise_loop turns ret value exp m = (ret * value ^ exp) mod m.
Proof.
  induction turns as [|turns IH]; intros ret value exp m Hm Hr Hv He.
  - cbn [prime.raise_loop]. change (2 ^ Z.of_nat 0) with 1 in He.
    replace exp with 0 by lia. rewrite Z.pow_0_r, Z.mul_1_r.
    symmetry. apply Z.mod_small. exact Hr.
  - cbn [prime.raise_loop].
    destruct (Z.gtb_spec exp 0) as [Hpos|Hz].
    + assert (Hbit : Z.land exp 1 = exp mod 2)
        by (change 1 with (Z.ones 1); rewrite Z.land_ones by lia; reflexivity).
      assert (Hhalf : Z.shiftr exp 1 = exp / 2)
        by (rewrite Z.shiftr_div_pow2 by lia; reflexivity).
      assert (Hsq : u64 (value * value) = value * value)
        by (apply u64_small; nia).
      assert (Hrv : u64 (ret * value) = ret * value)
        by (apply u64_small; nia).
      rewrite Hbit, Hhalf, Hsq, Hrv.
      assert (Hexp : exp = 2 * (exp / 2) + exp mod 2) by (apply Z.div_mod; lia).
      assert (Hhalf_range : 0 <= exp / 2 < 2 ^ Z.of_nat turns).
      { rewrite Nat2Z.inj_succ, Z.pow_succ_r in He by lia.
        split; [apply Z.div_pos; lia | apply Z.div_lt_upper_bound; lia]. }
      assert (Hpow : value ^ exp = (value * value) ^ (exp / 2) * value ^ (exp mod 2)).
      { rewrite Hexp at 1. rewrite Z.pow_add_r, Z.pow_mul_r by (try apply Z.mod_pos_bound; lia).
        change (value ^ 2) with (value * (value * 1)). now rewrite Z.mul_1_r. }
      rewrite IH; try assumption.
      * rewrite Hpow.
        rewrite <- Z.mul_mod_idemp_r by lia.
        rewrite Z.mod_pow_l.
        rewrite Z.mul_mod_idemp_r by lia.
        pose proof (Z.mod_pos_bound exp 2 ltac:(lia)) as Hb.
        destruct (Z.eqb_spec (exp mod 2) 0) as [E0|E1]; cbn [negb].
        -- rewrite E0, Z.pow_0_r, Z.mul_1_r. reflexivity.
        -- replace (exp mod 2) with 1 by lia. rewrite Z.pow_1_r.
           rewrite Z.mul_mod_idemp_l by lia. f_equal. ring.
      * destruct (negb (exp mod 2 =? 0)); [apply Z.mod_pos_bound; lia | assumption].
      * apply Z.mod_pos_bound. lia.
    + replace exp with 0 by lia. rewrite Z.pow_0_r, Z.mul_1_r.
      symmetry. apply Z.mod_small. exact Hr.
Qed.

Lemma raise_pow value exp m :
  1 < m <= 2 ^ 32 -> 0 <= exp < 2 ^ 64 ->
  prime.raise value exp m = value ^ exp mod m.
Proof.
  intros Hm He. unfold prime.raise.
  rewrite raise_loop_pow;
    try assumption; try lia; try (apply Z.mod_pos_bound; lia).
  rewrite Z.mul_1_l. apply Z.mod_pow_l.
Qed.

(** X19. For a modulus from 2 up to 2^32 and a 64-bit exponent,
    [prime::raise] returns the power [value ^ exp] reduced modulo the
    modulus: no product it forms leaves 64 bits. *)
Theorem raise_is_modular_power (value exp modulus : Z) :
  1 < modulus <= 2 ^ 32 -> 0 <= exp < 2 ^ 64 ->
  prime.raise value exp modulus = value ^ exp mod modulus.
Proof. apply raise_pow. Qed.

Lemma raise_is_modular_power_witness :
  prime.raise 3 1000003 2027 = 3 ^ 1000003 mod 2027.
Proof.
  apply (raise_is_modular_power 3 1000003 2027); lia.
Defined.

Lemma u32_mod z : u32 z = z mod 2 ^ 32.
Proof. unfold u32. change 0xffffffff with (Z.ones 32). apply Z.land_ones. lia. Qed.

Lemma next_loop_found turns : forall num q,
  prime.next_loop turns 32 num = Some q ->
  0 <= num < 2 ^ 32 -> num mod 2 = 1 ->
  prime.is_ q = true /\ 0 <= q < 2 ^ 32 /\ q mod 2 = 1.
Proof.
  induction turns as [|turns IH]; intros num q; cbn [prime.next_loop]; [discriminate|].
  destruct (prime.is_ num) eqn:Hp; cbn [negb].
  - intros E Hr Ho. injection E as <-. auto.
  - intros E Hr Ho. apply (IH _ _ E).
    + rewrite Z.land_ones by lia. apply Z.mod_pos_bound. lia.
    + rewrite Z.land_ones by lia. clear -Ho. Z.div_mod_to_equations. lia.
Qed.

Lemma next_found turns r q :
  prime.next turns 32 (u32 r) = Some q ->
  prime.is_ q = true /\ 0 <= q < 2 ^ 32 /\ q mod 2 = 1.
Proof.
  unfold prime.next. rewrite u32_mod.
  pose proof (Z.mod_pos_bound r (2 ^ 32) ltac:(lia)) as Hr.
  set (n := r mod 2 ^ 32) in *. clearbody n.
  pose proof (Z.mod_pos_bound n 2 ltac:(lia)) as Hb.
  destruct (Z.eqb_spec (n mod 2) 0) as [He|Ho]; intros E; apply (next_loop_found _ _ _ E).
  - rewrite Z.land_ones by lia. apply Z.mod_pos_bound. lia.
  - rewrite Z.land_ones by lia. clear -He Hr. Z.div_mod_to_equations. lia.
  - exact Hr.
  - lia.
Qed.

Lemma generate_found turns : forall draws p q,
  prime.generate turns draws = Some (p, q) ->
  Z.prime q /\ Z.prime p /\ p = 2 * q + 1 /\ 3 <= q < 2 ^ 32.
Proof.
  induction draws as [|r draws IH]; intros p q; cbn [prime.generate]; [discriminate|].
  destruct (prime.next turns 32 (u32 r)) as [q0|] eqn:Hq; [|discriminate].
  destruct (next_found _ _ _ Hq) as (Hi & Hr & Ho).
  assert (Hp : u64 (q0 * 2 + 1) = q0 * 2 + 1) by (apply u64_small; lia).
  rewrite Hp.
  destruct (prime.is_ (q0 * 2 + 1)) eqn:Hip; cbn [negb]; [|apply IH].
  intros E. injection E as <- <-.
  assert (H3 : 3 <= q0).
  { destruct (Z.eq_dec q0 1) as [->|]; [discriminate Hi|].
    clear -Ho Hr n. Z.div_mod_to_equations. lia. }
  split; [apply is_prime; assumption|].
  split; [apply is_prime; [lia | assumption]|].
  lia.
Qed.

(** X20. Whenever [prime::generate] returns a pair [(p, q)], both are
    prime, [p = 2q + 1], and [q] is between 3 and 2^32: the pair is a safe
    prime with its Sophie Germain prime, whatever [std::rand()] drew. *)
Theorem generate_safe_prime (turns : nat) (draws : list Z) (p q : Z) :
  prime.generate turns draws = Some (p, q) ->
  Z.prime q /\ Z.prime p /\ p = 2 * q + 1 /\ 3 <= q < 2 ^ 32.
Proof. apply generate_found. Qed.

Lemma generate_safe_prime_witness :
  Z.prime 1013 /\ Z.prime 2027 /\ 2027 = 2 * 1013 + 1 /\ 3 <= 1013 < 2 ^ 32.
Proof.
  apply (generate_safe_prime 8 [1012] 2027 1013).
  vm_compute. reflexivity.
Defined.

(** ** The generator and the shared key *)

Lemma raise_loop_S turns ret value exp m :
  prime.raise_loop (S turns) ret value exp m
  = if exp >? 0
    then prime.raise_loop turns
           (if negb (Z.land exp 1 =? 0) then u64 (ret * value) mod m else ret)
           (u64 (value * value) mod m) (Z.shiftr exp 1) m
    else ret.
Proof. reflexivity. Qed.

Lemma raise_square v p :
  0 <= v < 2 ^ 32 -> 0 < p < 2 ^ 64 -> prime.raise v 2 p = (v * v) mod p.
Proof.
  intros Hv [Hp Hp64]. unfold prime.raise.
  pose proof (Z.mod_pos_bound v p Hp) as Hb.
  assert (Hle : v mod p <= v) by (apply Z.mod_le; lia).
  set (w := v mod p) in *.
  do 3 rewrite raise_loop_S.
  change (2 >? 0) with true. change (Z.land 2 1) with 0.
  change (Z.shiftr 2 1) with 1. change (1 >? 0) with true.
  change (Z.land 1 1) with 1. change (Z.shiftr 1 1) with 0.
  change (0 >? 0) with false. cbv iota. cbn [Z.eqb negb].
  rewrite Z.mul_1_l.
  rewrite (u64_small (w * w)) by nia.
  rewrite u64_small by (pose proof (Z.mod_pos_bound (w * w) p Hp); lia).
  rewrite Z.mod_mod by lia. unfold w. now rewrite <- Z.mul_mod by lia.
Qed.

Lemma search_h_three turns p q :
  5 <= p < 2 ^ 64 -> p = 2 * q + 1 ->
  exchange.search_h (S (S turns)) p q 1 = Some 3.
Proof.
  intros Hp Hq.
  assert (E2 : (p - 1) / q = 2)
    by (subst p; replace (2 * q + 1 - 1) with (2 * q) by lia;
        apply Z.div_mul; lia).
  cbn [exchange.search_h]. rewrite E2.
  rewrite (raise_square 1) by lia. rewrite (raise_square (u64 (1 + 1))) by (cbn; lia).
  change (u64 (1 + 1)) with 2. change (u64 (2 + 1)) with 3.
  rewrite !Z.mod_small by lia. reflexivity.
Qed.

Lemma server_generator_nine turns p q :
  5 <= p < 2 ^ 64 -> p = 2 * q + 1 ->
  exchange.server_generator (S (S turns)) p q = Some (9 mod p).
Proof.
  intros Hp Hq. unfold exchange.server_generator.
  rewrite (search_h_three turns p q Hp Hq).
  assert (E2 : (p - 1) / q = 2)
    by (subst p; replace (2 * q + 1 - 1) with (2 * q) by lia;
        apply Z.div_mul; lia).
  rewrite E2, raise_square by lia. reflexivity.
Qed.

(** X21. For every 64-bit [p = 2q + 1] from 5 up the server's search stops with
    [h = 3] and its generator is [9 mod p]: the search never looks at more
    than the two candidates 1 and 2, and passes on the one after them. *)
Theorem server_generator_is_nine (turns : nat) (p q : Z) :
  5 <= p < 2 ^ 64 -> p = 2 * q + 1 ->
  exchange.search_h (S (S turns)) p q 1 = Some 3 /\
  exchange.server_generator (S (S turns)) p q = Some (9 mod p).
Proof.
  intros Hp Hq. split; [now apply search_h_three | now apply server_generator_nine].
Qed.

Lemma server_generator_is_nine_witness :
  exchange.server_generator 2 2027 1013 = Some (9 mod 2027).
Proof.
  apply (server_generator_is_nine 0 2027 1013); lia.
Defined.

Lemma pow_mod_order g p k e :
  1 < p -> g ^ (p - 1) mod p = 1 -> 0 <= k -> 0 <= e ->
  g ^ (k mod (p - 1) * e) mod p = g ^ (k * e) mod p.
Proof.
  intros Hp Hf Hk He.
  pose proof (Z.div_mod k (p - 1) ltac:(lia)) as Hd.
  pose proof (Z.mod_pos_bound k (p - 1) ltac:(lia)) as Hr.
  assert (Ht : 0 <= k / (p - 1)) by (apply Z.div_pos; lia).
  set (r := k mod (p - 1)) in *. set (t := k / (p - 1)) in *.
  replace (k * e) with ((p - 1) * (t * e) + r * e) by (rewrite Hd at 1; ring).
  rewrite Z.pow_add_r by nia. rewrite (Z.pow_mul_r g (p - 1) (t * e)) by nia.
  rewrite <- Z.mul_mod_idemp_l by lia.
  rewrite <- (Z.mod_pow_l (g ^ (p - 1))), Hf.
  rewrite Z.pow_1_l by nia. rewrite Z.mod_1_l, Z.mul_1_l by lia. reflexivity.
Qed.

Lemma intermediary_key p g ka kb :
  Z.prime p -> p <= 2 ^ 32 -> g mod p <> 0 ->
  0 <= ka < 2 ^ 64 -> 0 <= kb < 2 ^ 64 ->
  prime.raise (exchange.compute_intermediary p g ka) kb p = g ^ (ka * kb) mod p.
Proof.
  intros Hp Hle Hg Ha Hb.
  pose proof (Z.prime_ge_2 p Hp) as H2.
  pose proof (ZmodInv.Z.fermat_nz p g Hp Hg) as Hf.
  unfold exchange.compute_intermediary.
  pose proof (Z.mod_pos_bound ka (p - 1) ltac:(lia)) as Hr.
  rewrite (raise_pow g) by lia. rewrite raise_pow by lia.
  rewrite Z.mod_pow_l, <- Z.pow_mul_r by lia.
  apply pow_mod_order; lia.
Qed.

Lemma nine_mod_prime p : Z.prime p -> 7 <= p -> 9 mod p <> 0.
Proof.
  intros [_ Hp] H7 E. apply Z.mod_divide in E; [|lia].
  destruct E as [c Hc].
  assert (Hc1 : c = 1) by nia. subst c.
  apply (Hp 3); [lia|]. exists 3. lia.
Qed.

(** X22. Run against each other, the two sides of [exchange_keys] end with
    the same key. When the server's [prime::generate] returns [(p, q)] with
    [p] at most 2^32, every [send_value] succeeds and each side receives what
    the other sent, the server sends [p], the generator [g = 9 mod p] and its
    intermediary, the client sends its intermediary, and both return
    [g ^ (ks * kc) mod p] for their private keys [ks] and [kc]. *)
Theorem exchange_keys_agree (turns : nat) (ks kc : Z) (draws : list Z)
        (code_s code_c : nat -> Z) (p q : Z) :
  prime.generate (S (S turns)) draws = Some (p, q) -> p <= 2 ^ 32 ->
  0 <= ks < 2 ^ 64 -> 0 <= kc < 2 ^ 64 ->
  (forall n, code_s n <> -1) -> (forall n, code_c n <> -1) ->
  exists g A B,
    g = 9 mod p /\
    (forall recv, recv 0%nat = B ->
       exchange_keys (S (S turns)) true ks draws code_s recv
       = Some ([p; g; A], Shared (g ^ (ks * kc) mod p))) /\
    (forall recv, recv 0%nat = p -> recv 1%nat = g -> recv 2%nat = A ->
       exchange_keys (S (S turns)) false kc [] code_c recv
       = Some ([B], Shared (g ^ (ks * kc) mod p))).
Proof.
  intros Hgen Hle Hks Hkc Hcs Hcc.
  destruct (generate_found _ _ _ _ Hgen) as (Hq & Hp & Epq & Hq3).
  assert (Hg : (9 mod p) mod p <> 0)
    by (rewrite Z.mod_mod by lia; apply nine_mod_prime; [assumption | lia]).
  exists (9 mod p), (exchange.compute_intermediary p (9 mod p) ks),
         (exchange.compute_intermediary p (9 mod p) kc).
  split; [reflexivity|]. split.
  - intros recv Hr. unfold exchange_keys.
    rewrite Hgen, (server_generator_nine turns p q) by lia.
    destruct (Z.eqb_spec (code_s 0%nat) (-1)) as [E|_]; [now apply Hcs in E|].
    destruct (Z.eqb_spec (code_s 1%nat) (-1)) as [E|_]; [now apply Hcs in E|].
    destruct (Z.eqb_spec (code_s 2%nat) (-1)) as [E|_]; [now apply Hcs in E|].
    rewrite Hr, intermediary_key by assumption.
    now rewrite (Z.mul_comm kc ks).
  - intros recv H0 H1 H2. unfold exchange_keys.
    destruct (Z.eqb_spec (code_c 0%nat) (-1)) as [E|_]; [now apply Hcc in E|].
    rewrite H0, H1, H2, intermediary_key by assumption. reflexivity.
Qed.

Lemma exchange_keys_agree_witness :
  exists g A B,
    g = 9 mod 2027 /\
    (forall recv, recv 0%nat = B ->
       exchange_keys 8 true 5 [1012] (fun _ => 1028) recv
       = Some ([2027; g; A], Shared (g ^ (5 * 11) mod 2027))) /\
    (forall recv, recv 0%nat = 2027 -> recv 1%nat = g -> recv 2%nat = A ->
       exchange_keys 8 false 11 [] (fun _ => 1028) recv
       = Some ([B], Shared (g ^ (5 * 11) mod 2027))).
Proof.
  apply (exchange_keys_agree 6 5 11 [1012] (fun _ => 1028) (fun _ => 1028) 2027 1013).
  - vm_compute. reflexivity.
  - lia.
  - lia.
  - lia.
  - intros _. lia.
  - intros _. lia.
Defined.

(** ** The key handed to HMAC *)

Lemma word_loop_agree (l : list Z) : forall acc a b,
  (forall i, 0 <= i < Z.of_nat (length l) + 3 -> Z.testbit a i = Z.testbit b i) ->
  fst (fold_left
         (fun (st : string * Z) (_ : Z) =>
            let (key_bytes, num) := st in
            (key_bytes ++ [char (Z.land num 0xf)], Z.shiftr num 1))
         l (acc, a))
  = fst (fold_left
           (fun (st : string * Z) (_ : Z) =>
              let (key_bytes, num) := st in
              (key_bytes ++ [char (Z.land num 0xf)], Z.shiftr num 1))
           l (acc, b)).
Proof.
  induction l as [|x l IH]; intros acc a b Hab; [reflexivity|].
  rewrite !fold_left_cons. cbn [length] in Hab.
  assert (E : Z.land a 0xf = Z.land b 0xf).
  { apply Z.bits_inj'. intros i Hi. rewrite !Z.land_spec.
    destruct (Z.lt_ge_cases i 4) as [Hlt|Hge].
    - rewrite Hab by lia. reflexivity.
    - change 0xf with (Z.ones 4). rewrite Z.ones_spec_high by lia.
      now rewrite !andb_false_r. }
  rewrite E. apply IH. intros i Hi.
  rewrite !Z.shiftr_spec by lia. apply Hab. lia.
Qed.

Lemma word_bytes_low a b :
  Z.land a 0x7ff = Z.land b 0x7ff -> hmac.word_bytes a = hmac.word_bytes b.
Proof.
  intros E. unfold hmac.word_bytes. apply word_loop_agree.
  intros i Hi. change (Z.of_nat (length (zrange 0 8)) + 3) with 11 in Hi.
  assert (Ea : Z.testbit (Z.land a 0x7ff) i = Z.testbit a i)
    by (change 0x7ff with (Z.ones 11);
        rewrite Z.land_spec, Z.ones_spec_low by lia; apply andb_true_r).
  assert (Eb : Z.testbit (Z.land b 0x7ff) i = Z.testbit b i)
    by (change 0x7ff with (Z.ones 11);
        rewrite Z.land_spec, Z.ones_spec_low by lia; apply andb_true_r).
  now rewrite <- Ea, <- Eb, E.
Qed.

Lemma flat_map_ext_in {A B : Type} (f g : A -> list B) l :
  (forall a, In a l -> f a = g a) -> flat_map f l = flat_map g l.
Proof.
  induction l as [|a l IH]; intros E; [reflexivity|].
  cbn [flat_map]. rewrite (E a) by now left.
  f_equal. apply IH. intros a' Ha'. apply E. now right.
Qed.

Lemma key_bytes_low k k' keys :
  (forall j, 0 <= j < keys -> Z.land (get4 k j) 0x7ff = Z.land (get4 k' j) 0x7ff) ->
  hmac.key_bytes k keys = hmac.key_bytes k' keys.
Proof.
  intros Hk. unfold hmac.key_bytes. apply flat_map_ext_in.
  intros x Hx. apply zrange_bounds in Hx. apply word_bytes_low, Hk. exact Hx.
Qed.

(** X23. The key [hmac::generate] hands to HMAC is made of the low eleven
    bits of each of the first [(rounds - 6) / 2] key words and of nothing
    else: two keys that agree on those bits give the same result for every
    message, whatever HMAC computes. *)
Theorem hmac_reads_eleven_bits_a_word
        (HMAC_sha256 : string -> string -> option string)
        (message : string) (k k' : vec4 Z) (rounds : Z) :
  (forall j, 0 <= j < (rounds - 6) / 2 ->
     Z.land (get4 k j) 0x7ff = Z.land (get4 k' j) 0x7ff) ->
  hmac.generate HMAC_sha256 message k rounds
  = hmac.generate HMAC_sha256 message k' rounds.
Proof.
  intros Hk. unfold hmac.generate.
  destruct (Z.eqb_spec rounds 10) as [->|_];
    [cbn [bind]; now rewrite (key_bytes_low k k' 2 Hk)|].
  destruct (Z.eqb_spec rounds 12) as [->|_];
    [cbn [bind]; now rewrite (key_bytes_low k k' 3 Hk)|].
  destruct (Z.eqb_spec rounds 14) as [->|_];
    [cbn [bind]; now rewrite (key_bytes_low k k' 4 Hk)|].
  reflexivity.
Qed.

Lemma hmac_reads_eleven_bits_a_word_witness :
  hmac.generate (fun key msg => Some (key ++ msg)) G_plain
                (V4 0x0706050403020100 0x0f0e0d0c0b0a0908 3 4) 10
  = hmac.generate (fun key msg => Some (key ++ msg)) G_plain
                  (V4 0x100 0x108 5 6) 10.
Proof.
  apply (hmac_reads_eleven_bits_a_word (fun key msg => Some (key ++ msg)) G_plain
           (V4 0x0706050403020100 0x0f0e0d0c0b0a0908 3 4) (V4 0x100 0x108 5 6) 10).
  intros j Hj. change ((10 - 6) / 2) with 2 in Hj.
  assert (Hc : j = 0 \/ j = 1) by lia.
  destruct Hc as [-> | ->]; reflexivity.
Defined.

(** ** Strings over packets *)

Section Packets.
Import network netio.

Lemma held_full x : (x mod PACKET_SIZE = 0)%nat -> held x = PACKET_SIZE.
Proof. intros E. unfold held. now rewrite E. Qed.

Lemma held_part x : (x mod PACKET_SIZE <> 0)%nat -> held x = (x mod PACKET_SIZE)%nat.
Proof.
  intros E. unfold held. destruct (Nat.eqb_spec (x mod PACKET_SIZE) 0); [contradiction|].
  reflexivity.
Qed.

Lemma held_after_full x : (x mod PACKET_SIZE = 0)%nat -> held (S x) = 1%nat.
Proof.
  unfold held, PACKET_SIZE. intros E.
  assert (E1 : (S x mod 1024 = 1)%nat) by (zify; Z.to_euclidean_division_equations; lia).
  rewrite E1. reflexivity.
Qed.

Lemma held_after_part x :
  (x mod PACKET_SIZE <> 0)%nat -> held (S x) = S (x mod PACKET_SIZE).
Proof.
  unfold held, PACKET_SIZE. intros E.
  destruct (Nat.eqb_spec (S x mod 1024) 0) as [E0|E0];
    zify; Z.to_euclidean_division_equations; lia.
Qed.

Lemma held_le x : (held x <= PACKET_SIZE)%nat.
Proof.
  unfold held. destruct (Nat.eqb_spec (x mod PACKET_SIZE) 0); [lia|].
  pose proof (Nat.mod_upper_bound x PACKET_SIZE ltac:(discriminate)). lia.
Qed.

Lemma poke_length d : forall i c, length (poke d i c) = length d.
Proof. induction d as [|b d IH]; intros [|i] c; cbn [poke length]; auto. Qed.

Lemma firstn_poke d : forall i c,
  (i < length d)%nat -> firstn (S i) (poke d i c) = firstn i d ++ [c].
Proof.
  induction d as [|b d IH]; intros [|i] c Hi; cbn [length] in Hi; try lia.
  - reflexivity.
  - cbn [poke]. rewrite !firstn_cons, IH by lia. reflexivity.
Qed.

Lemma zero_fill_spec turns : forall x d,
  length d = PACKET_SIZE ->
  (PACKET_SIZE - held x <= turns)%nat ->
  zero_fill turns x d = firstn (held x) d ++ repeat x00 (PACKET_SIZE - held x).
Proof.
  induction turns as [|turns IH]; intros x d Hd Ht.
  - cbn [zero_fill]. replace (held x) with PACKET_SIZE by (pose proof (held_le x); lia).
    rewrite Nat.sub_diag, <- Hd, firstn_all. cbn [repeat]. now rewrite app_nil_r.
  - cbn [zero_fill]. destruct (Nat.eqb_spec (x mod PACKET_SIZE) 0) as [E|E].
    + rewrite (held_full x E), Nat.sub_diag, <- Hd, firstn_all. cbn [repeat].
      now rewrite app_nil_r.
    + pose proof (Nat.mod_upper_bound x PACKET_SIZE ltac:(discriminate)) as Hk.
      rewrite (held_part x E) in *.
      rewrite IH; rewrite ?poke_length, ?(held_after_part x E); try assumption; try lia.
      rewrite firstn_poke by lia. rewrite <- app_assoc. f_equal.
      replace (PACKET_SIZE - x mod PACKET_SIZE)%nat
        with (S (PACKET_SIZE - S (x mod PACKET_SIZE)))%nat by lia.
      reflexivity.
Qed.

Lemma meta_value_inj a b : meta_value a = meta_value b -> a = b.
Proof. destruct a, b; cbn [meta_value]; intros E; try reflexivity; discriminate E. Qed.

Lemma recv_loop_chunks type last : forall chunks ret,
  type <> ERROR -> type <> FINAL ->
  Forall (fun c => length c = PACKET_SIZE) chunks -> length last = PACKET_SIZE ->
  recv_loop (map poll_ready (map (Packet type) chunks ++ [Packet FINAL last])) ret
  = Some (Done (ret ++ concat chunks ++ last)).
Proof.
  intros chunks ret He Hf. revert ret.
  induction chunks as [|c chunks IH]; intros ret Hch Hl.
  - cbn [map app recv_loop recv_packet m data meta_value concat].
    cbn [Z.eqb Pos.eqb]. rewrite <- Hl, firstn_all. reflexivity.
  - inversion Hch as [|? ? Hc Hrest]; subst.
    cbn [map app recv_loop recv_packet m data].
    destruct (Z.eqb_spec (meta_value type) (meta_value ERROR)) as [E|_];
      [apply meta_value_inj in E; contradiction|].
    destruct (Z.eqb_spec (meta_value type) (meta_value FINAL)) as [E|_];
      [apply meta_value_inj in E; contradiction|].
    rewrite <- Hc at 1. rewrite firstn_all.
    rewrite IH by assumption.
    cbn [concat]. now rewrite <- !app_assoc.
Qed.

Lemma length_concat_chunks (chunks : list (list byte)) :
  Forall (fun c => length c = PACKET_SIZE) chunks ->
  length (concat chunks) = (PACKET_SIZE * length chunks)%nat.
Proof.
  induction 1 as [|c chunks Hc _ IH]; [cbn; lia|].
  cbn [concat length]. rewrite length_app, IH, Hc. lia.
Qed.

Lemma strncpy_length str :
  (length str <= PACKET_SIZE)%nat -> length (strncpy str) = PACKET_SIZE.
Proof.
  intros Hs. unfold strncpy. rewrite length_app, repeat_length.
  assert (Hl : (length (string_of_literal str) <= length str)%nat).
  { clear Hs. induction str as [|c str IH]; [cbn; lia|].
    cbn [string_of_literal]. destruct (Byte.eqb c x00); cbn [length]; lia. }
  lia.
Qed.

Lemma trimmed_to_length (msg tail : string) :
  (if (length msg <=? S (length (msg ++ tail)))%nat
   then Some (Done (firstn (length msg) ((msg ++ tail) ++ [x00])))
   else Some (Raised PastTheEnd))
  = Some (Done msg).
Proof.
  destruct (Nat.leb_spec (length msg) (S (length (msg ++ tail)))) as [_|Hgt];
    [|rewrite length_app in Hgt; lia].
  rewrite <- app_assoc, firstn_app, firstn_all, Nat.sub_diag. cbn [firstn].
  now rewrite app_nil_r.
Qed.

Variable evs : nat -> sending.
Hypothesis evs_done :
  forall n, (1 <= n)%nat -> exists code, evs n = send_done code /\ code <> -1.

Lemma send_loop_spec type rest : forall x d n sent,
  length d = PACKET_SIZE -> (1 <= n)%nat ->
  exists chunks d' n',
    send_loop evs type rest x d n sent
    = Sender false d' (x + length rest) n' (sent ++ map (Packet type) chunks) /\
    length d' = PACKET_SIZE /\ (1 <= n')%nat /\
    Forall (fun c => length c = PACKET_SIZE) chunks /\
    firstn (held x) d ++ rest
    = concat chunks ++ firstn (held (x + length rest)) d'.
Proof.
  induction rest as [|c rest IH]; intros x d n sent Hd Hn.
  - exists [], d, n. cbn [send_loop length map concat app].
    rewrite Nat.add_0_r, !app_nil_r. auto.
  - cbn [send_loop length].
    replace (x + S (length rest))%nat with (S x + length rest)%nat by lia.
    pose proof (Nat.mod_upper_bound x PACKET_SIZE ltac:(discriminate)) as Hk.
    destruct (Nat.eqb_spec (x mod PACKET_SIZE) 0) as [E|E].
    + destruct (evs_done n Hn) as (code & -> & Hc). cbn [send_packet].
      destruct (Z.eqb_spec code (-1)) as [|_]; [contradiction|].
      rewrite E.
      destruct (IH (S x) (poke d 0 c) (S n) (sent ++ [Packet type d]))
        as (chunks & d' & n' & Hrun & Hd' & Hn' & Hch & Hcat).
      { now rewrite poke_length. }
      { lia. }
      exists (d :: chunks), d', n'. rewrite Hrun.
      split; [cbn [map]; now rewrite <- app_assoc|].
      split; [assumption|]. split; [assumption|]. split; [now constructor|].
      rewrite (held_after_full x E) in Hcat.
      rewrite (firstn_poke d 0 c) in Hcat by lia. cbn [firstn app] in Hcat.
      rewrite (held_full x E), <- Hd, firstn_all. cbn [concat].
      rewrite <- app_assoc, <- Hcat. reflexivity.
    + destruct (IH (S x) (poke d (x mod PACKET_SIZE) c) n sent)
        as (chunks & d' & n' & Hrun & Hd' & Hn' & Hch & Hcat).
      { now rewrite poke_length. }
      { assumption. }
      exists chunks, d', n'. rewrite Hrun.
      split; [reflexivity|]. split; [assumption|]. split; [assumption|].
      split; [assumption|].
      rewrite (held_after_part x E) in Hcat.
      rewrite firstn_poke in Hcat by lia.
      rewrite (held_part x E), <- Hcat, <- app_assoc. reflexivity.
Qed.

Variable render : Z -> string.

(** What [send_string] hands over after the length packet: whole buffers
    with the tag, then one with [FINAL], holding the message and NUL bytes
    after it. *)
Lemma send_string_frames (message : string) (type : meta) :
  (length (render (Z.of_nat (length message))) <= PACKET_SIZE)%nat ->
  exists chunks last tail,
    send_string render message type evs
    = Done (0, snd (send_packet
                      (Packet DATA (strncpy (render (Z.of_nat (length message)))))
                      (evs 0%nat))
               ++ map (Packet type) chunks ++ [Packet FINAL last]) /\
    Forall (fun c => length c = PACKET_SIZE) chunks /\
    length last = PACKET_SIZE /\
    concat chunks ++ last = [nth 0 message x00] ++ tl message ++ tail /\
    length chunks = ((length message - 1) / PACKET_SIZE)%nat.
Proof.
  intros Hlen.
  set (L := Z.of_nat (length message)) in *.
  set (d0 := poke (data fresh) 0 (nth 0 message x00)).
  assert (Hd0 : length d0 = PACKET_SIZE)
    by (unfold d0; rewrite poke_length; apply repeat_length).
  set (first := send_packet (Packet DATA (strncpy (render L))) (evs 0%nat)).
  destruct (send_loop_spec type (tl message) 1 d0 1 (snd first) Hd0 (le_n 1))
    as (chunks & d' & n' & Hrun & Hd' & Hn' & Hch & Hcat).
  destruct (evs_done n' Hn') as (code & Hev & Hcode).
  set (xe := (1 + length (tl message))%nat) in *.
  set (last := zero_fill PACKET_SIZE xe d').
  assert (Hlast : last = firstn (held xe) d' ++ repeat x00 (PACKET_SIZE - held xe))
    by (apply zero_fill_spec; [assumption | lia]).
  assert (Hh : (1 <= held xe <= PACKET_SIZE)%nat).
  { split; [|apply held_le]. unfold held.
    destruct (Nat.eqb_spec (xe mod PACKET_SIZE) 0); [unfold PACKET_SIZE|]; lia. }
  assert (Hheld1 : held 1 = 1%nat) by reflexivity.
  assert (Hfirst : firstn 1 d0 = [nth 0 message x00])
    by (unfold d0; apply (firstn_poke (data fresh) 0);
        unfold fresh; cbn [data]; rewrite repeat_length; unfold PACKET_SIZE; lia).
  rewrite Hheld1, Hfirst in Hcat.
  exists chunks, last, (repeat x00 (PACKET_SIZE - held xe)).
  split; [|split; [|split; [|split]]].
  - unfold send_string, send_value. fold L.
    destruct (Nat.ltb_spec PACKET_SIZE (length (render L))) as [Hgt|_]; [lia|].
    fold first. destruct first as [code0 sent0]. cbn [snd] in *.
    fold d0. rewrite Hrun.
    cbn [gave_up index buffer calls handed]. fold last.
    rewrite Hev. cbn [send_packet].
    destruct (Z.eqb_spec code (-1)) as [|_]; [contradiction|].
    now rewrite <- app_assoc.
  - assumption.
  - rewrite Hlast, length_app, repeat_length, firstn_length_le by lia. lia.
  - rewrite Hlast, app_assoc, <- Hcat, <- !app_assoc. reflexivity.
  - apply (f_equal (@length byte)) in Hcat.
    rewrite !length_app, length_concat_chunks in Hcat by assumption.
    rewrite firstn_length_le in Hcat by lia.
    apply (Nat.div_unique _ _ _ (held xe - 1)); [lia|].
    unfold xe in *. destruct message; cbn [tl length] in *; lia.
Qed.

Variable extract : string -> Z.

(** X24. A string sent by [send_string] is the string [recv_string]
    returns. When every call of [send_packet] gets through, the tag is
    neither [ERROR] nor [FINAL], and the stream reads back from the length
    packet the length written into it, [send_string] returns 0 after
    handing over the length packet and one packet for each 1024 bytes
    started (one for the empty string), and [recv_string] on these packets
    returns the message. *)
Theorem recv_string_of_send_string (message : string) (type : meta) (code0 : Z) :
  evs 0%nat = send_done code0 -> code0 <> -1 ->
  type <> ERROR -> type <> FINAL ->
  (length (render (Z.of_nat (length message))) <= PACKET_SIZE)%nat ->
  extract (strncpy (render (Z.of_nat (length message)))) = Z.of_nat (length message) ->
  exists frames,
    send_string render message type evs = Done (0, frames) /\
    recv_string extract (map poll_ready frames) = Some (Done message) /\
    length frames = (2 + (length message - 1) / PACKET_SIZE)%nat.
Proof.
  intros Hev0 _ He Hf Hlen Hext.
  destruct (send_string_frames message type Hlen)
    as (chunks & last & tail & Hrun & Hch & Hlast & Hcat & Hn).
  rewrite Hev0 in Hrun. cbn [send_packet snd app] in Hrun.
  eexists. split; [exact Hrun|]. split.
  - cbn [map recv_string].
    unfold recv_value. cbn [recv_packet m data meta_value Z.eqb negb].
    rewrite (firstn_all2 (n := PACKET_SIZE)
               (strncpy (render (Z.of_nat (length message)))))
      by (rewrite (strncpy_length _ Hlen); apply le_n).
    rewrite Hext.
    rewrite (recv_loop_chunks type last chunks [] He Hf Hch Hlast).
    cbn [app]. rewrite Hcat, Nat2Z.id.
    destruct message as [|c rest]; [reflexivity|].
    exact (trimmed_to_length (c :: rest) tail).
  - cbn [length]. rewrite length_app, !length_map. cbn [length]. lia.
Qed.

(** X25. [send_string] does not look at what became of the length packet:
    when [poll] refuses it and every later packet gets through,
    [send_string] still returns 0, having handed over only the packets of
    the message. *)
Theorem send_string_ignores_length_packet (message : string) (type : meta) :
  evs 0%nat = send_refused ->
  (length (render (Z.of_nat (length message))) <= PACKET_SIZE)%nat ->
  exists frames,
    send_string render message type evs = Done (0, frames) /\
    length frames = (1 + (length message - 1) / PACKET_SIZE)%nat /\
    ((length message <= PACKET_SIZE)%nat ->
     recv_string extract (map poll_ready frames) = None).
Proof.
  intros Hev0 Hlen.
  destruct (send_string_frames message type Hlen)
    as (chunks & last & tail & Hrun & Hch & Hlast & Hcat & Hn).
  rewrite Hev0 in Hrun. cbn [send_packet snd app] in Hrun.
  eexists. split; [exact Hrun|]. split.
  - rewrite length_app, !length_map. cbn [length]. lia.
  - intros Hshort.
    assert (H0 : ((length message - 1) / PACKET_SIZE = 0)%nat)
      by (apply Nat.div_small; unfold PACKET_SIZE in *; lia).
    rewrite H0 in Hn. destruct chunks; [|discriminate Hn].
    reflexivity.
Qed.

End Packets.

Lemma recv_string_of_send_string_witness :
  exists frames,
    netio.send_string decimal G_plain network.DATA (fun _ => netio.send_done 1028)
    = netio.Done (0, frames) /\
    netio.recv_string read_decimal (map network.poll_ready frames)
    = Some (netio.Done G_plain) /\
    length frames = (2 + (length G_plain - 1) / network.PACKET_SIZE)%nat.
Proof.
  apply (recv_string_of_send_string (fun _ => netio.send_done 1028)
           ltac:(intros n _; exists 1028; split; [reflexivity | lia])
           decimal read_decimal G_plain network.DATA 1028).
  - reflexivity.
  - lia.
  - discriminate.
  - discriminate.
  - apply Nat.leb_le. vm_compute. reflexivity.
  - vm_compute. reflexivity.
Defined.

Lemma send_string_ignores_length_packet_witness :
  exists frames,
    netio.send_string decimal G_plain network.DATA
      (fun n => match n with O => netio.send_refused | S _ => netio.send_done 1028 end)
    = netio.Done (0, frames) /\
    length frames = (1 + (length G_plain - 1) / network.PACKET_SIZE)%nat /\
    ((length G_plain <= network.PACKET_SIZE)%nat ->
     netio.recv_string read_decimal (map network.poll_ready frames) = None).
Proof.
  apply (send_string_ignores_length_packet
           (fun n => match n with O => netio.send_refused | S _ => netio.send_done 1028 end)).
  - intros [|n] Hn; [lia|]. exists 1028. split; [reflexivity | lia].
  - reflexivity.
  - apply Nat.leb_le. vm_compute. reflexivity.
Defined.

(** ** The word after the round constants *)

(** The word the schedule reads past [Rcon] when [Nk = 4] goes into
    [W[40..42]] only, and no mode reads those: the results are the same in
    every memory. *)

Lemma Rcon_at_inside (L1 L2 : Layout) n :
  0 <= n < 10 -> @key.Rcon_at L1 n = @key.Rcon_at L2 n.
Proof.
  intros Hn. unfold key.Rcon_at. apply nth_indep.
  change (length key.Rcon) with 10%nat. lia.
Qed.

Lemma Expansion_step_inside (L1 L2 : Layout) Nk w i :
  0 <= i / Nk < 10 ->
  @key.Expansion_step L1 Nk w i = @key.Expansion_step L2 Nk w i.
Proof.
  intros Hi. unfold key.Expansion_step.
  now rewrite (Rcon_at_inside L1 L2 (i / Nk) Hi).
Qed.

Lemma Expansion_step_other `{Layout} Nk w i j :
  Z.to_nat i <> j -> nth j (key.Expansion_step Nk w i) 0 = nth j w 0.
Proof.
  intros Hij. unfold key.Expansion_step. cbv zeta. now apply nth_store_other.
Qed.

Lemma Expansion_words (L1 L2 : Layout) k Nk j :
  Nk = 4 \/ Nk = 6 \/ Nk = 8 -> 0 <= j < 4 * (Nk + 6) ->
  key.word_at (@key.Expansion L1 k Nk) j = key.word_at (@key.Expansion L2 k Nk) j.
Proof.
  intros [-> | [-> | ->]] Hj.
  - unfold key.Expansion.
    change (if 4 =? 4 then 10 else if 4 =? 6 then 12 else 14) with 10.
    change (zrange 4 (4 * 10 + 3)) with (zrange 4 40 ++ [40; 41; 42]).
    rewrite !fold_left_app.
    match goal with
    | |- key.word_at (fold_left _ _ (fold_left ?f1 ?l ?i)) _
         = key.word_at (fold_left _ _ (fold_left ?f2 ?l ?i)) _ =>
        assert (E : fold_left f1 l i = fold_left f2 l i)
    end.
    { apply fold_left_ext_in. intros w i Hi. apply zrange_bounds in Hi.
      apply Expansion_step_inside.
      split; [apply Z.div_pos; lia | apply Z.div_lt_upper_bound; lia]. }
    rewrite E. unfold key.word_at. cbn [fold_left].
    rewrite !Expansion_step_other by lia. reflexivity.
  - assert (E : @key.Expansion L1 k 6 = @key.Expansion L2 k 6); [|now rewrite E].
    unfold key.Expansion. apply fold_left_ext_in.
    intros w i Hi. apply zrange_bounds in Hi.
    change (if 6 =? 4 then 10 else if 6 =? 6 then 12 else 14) with 12 in Hi.
    apply Expansion_step_inside.
    split; [apply Z.div_pos; lia | apply Z.div_lt_upper_bound; lia].
  - assert (E : @key.Expansion L1 k 8 = @key.Expansion L2 k 8); [|now rewrite E].
    unfold key.Expansion. apply fold_left_ext_in.
    intros w i Hi. apply zrange_bounds in Hi.
    change (if 8 =? 4 then 10 else if 8 =? 6 then 12 else 14) with 14 in Hi.
    apply Expansion_step_inside.
    split; [apply Z.div_pos; lia | apply Z.div_lt_upper_bound; lia].
Qed.

Lemma AddRoundKey_words a r w w' :
  (forall c, 0 <= c < 4 -> key.word_at w (4 * r + c) = key.word_at w' (4 * r + c)) ->
  state_array.AddRoundKey a r w = state_array.AddRoundKey a r w'.
Proof.
  intros Hw. unfold state_array.AddRoundKey, state_array.tab, tab4. cbv zeta.
  now rewrite (Hw 0), (Hw 1), (Hw 2), (Hw 3) by lia.
Qed.

Lemma enc_block_words w w' Nr a :
  1 <= Nr ->
  (forall j, 0 <= j < 4 * Nr -> key.word_at w j = key.word_at w' j) ->
  enc_block w Nr a = enc_block w' Nr a.
Proof.
  intros HNr Hw. unfold enc_block.
  rewrite (AddRoundKey_words a 0 w w') by (intros c Hc; apply Hw; lia).
  rewrite (fold_left_ext_in (enc_round w) (enc_round w')).
  - apply AddRoundKey_words. intros c Hc. apply Hw. lia.
  - intros b x Hx. apply zrange_bounds in Hx. unfold enc_round.
    apply AddRoundKey_words. intros c Hc. apply Hw. lia.
Qed.

Lemma Schedule_words (L1 L2 : Layout) k Nr :
  valid_rounds Nr ->
  exists w1 w2,
    @state.Schedule L1 k Nr = Ret w1 /\ @state.Schedule L2 k Nr = Ret w2 /\
    forall j, 0 <= j < 4 * Nr -> key.word_at w1 j = key.word_at w2 j.
Proof.
  intros [-> | [-> | ->]];
    [exists (@key.Expansion L1 k 4), (@key.Expansion L2 k 4)
    |exists (@key.Expansion L1 k 6), (@key.Expansion L2 k 6)
    |exists (@key.Expansion L1 k 8), (@key.Expansion L2 k 8)];
    (split; [reflexivity|]; split; [reflexivity|]);
    intros j Hj; apply Expansion_words; try lia; tauto.
Qed.

Lemma Cipher_any_layout (L1 L2 : Layout) M K Nr :
  valid_rounds Nr -> @Cipher L1 M K Nr = @Cipher L2 M K Nr.
Proof.
  intros HNr.
  destruct (Schedule_words L1 L2 K Nr HNr) as (w1 & w2 & H1 & H2 & Hw).
  rewrite (@Cipher_blocks L1 _ _ _ _ H1), (@Cipher_blocks L2 _ _ _ _ H2).
  do 2 f_equal. apply map_ext. intros a.
  apply enc_block_words; [now apply valid_rounds_pos | exact Hw].
Qed.

Lemma Ctr_loop_any_layout (L1 L2 : Layout) K Nr :
  valid_rounds Nr ->
  forall arrs nonce, @Ctr_loop L1 arrs K Nr nonce = @Ctr_loop L2 arrs K Nr nonce.
Proof.
  intros HNr. induction arrs as [|a rest IH]; intros nonce; [reflexivity|].
  cbn [Ctr_loop]. now rewrite (Cipher_any_layout L1 L2 _ K Nr HNr), IH.
Qed.

Lemma Ctr_any_layout (L1 L2 : Layout) M K Nr nonce :
  valid_rounds Nr -> @Ctr L1 M K Nr nonce = @Ctr L2 M K Nr nonce.
Proof.
  intros HNr. rewrite (@Ctr_form L1), (@Ctr_form L2) by assumption.
  now rewrite (Ctr_loop_any_layout L1 L2 K Nr HNr).
Qed.

Lemma GCTR_loop_any_layout (L1 L2 : Layout) K Nr :
  valid_rounds Nr ->
  forall arrs ICB,
    @gcm.GCTR_loop L1 arrs K Nr ICB = @gcm.GCTR_loop L2 arrs K Nr ICB.
Proof.
  intros HNr. induction arrs as [|a rest IH]; intros ICB; [reflexivity|].
  cbn [gcm.GCTR_loop]. now rewrite (Cipher_any_layout L1 L2 _ K Nr HNr), IH.
Qed.

Lemma Enc_any_layout (L1 L2 : Layout) M K Nr nonce :
  valid_rounds Nr -> @gcm.Enc L1 M K Nr nonce = @gcm.Enc L2 M K Nr nonce.
Proof.
  intros HNr.
  destruct (@Cipher_ok L1 (state_array.unravel state_array.zero) K Nr HNr) as [e0 He0].
  pose proof He0 as He0'. rewrite (Cipher_any_layout L1 L2 _ K Nr HNr) in He0'.
  rewrite (@Enc_form L1 K Nr nonce M e0 HNr He0).
  rewrite (@Enc_form L2 K Nr nonce M e0 HNr He0').
  now rewrite (GCTR_loop_any_layout L1 L2 K Nr HNr).
Qed.

(** ** The command line program *)

Section Command_line.
Import cli.

Lemma uchar_char_u8 z : uchar (char z) = u8 z.
Proof.
  assert (E : char z = char (u8 z))
    by (unfold char; now rewrite (u8_id (u8 z) (u8_range z))).
  rewrite E. apply uchar_char, u8_range.
Qed.

Lemma str_at_u64 v rest i :
  0 <= i < 8 -> str_at (string_of_u64 v ++ rest) i = u8 (Z.shiftr v (8 * i)).
Proof.
  intros Hi. unfold str_at.
  assert (Hc : i = 0 \/ i = 1 \/ i = 2 \/ i = 3 \/ i = 4 \/ i = 5 \/ i = 6 \/ i = 7)
    by lia.
  destruct Hc as [-> | [-> | [-> | [-> | [-> | [-> | [-> | ->]]]]]]];
    apply uchar_char_u8.
Qed.

Lemma load_prefix v s k :
  0 <= k ->
  (forall i, 0 <= i < k -> str_at s i = u8 (Z.shiftr v (8 * i))) ->
  fold_left (fun acc i => Z.lor acc (Z.shiftl (str_at s i) (8 * i))) (zrange 0 k) 0
  = v mod 2 ^ (8 * k).
Proof.
  intros Hk. revert k Hk. apply (natlike_ind (fun k => _ -> _ = _)).
  - intros _. rewrite zrange_empty. cbn [fold_left]. now rewrite Z.mod_1_r.
  - intros k Hk IH Hs. unfold Z.succ. rewrite zrange_snoc, fold_left_snoc by lia.
    rewrite IH by (intros i Hi; apply Hs; lia).
    rewrite Hs, u8_mod by lia.
    rewrite Z.shiftr_div_pow2 by lia.
    rewrite Z.lor_comm, lor_shiftl_add
      by (try apply Z.mod_pos_bound; try apply Z.pow_pos_nonneg; lia).
    replace (8 * (k + 1)) with (8 * k + 8) by lia.
    rewrite Z.pow_add_r by lia.
    rewrite (Z.rem_mul_r v (2 ^ (8 * k)) (2 ^ 8))
      by (try apply Z.pow_nonzero; try apply Z.pow_pos_nonneg; lia).
    change (2 ^ 8) with 256. lia.
Qed.

(** The eight bytes written for the nonce are read back as the nonce. *)
Lemma load64_string_of_u64 v rest :
  0 <= v < 2 ^ 64 -> load64 (string_of_u64 v ++ rest) = v.
Proof.
  intros Hv. unfold load64.
  rewrite (load_prefix v) by (try (intros i Hi; apply str_at_u64; exact Hi); lia).
  apply Z.mod_small. exact Hv.
Qed.

Ltac run_tests :=
  repeat match goal with
         | |- context [string_eqb ?a ?b] =>
             let v := eval vm_compute in (string_eqb a b) in
             change (string_eqb a b) with v
         end;
  cbn [negb andb].

(** What one memory encrypts, any other decrypts. *)
Lemma decrypt_encrypt (L1 L2 : Layout) md P K Nr nonce :
  In md [ECB; CTR; GCM] -> valid_rounds Nr ->
  exists c,
    @encrypt L1 md P K Nr nonce = Ret c /\
    @decrypt L2 md c K Nr nonce = Ret (zero_padded P).
Proof.
  intros Hmd HNr. unfold encrypt, decrypt.
  destruct Hmd as [<- | [<- | [<- | []]]]; run_tests.
  - rewrite (Cipher_any_layout L1 L2 P K Nr HNr).
    pose proof (@InvCipher_Cipher L2 P K Nr HNr) as E.
    destruct (@Cipher L2 P K Nr) as [c|e]; [|discriminate E]. cbn [bind] in E.
    exists c. split; [reflexivity | exact E].
  - rewrite (Ctr_any_layout L1 L2 P K Nr nonce HNr).
    pose proof (@Ctr_Ctr L2 P K Nr nonce HNr) as E.
    destruct (@Ctr L2 P K Nr nonce) as [c|e]; [|discriminate E]. cbn [bind] in E.
    exists c. split; [reflexivity | exact E].
  - rewrite (Enc_any_layout L1 L2 P K Nr nonce HNr).
    pose proof (@Dec_Enc L2 P K Nr nonce HNr) as E.
    destruct (@gcm.Enc L2 P K Nr nonce) as [c|e]; [|discriminate E]. cbn [bind] in E.
    exists c. split; [reflexivity | exact E].
Qed.

(** X26. A file encrypted by the program and decrypted by it, in another
    run and so in another memory, with a key file of the same content, the
    same key size and the same mode comes back padded with zero bytes to a
    multiple of 16. Without [--help], with [--mode] of the form
    [ENC?sss?mmm], [sss] one of 128, 192, 256 and [mmm] one of ECB, CTR,
    GCM, whatever the two separator characters are, and with [--keyfile],
    [--infile] and [--outfile] given, [main] returns 0 and writes the eight
    bytes of the nonce, the value of [std::rand()], followed by what the
    mode returns for the input under the key loaded from the first line of
    the key file; run with [DEC?sss?mmm] on that file it returns 0 and
    writes the padded input. *)
Theorem decrypting_the_encrypted_file
        (L1 L2 : Layout) (argv argv' : list string) (w w' : world)
        (s1 s2 s1' s2' : byte)
        (ks md kp kp' ip ip' out out' keyfile P : string) :
  In ks [s128; s192; s256] -> In md [ECB; CTR; GCM] ->
  lookup opt_help (arguments argv) = None ->
  lookup opt_mode (arguments argv) = Some (ENC ++ [s1] ++ ks ++ [s2] ++ md) ->
  lookup opt_keyfile (arguments argv) = Some kp ->
  lookup opt_infile (arguments argv) = Some ip ->
  lookup opt_outfile (arguments argv) = Some out ->
  files w kp = Some keyfile -> files w ip = Some P ->
  lookup opt_help (arguments argv') = None ->
  lookup opt_mode (arguments argv') = Some (DEC ++ [s1'] ++ ks ++ [s2'] ++ md) ->
  lookup opt_keyfile (arguments argv') = Some kp' ->
  lookup opt_infile (arguments argv') = Some ip' ->
  lookup opt_outfile (arguments argv') = Some out' ->
  files w' kp' = Some keyfile ->
  exists size Nr keys cipher,
    key_size_of ks = Some (size, Nr, keys) /\
    @encrypt L1 md P (load_key (first_line keyfile) size keys) Nr (u64 (rand w))
    = Ret cipher /\
    @main L1 argv w
    = Returned 0 (Some (out, string_of_u64 (u64 (rand w)) ++ cipher)) /\
    (files w' ip' = Some (string_of_u64 (u64 (rand w)) ++ cipher) ->
     @main L2 argv' w' = Returned 0 (Some (out', zero_padded P))).
Proof.
  intros Hks Hmd Hh Hm Hk Hi Ho HK HP Hh' Hm' Hk' Hi' Ho' HK'.
  assert (Parsed :
    exists size Nr keys,
      valid_rounds Nr /\ key_size_of ks = Some (size, Nr, keys) /\
      forall (op : string) (a b : byte),
        In op [ENC; DEC] ->
        (length (op ++ [a] ++ ks ++ [b] ++ md) =? 11)%nat = true /\
        substr (op ++ [a] ++ ks ++ [b] ++ md) 0 3 = op /\
        substr (op ++ [a] ++ ks ++ [b] ++ md) 4 3 = ks /\
        substr (op ++ [a] ++ ks ++ [b] ++ md) 8 3 = md).
  { destruct Hks as [<- | [<- | [<- | []]]];
      [exists 128%nat, 10, 2 | exists 192%nat, 12, 3 | exists 256%nat, 14, 4];
      (split; [unfold valid_rounds; lia|]); (split; [reflexivity|]);
      intros op a b [<- | [<- | []]];
      destruct Hmd as [<- | [<- | [<- | []]]];
      repeat split; reflexivity. }
  destruct Parsed as (size & Nr & keys & HNr & Hsize & Parsed).
  destruct (Parsed ENC s1 s2 ltac:(now left)) as (L1' & O1 & K1 & M1).
  destruct (Parsed DEC s1' s2' ltac:(right; now left)) as (L2' & O2 & K2 & M2).
  assert (Tm : negb (string_eqb md ECB) && negb (string_eqb md CTR)
               && negb (string_eqb md GCM) = false)
    by (destruct Hmd as [<- | [<- | [<- | []]]]; reflexivity).
  set (K := load_key (first_line keyfile) size keys).
  set (nonce := u64 (rand w)).
  assert (Hn : 0 <= nonce < 2 ^ 64) by apply u64_range.
  destruct (decrypt_encrypt L1 L2 md P K Nr nonce Hmd HNr) as (c & Henc & Hdec).
  exists size, Nr, keys, c.
  split; [exact Hsize|]. split; [exact Henc|]. split.
  - unfold main. cbv zeta.
    rewrite Hh, Hm, Hk, Hi, HK, HP, L1', O1, K1, Hsize, M1, Tm.
    run_tests. cbv iota. fold K. fold nonce.
    unfold transform. run_tests. rewrite Henc, Ho. reflexivity.
  - intros HC. unfold main. cbv zeta.
    rewrite Hh', Hm', Hk', Hi', HK', HC, L2', O2, K2, Hsize, M2, Tm.
    run_tests. cbv iota. fold K.
    assert (Hlen : length (string_of_u64 nonce ++ c) = (8 + length c)%nat)
      by (rewrite length_app; reflexivity).
    destruct (Nat.ltb_spec (length (string_of_u64 nonce ++ c)) 8) as [Hlt|_]; [lia|].
    rewrite (load64_string_of_u64 nonce c Hn).
    change (skipn 8 (string_of_u64 nonce ++ c)) with c.
    unfold transform. run_tests. rewrite Hdec, Ho'. reflexivity.
Qed.

End Command_line.

Lemma decrypting_the_encrypted_file_witness :
  exists cipher,
    @cli.encrypt zero_past cli.CTR G_plain
      (cli.load_key (cli.first_line S1_plain) 128 2) 10 (u64 42) = Ret cipher /\
    @cli.main zero_past cli_enc_argv cli_enc_world
    = cli.Returned 0 (Some (cli_c, string_of_u64 (u64 42) ++ cipher)) /\
    @cli.main other_past cli_dec_argv cli_dec_world
    = cli.Returned 0 (Some (cli_o, zero_padded G_plain)).
Proof.
  destruct (decrypting_the_encrypted_file zero_past other_past
              cli_enc_argv cli_dec_argv cli_enc_world cli_dec_world
              x2d x2d x2d x2d cli.s128 cli.CTR
              cli_k cli_k cli_p cli_c cli_c cli_o S1_plain G_plain)
    as (size & Nr & keys & cipher & Hk & He & Hm & Hd).
  - left. reflexivity.
  - right. left. reflexivity.
  - vm_compute. reflexivity.
  - vm_compute. reflexivity.
  - vm_compute. reflexivity.
  - vm_compute. reflexivity.
  - vm_compute. reflexivity.
  - vm_compute. reflexivity.
  - vm_compute. reflexivity.
  - vm_compute. reflexivity.
  - vm_compute. reflexivity.
  - vm_compute. reflexivity.
  - vm_compute. reflexivity.
  - vm_compute. reflexivity.
  - vm_compute. reflexivity.
  - change (Some (128%nat, 10, 2) = Some (size, Nr, keys)) in Hk.
    injection Hk as <- <- <-.
    change (cli.rand cli_enc_world) with 42 in He, Hm, Hd.
    exists cipher. split; [exact He|]. split; [exact Hm|].
    apply Hd. unfold cli_dec_world.
    rewrite Hm. reflexivity.
Defined.

(** ** The blocks of a state *)

(** X27. For a round count in 10, 12, 14 the constructor of [state] cuts
    the input into one block for each 16 bytes started, every cell a byte,
    the last block filled with zero bytes; [unravel] gives the input with
    those zero bytes back, and building a state from that gives the same
    blocks. *)
Theorem state_of_string_pads `{Layout} (M : string) (K : vec4 Z) (Nr : Z) :
  valid_rounds Nr ->
  exists s,
    state.of_string M K Nr = Ret s /\
    state.unravel s = zero_padded M /\
    length (state.arrays s) = ((length M + 15) / 16)%nat /\
    Forall wf (state.arrays s) /\
    state.of_string (state.unravel s) K Nr = Ret s.
Proof.
  intros HNr. destruct (Schedule_ok K Nr HNr) as [w Hw].
  unfold state.of_string. rewrite Hw. cbn [bind]. eexists. split; [reflexivity|].
  unfold state.unravel. cbn [state.arrays].
  split; [apply unravel_fill; lia|].
  split.
  - pose proof (length_unravel_fill (length M) M (le_n _)) as L.
    rewrite length_padded_blocks in L. lia.
  - split; [apply fill_wf|].
    rewrite fill_unravel_len by apply fill_wf. reflexivity.
Qed.

Lemma state_of_string_pads_witness :
  exists s,
    @state.of_string zero_past [x61] S1_key 10 = Ret s /\
    state.unravel s = zero_padded [x61] /\
    length (state.arrays s) = ((length [x61] + 15) / 16)%nat /\
    Forall wf (state.arrays s) /\
    @state.of_string zero_past (state.unravel s) S1_key 10 = Ret s.
Proof.
  apply (@state_of_string_pads zero_past [x61] S1_key 10).
  left. reflexivity.
Defined.

(** ** The product of Galois/counter mode *)

Lemma mult_bit_top byte byte' st :
  Z.land byte 0x80 = Z.land byte' 0x80 -> gcm.mult_bit byte st = gcm.mult_bit byte' st.
Proof. intros E. unfold gcm.mult_bit. now rewrite E. Qed.

Lemma by_rows_cells p :
  In p state_array.by_rows -> 0 <= fst p < 4 /\ 0 <= snd p < 4.
Proof.
  intros Hin. vm_compute in Hin.
  repeat (destruct Hin as [<- | Hin]; [cbn [fst snd]; lia|]). contradiction.
Qed.

Lemma mult_bits_fst_zero byte V (turns : list Z) :
  Z.land byte 0x80 = 0 ->
  fst (fold_left (fun st _ => gcm.mult_bit byte st) turns (state_array.zero, V))
  = state_array.zero.
Proof.
  intros E. revert V. induction turns as [|x turns IH]; intros V; [reflexivity|].
  rewrite fold_left_cons. unfold gcm.mult_bit at 2. rewrite E.
  cbn [Z.eqb negb]. cbv iota. apply IH.
Qed.

(** X28. [gcm::mult] reads of each byte of [X] only its top bit, and reads
    it in all eight turns: two blocks [X] that agree on the top bits of
    their bytes give the same product with every [Y], and a block [X] of
    bytes below 128 gives the zero block. *)
Theorem gcm_mult_reads_top_bits (X X' Y : state_array.t) :
  (forall col row, 0 <= col < 4 -> 0 <= row < 4 ->
     Z.land (state_array.cell X col row) 0x80
     = Z.land (state_array.cell X' col row) 0x80) ->
  gcm.mult X Y = gcm.mult X' Y /\
  ((forall col row, 0 <= col < 4 -> 0 <= row < 4 ->
      Z.land (state_array.cell X col row) 0x80 = 0) ->
   gcm.mult X Y = state_array.zero).
Proof.
  intros Htop. split.
  - unfold gcm.mult.
    match goal with
    | |- fst (fold_left ?f ?l ?i) = fst (fold_left ?g ?l ?i) =>
        assert (E : fold_left f l i = fold_left g l i);
          [apply (fold_left_ext_in f g l) | now rewrite E]
    end.
    intros st [col row] Hin. apply by_rows_cells in Hin. cbn [fst snd] in Hin.
    cbv beta iota zeta.
    apply (fold_left_ext
             (fun st (_ : Z) => gcm.mult_bit (state_array.cell X col row) st)
             (fun st (_ : Z) => gcm.mult_bit (state_array.cell X' col row) st)).
    intros st' _. apply mult_bit_top, Htop; tauto.
  - intros Hlow. unfold gcm.mult.
    assert (E : forall cells V,
              (forall p, In p cells -> In p state_array.by_rows) ->
              fst (fold_left
                     (fun st (p : Z * Z) =>
                        let (col, row) := p in
                        let byte := state_array.cell X col row in
                        fold_left (fun st _ => gcm.mult_bit byte st) (zrange 0 8) st)
                     cells (state_array.zero, V)) = state_array.zero).
    { induction cells as [|[col row] cells IH]; intros V Hsub; [reflexivity|].
      rewrite fold_left_cons.
      pose proof (by_rows_cells (col, row) (Hsub _ (or_introl eq_refl))) as Hc.
      cbn [fst snd] in Hc.
      pose proof (mult_bits_fst_zero (state_array.cell X col row) V (zrange 0 8)
                    (Hlow col row (proj1 Hc) (proj2 Hc))) as Ez.
      destruct (fold_left _ (zrange 0 8) (state_array.zero, V)) as [Z1 V1].
      cbn [fst] in Ez. subst Z1. apply IH.
      intros p Hp. apply Hsub. now right. }
    apply E. auto.
Qed.

Lemma gcm_mult_reads_top_bits_witness :
  gcm.mult (state_array.of_string G_plain) (state_array.of_string G_tag)
  = gcm.mult state_array.zero (state_array.of_string G_tag).
Proof.
  destruct (gcm_mult_reads_top_bits (state_array.of_string G_plain) state_array.zero
              (state_array.of_string G_tag)) as (W & _).
  - intros col row Hc Hr. apply index4 in Hc. apply index4 in Hr.
    destruct Hc as [-> | [-> | [-> | ->]]];
      destruct Hr as [-> | [-> | [-> | ->]]]; reflexivity.
  - exact W.
Defined.

(** ** The words of the key schedule *)

Lemma word_of_bytes_sum b0 b1 b2 b3 :
  is_u8 b0 -> is_u8 b1 -> is_u8 b2 -> is_u8 b3 ->
  word_of_bytes b0 b1 b2 b3 = b3 * 2 ^ 24 + b2 * 2 ^ 16 + b1 * 2 ^ 8 + b0.
Proof.
  intros H0 H1 H2 H3. unfold word_of_bytes.
  rewrite <- (lor_3shifts b3 b2 b1 b0) by assumption.
  rewrite (Z.lor_comm b0). rewrite (Z.lor_comm (Z.shiftl b1 8)).
  rewrite (Z.lor_comm (Z.shiftl b2 16)). reflexivity.
Qed.

Lemma byte_of_word_div w n : 0 <= n -> byte_of_word w n = (w / 2 ^ (8 * n)) mod 256.
Proof.
  intros Hn. unfold byte_of_word. rewrite u8_mod, Z.shiftr_div_pow2 by lia.
  reflexivity.
Qed.

Lemma byte_of_sum b0 b1 b2 b3 :
  is_u8 b0 -> is_u8 b1 -> is_u8 b2 -> is_u8 b3 ->
  byte_of_word (b3 * 2 ^ 24 + b2 * 2 ^ 16 + b1 * 2 ^ 8 + b0) 0 = b0 /\
  byte_of_word (b3 * 2 ^ 24 + b2 * 2 ^ 16 + b1 * 2 ^ 8 + b0) 1 = b1 /\
  byte_of_word (b3 * 2 ^ 24 + b2 * 2 ^ 16 + b1 * 2 ^ 8 + b0) 2 = b2 /\
  byte_of_word (b3 * 2 ^ 24 + b2 * 2 ^ 16 + b1 * 2 ^ 8 + b0) 3 = b3 /\
  0 <= b3 * 2 ^ 24 + b2 * 2 ^ 16 + b1 * 2 ^ 8 + b0 < 2 ^ 32.
Proof.
  intros H0 H1 H2 H3.
  rewrite !byte_of_word_div by lia. unfold is_u8 in *.
  change (2 ^ (8 * 0)) with 1. change (2 ^ (8 * 1)) with 256.
  change (2 ^ (8 * 2)) with 65536. change (2 ^ (8 * 3)) with 16777216.
  change (2 ^ 24) with 16777216. change (2 ^ 16) with 65536.
  change (2 ^ 8) with 256. change (2 ^ 32) with 4294967296.
  repeat split; try lia; Z.div_mod_to_equations; lia.
Qed.

Lemma word_split w :
  0 <= w < 2 ^ 32 ->
  w = byte_of_word w 3 * 2 ^ 24 + byte_of_word w 2 * 2 ^ 16
      + byte_of_word w 1 * 2 ^ 8 + byte_of_word w 0.
Proof.
  intros Hw. rewrite !byte_of_word_div by lia.
  change (2 ^ (8 * 0)) with 1. change (2 ^ (8 * 1)) with 256.
  change (2 ^ (8 * 2)) with 65536. change (2 ^ (8 * 3)) with 16777216.
  change (2 ^ 24) with 16777216. change (2 ^ 16) with 65536.
  change (2 ^ 8) with 256. change (2 ^ 32) with 4294967296 in Hw.
  Z.div_mod_to_equations. lia.
Qed.

Lemma RotWord_bytes b0 b1 b2 b3 :
  is_u8 b0 -> is_u8 b1 -> is_u8 b2 -> is_u8 b3 ->
  key.RotWord (b3 * 2 ^ 24 + b2 * 2 ^ 16 + b1 * 2 ^ 8 + b0)
  = b2 * 2 ^ 24 + b1 * 2 ^ 16 + b0 * 2 ^ 8 + b3.
Proof.
  intros H0 H1 H2 H3. unfold key.RotWord, rotl32. rewrite u32_mod.
  change (32 - 8) with 24. unfold is_u8 in *.
  set (w := b3 * 2 ^ 24 + b2 * 2 ^ 16 + b1 * 2 ^ 8 + b0).
  assert (E3 : Z.shiftr w 24 = b3).
  { rewrite Z.shiftr_div_pow2 by lia. unfold w.
    change (2 ^ 24) with 16777216. change (2 ^ 16) with 65536.
    change (2 ^ 8) with 256. Z.div_mod_to_equations. lia. }
  rewrite E3, lor_shiftl_add by lia. unfold w.
  change (2 ^ 24) with 16777216. change (2 ^ 16) with 65536.
  change (2 ^ 8) with 256. change (2 ^ 32) with 4294967296.
  Z.div_mod_to_equations. lia.
Qed.

(** X29. On a 32-bit word [SubWord] puts each of the four bytes through the
    S-box and leaves it in its place, and [RotWord] moves byte [n] to byte
    [n + 1], the top byte to byte 0; both return 32-bit words, and four
    applications of [RotWord] give the word back. *)
Theorem SubWord_RotWord_on_bytes (w : Z) :
  0 <= w < 2 ^ 32 ->
  (forall n, 0 <= n < 4 ->
     byte_of_word (key.SubWord w) n = sub_byte (byte_of_word w n) /\
     byte_of_word (key.RotWord w) n = byte_of_word w ((n + 3) mod 4)) /\
  0 <= key.SubWord w < 2 ^ 32 /\ 0 <= key.RotWord w < 2 ^ 32 /\
  key.RotWord (key.RotWord (key.RotWord (key.RotWord w))) = w.
Proof.
  intros Hw.
  assert (HS : forall n, is_u8 (sub_byte (byte_of_word w n)))
    by (intros n; apply sub_byte_range, byte_of_word_range).
  assert (ES : key.SubWord w
               = sub_byte (byte_of_word w 3) * 2 ^ 24 + sub_byte (byte_of_word w 2) * 2 ^ 16
                 + sub_byte (byte_of_word w 1) * 2 ^ 8 + sub_byte (byte_of_word w 0))
    by (unfold key.SubWord, tab4; cbn [v0 v1 v2 v3]; now apply word_of_bytes_sum).
  destruct (byte_of_sum _ _ _ _ (HS 0) (HS 1) (HS 2) (HS 3)) as (S0 & S1 & S2 & S3 & SR).
  rewrite <- ES in S0, S1, S2, S3, SR.
  pose proof (byte_of_word_range w 0) as B0. pose proof (byte_of_word_range w 1) as B1.
  pose proof (byte_of_word_range w 2) as B2. pose proof (byte_of_word_range w 3) as B3.
  pose proof (word_split w Hw) as Ew.
  set (b0 := byte_of_word w 0) in *. set (b1 := byte_of_word w 1) in *.
  set (b2 := byte_of_word w 2) in *. set (b3 := byte_of_word w 3) in *.
  assert (R1 : key.RotWord w = b2 * 2 ^ 24 + b1 * 2 ^ 16 + b0 * 2 ^ 8 + b3)
    by (rewrite Ew at 1; now apply RotWord_bytes).
  destruct (byte_of_sum _ _ _ _ B3 B0 B1 B2) as (T0 & T1 & T2 & T3 & TR).
  rewrite <- R1 in T0, T1, T2, T3, TR.
  split; [|split; [|split]].
  - intros n Hn. apply index4 in Hn.
    destruct Hn as [-> | [-> | [-> | ->]]]; split; assumption.
  - exact SR.
  - exact TR.
  - rewrite R1, !RotWord_bytes by assumption. symmetry. exact Ew.
Qed.

Lemma SubWord_RotWord_on_bytes_witness :
  key.RotWord (key.RotWord (key.RotWord (key.RotWord 0x09cf4f3c))) = 0x09cf4f3c.
Proof.
  destruct (SubWord_RotWord_on_bytes 0x09cf4f3c) as (_ & _ & _ & W).
  - lia.
  - exact W.
Defined.

(** ** The messages shown at the start *)

(** X30. Whatever [std::rand()] returns, the program starts by writing its
    nine messages as they stand in the source, each followed by the zero
    bytes that fill its last block, with the names of the three modes after
    them: none of the three round trips throws or corrupts a message. *)
Theorem start_shows_the_messages `{Layout} (nonce : Z) :
  app.start nonce
  = Ret (zero_padded app.welcome_1 ++ zero_padded app.welcome_2
         ++ zero_padded app.welcome_3 ++ app.after_ecb
         ++ zero_padded app.welcome_4 ++ zero_padded app.welcome_5
         ++ zero_padded app.welcome_6 ++ app.after_ctr
         ++ zero_padded app.welcome_7 ++ zero_padded app.welcome_8
         ++ zero_padded app.welcome_9 ++ app.after_gcm).
Proof.
  assert (V10 : valid_rounds 10) by (left; reflexivity).
  assert (V12 : valid_rounds (10 + 2)) by (right; left; reflexivity).
  assert (V14 : valid_rounds (10 + 2 + 2)) by (right; right; reflexivity).
  unfold app.start, app.show. cbv zeta.
  cbn [fold_left bind fst snd].
  rewrite (InvCipher_Cipher _ _ _ V10). cbn [bind fst snd].
  rewrite (InvCipher_Cipher _ _ _ V12). cbn [bind fst snd].
  rewrite (InvCipher_Cipher _ _ _ V14). cbn [bind fst snd fold_left].
  rewrite (Ctr_Ctr _ _ _ _ V10). cbn [bind fst snd].
  rewrite (Ctr_Ctr _ _ _ _ V12). cbn [bind fst snd].
  rewrite (Ctr_Ctr _ _ _ _ V14). cbn [bind fst snd fold_left].
  rewrite (Dec_Enc _ _ _ _ V10). cbn [bind fst snd].
  rewrite (Dec_Enc _ _ _ _ V12). cbn [bind fst snd].
  rewrite (Dec_Enc _ _ _ _ V14). cbn [bind fst snd].
  reflexivity.
Qed.
